(** * Grok content generator and smart file selection: a shallow embedding

    The development follows two source files of the repository:
    - [packages/core/src/core/grokContentGenerator.ts]: the conversion of a
      request, the non-streaming and the streaming normalizer of a reply with
      their extraction of tool calls written as text, [countTokens] and
      [embedContent];
    - the read-many-files tool: [parseSelectionResponse], the selection and
      the budgeted read of [executeWithSmartSelection], [estimateTokens];
      and around them [validateParams], the discovery and the standard read
      of [execute], the previews, the fallback read and
      [shouldUseSmartSelection] with the table of [tokenLimit].

    JavaScript strings are sequences of UTF-16 code units; they are modelled
    as lists of numbers, so that [length], [substring], [trim] and the
    character classes of the regular expressions mean what they mean in the
    source. Each regular expression of the source is a matcher at the start
    of a string, and [matchAll] and [replace] are the left-to-right searches
    built on it; [JSON.parse] is a parser of the JSON grammar. What the
    environment decides (the replies of the backend, the results of reading
    a file, the abort signal) is an input of the functions; the output of
    [console.log] and the clock and random parts of generated identifiers are
    left out.

    The modules hold the embedding; the properties and their proofs follow. *)

From Stdlib Require Import String Ascii.
From Stdlib Require Import List NArith ZArith Bool Lia Sorted.
Import ListNotations.

(* ===================================================================== *)
(** ** JavaScript strings *)
(* ===================================================================== *)

Module JsString.

Local Open Scope N_scope.

(** A string is the list of its UTF-16 code units. *)
Definition jsstring := list N.

(** Literals: each character of a Rocq string is one code unit. *)
Definition js (s : string) : jsstring :=
  List.map N_of_ascii (list_ascii_of_string s).

(** The same, with every apostrophe of the literal standing for a double
    quote (code unit 34), to write JSON text. *)
Definition jsq (s : string) : jsstring :=
  List.map (fun c => if c =? 39 then 34 else c) (js s).

Definition in_range (lo hi c : N) : bool := (lo <=? c) && (c <=? hi).

(** [\s] of a JavaScript regular expression, which is also the set that
    [String.prototype.trim] strips: WhiteSpace and LineTerminator. *)
Definition is_space (c : N) : bool :=
  in_range 9 13 c || (c =? 32) || (c =? 160) || (c =? 5760)
  || in_range 8192 8202 c || (c =? 8232) || (c =? 8233) || (c =? 8239)
  || (c =? 8287) || (c =? 12288) || (c =? 65279).

(** [\d]: the ten ASCII digits. *)
Definition is_digit (c : N) : bool := in_range 48 57 c.

(** [\w]: ASCII letters, digits and the underscore. *)
Definition is_word (c : N) : bool :=
  in_range 65 90 c || in_range 97 122 c || is_digit c || (c =? 95).

(** The class of the two quote characters, apostrophe and double quote, and
    its complement. *)
Definition is_quote (c : N) : bool := (c =? 39) || (c =? 34).
Definition not_quote (c : N) : bool := negb (is_quote c).

(** [^\]] *)
Definition not_rbracket (c : N) : bool := negb (c =? 93).

(** [strip_prefix p s]: when [s] starts with [p], what follows it. *)
Fixpoint strip_prefix (p s : jsstring) : option jsstring :=
  match p, s with
  | [], _ => Some s
  | _ :: _, [] => None
  | a :: p', b :: s' => if a =? b then strip_prefix p' s' else None
  end.

(** [expect c s]: what follows the code unit [c] when [s] starts with it. *)
Definition expect (c : N) (s : jsstring) : option jsstring :=
  match s with
  | [] => None
  | x :: r => if x =? c then Some r else None
  end.

(** [s.includes(p)] *)
Fixpoint includes (s p : jsstring) : bool :=
  match strip_prefix p s with
  | Some _ => true
  | None => match s with
            | [] => false
            | _ :: t => includes t p
            end
  end.

(** [find_sub p s]: the text of [s] before the first occurrence of [p]. *)
Fixpoint find_sub (p s : jsstring) : option jsstring :=
  match strip_prefix p s with
  | Some _ => Some []
  | None => match s with
            | [] => None
            | c :: t => option_map (cons c) (find_sub p t)
            end
  end.

(** The longest prefix whose code units are all in the class [f], and the
    rest: what a greedy [f*] consumes. *)
Fixpoint span (f : N -> bool) (s : jsstring) : jsstring * jsstring :=
  match s with
  | [] => ([], [])
  | c :: t => if f c then let (a, b) := span f t in (c :: a, b) else ([], s)
  end.

Fixpoint drop_while (f : N -> bool) (s : jsstring) : jsstring :=
  match s with
  | [] => []
  | c :: t => if f c then drop_while f t else s
  end.

(** [s.trim()] *)
Definition trim (s : jsstring) : jsstring :=
  rev (drop_while is_space (rev (drop_while is_space s))).

(** Truthiness of a string: [''] is falsy. *)
Definition nonempty (s : jsstring) : bool :=
  match s with [] => false | _ => true end.

(** [s.substring(0, n)] for [n >= 0] *)
Definition substring0 (n : nat) (s : jsstring) : jsstring := firstn n s.

(** [parts.join(sep)] *)
Fixpoint join (sep : jsstring) (l : list jsstring) : jsstring :=
  match l with
  | [] => []
  | [x] => x
  | x :: t => x ++ sep ++ join sep t
  end.

End JsString.

Import JsString.

(* ===================================================================== *)
(** ** Global regular-expression search *)
(* ===================================================================== *)

Module Regex.

(** A pattern is given by its matcher at the start of a string: the captured
    groups and the length of the match. None of the patterns of the source
    looks behind, so whether and how a pattern matches at an index depends
    only on the text from that index on; none matches the empty string. *)
Definition matcher (A : Type) := jsstring -> option (A * nat).

(** [s.matchAll(re)] for a global [re]: the matches from left to right, each
    with the index where it starts. After a match the search resumes at its
    end, which [skip] counts down to. *)
Fixpoint matchAll_from {A} (m : matcher A) (idx skip : nat) (s : jsstring)
  : list (nat * A) :=
  match s with
  | [] => []
  | _ :: t =>
      match skip with
      | S k => matchAll_from m (S idx) k t
      | O => match m s with
             | Some (a, n) => (idx, a) :: matchAll_from m (S idx) (pred n) t
             | None => matchAll_from m (S idx) 0 t
             end
      end
  end.

Definition matchAll {A} (m : matcher A) (s : jsstring) : list (nat * A) :=
  matchAll_from m 0 0 s.

(** [s.replace(re, '')] for a global [re]: the text outside the matches. *)
Fixpoint remove_from {A} (m : matcher A) (skip : nat) (s : jsstring)
  : jsstring :=
  match s with
  | [] => []
  | c :: t =>
      match skip with
      | S k => remove_from m k t
      | O => match m s with
             | Some (_, n) => remove_from m (pred n) t
             | None => c :: remove_from m 0 t
             end
      end
  end.

Definition removeAll {A} (m : matcher A) (s : jsstring) : jsstring :=
  remove_from m 0 s.

Definition OPEN_BLOCK : jsstring := js "[function_call]".
Definition CLOSE_BLOCK : jsstring := js "[/function_call]".
Definition OPEN_TOOL : jsstring := js "[tool_call:".
Definition CALLING : jsstring := js "Calling function ".

(** [/\[function_call\](.*?)\[\/function_call\]/gs]: with the [s] flag the
    dot matches every code unit, and the lazy star stops at the first closing
    marker. The capture is the text between the markers. *)
Definition block_re : matcher jsstring := fun s =>
  match strip_prefix OPEN_BLOCK s with
  | None => None
  | Some r =>
      match find_sub CLOSE_BLOCK r with
      | None => None
      | Some inner =>
          Some (inner, length OPEN_BLOCK + length inner + length CLOSE_BLOCK)%nat
      end
  end.

(** A greedy class repetition that must consume at least one code unit. *)
Definition span1 (f : N -> bool) (s : jsstring) : option (jsstring * jsstring) :=
  match span f s with
  | ([], _) => None
  | (a, b) => Some (a, b)
  end.

(** The inline pattern
    [/\[tool_call:\s*(\w+)\s+for\s+(\w+)\s+Q([^Q]+)Q\]/g], where [Q] stands
    for the class of the two quote characters. Each repetition is followed by something outside its class, so the greedy
    choice is the only one that can succeed and no backtracking is lost.
    Captures: function name, parameter name, parameter value. *)
Definition tool_re : matcher (jsstring * jsstring * jsstring) := fun s =>
  match strip_prefix OPEN_TOOL s with
  | None => None
  | Some r0 =>
  let (_, r1) := span is_space r0 in
  match span1 is_word r1 with
  | None => None
  | Some (name, r2) =>
  match span1 is_space r2 with
  | None => None
  | Some (_, r3) =>
  match strip_prefix (js "for") r3 with
  | None => None
  | Some r4 =>
  match span1 is_space r4 with
  | None => None
  | Some (_, r5) =>
  match span1 is_word r5 with
  | None => None
  | Some (param, r6) =>
  match span1 is_space r6 with
  | None => None
  | Some (_, r7) =>
  match r7 with
  | [] => None
  | q :: r8 =>
  if negb (is_quote q) then None else
  match span1 not_quote r8 with
  | None => None
  | Some (value, r9) =>
  match r9 with
  | [] => None
  | q' :: r10 =>
  if negb (is_quote q') then None else
  match expect 93 r10 with
  | None => None
  | Some r11 =>
      Some ((name, param, value), (length s - length r11)%nat)
  end end end end end end end end end end end.

(** [/\s*\[tool_call:[^\]]+\]\s*/g], the pattern that removes inline
    markers. It is looser than [tool_re]: any text without a closing bracket
    may follow the opening. *)
Definition tool_strip_re : matcher unit := fun s =>
  let (_, r0) := span is_space s in
  match strip_prefix OPEN_TOOL r0 with
  | None => None
  | Some r1 =>
  match span1 not_rbracket r1 with
  | None => None
  | Some (_, r2) =>
  match expect 93 r2 with
  | None => None
  | Some r3 =>
      let (_, r4) := span is_space r3 in
      Some (tt, (length s - length r4)%nat)
  end end end.

(** [/Calling function (\w+)/g] *)
Definition simple_re : matcher jsstring := fun s =>
  match strip_prefix CALLING s with
  | None => None
  | Some r0 =>
  match span1 is_word r0 with
  | None => None
  | Some (name, r1) => Some (name, (length s - length r1)%nat)
  end end.

(** [/\s*Calling function \w+\s*/g] *)
Definition simple_strip_re : matcher unit := fun s =>
  let (_, r0) := span is_space s in
  match strip_prefix CALLING r0 with
  | None => None
  | Some r1 =>
  match span1 is_word r1 with
  | None => None
  | Some (_, r2) =>
      let (_, r3) := span is_space r2 in
      Some (tt, (length s - length r3)%nat)
  end end.

(** [/\d+/g] *)
Definition digits_re : matcher jsstring := fun s =>
  match span1 is_digit s with
  | None => None
  | Some (d, _) => Some (d, length d)
  end.

End Regex.

Import Regex.

(* ===================================================================== *)
(** ** JSON values and [JSON.parse] *)
(* ===================================================================== *)

Module Json.

Local Open Scope N_scope.

Set Warnings "-register-all".

(** A number keeps the value its literal denotes, [mant * 10 ^ exp10] with
    a sign; the members of an object are kept as written. *)
Inductive json : Type :=
| JNull
| JBool (b : bool)
| JNum (neg : bool) (mant : N) (exp10 : Z)
| JStr (s : jsstring)
| JArr (items : list json)
| JObj (members : list (jsstring * json)).

Fixpoint jsstring_eqb (a b : jsstring) : bool :=
  match a, b with
  | [], [] => true
  | x :: a', y :: b' => (x =? y) && jsstring_eqb a' b'
  | _, _ => false
  end.

(** Reading a property of a parsed object: a later duplicate key overwrites
    an earlier one, so the last member with the key is the value. *)
Fixpoint lookup_last (k : jsstring) (l : list (jsstring * json)) : option json :=
  match l with
  | [] => None
  | (k', v) :: t =>
      match lookup_last k t with
      | Some v' => Some v'
      | None => if jsstring_eqb k k' then Some v else None
      end
  end.

(** [v.k] for a value [v] other than [null] and a key that is no built-in
    property ([action], [action_input]): [None] is [undefined]. *)
Definition get_prop (k : jsstring) (v : json) : option json :=
  match v with
  | JObj members => lookup_last k members
  | _ => None
  end.

(** The number a literal denotes becomes the nearest double; that is zero
    when the literal is zero or at most half the least subnormal, 2^-1075. *)
Definition rounds_to_zero (mant : N) (exp10 : Z) : bool :=
  if mant =? 0 then true
  else if (0 <=? exp10)%Z then false
  else mant * 2 ^ 1075 <=? 10 ^ Z.to_N (- exp10).

(** Truthiness, as [||] tests it. *)
Definition truthy (v : json) : bool :=
  match v with
  | JNull => false
  | JBool b => b
  | JNum _ m e => negb (rounds_to_zero m e)
  | JStr s => nonempty s
  | JArr _ | JObj _ => true
  end.

(** The outcome of a parser that runs on fuel. *)
Inductive presult (A : Type) : Type :=
| POk (a : A) (rest : jsstring)
| PErr
| PFuel.
Arguments POk {A} a rest.
Arguments PErr {A}.
Arguments PFuel {A}.

(** JSON white space: tab, line feed, carriage return, space. *)
Definition is_json_ws (c : N) : bool :=
  (c =? 9) || (c =? 10) || (c =? 13) || (c =? 32).

Definition skip_ws (s : jsstring) : jsstring := drop_while is_json_ws s.

Definition hex_val (c : N) : option N :=
  if in_range 48 57 c then Some (c - 48)
  else if in_range 65 70 c then Some (c - 55)
  else if in_range 97 102 c then Some (c - 87)
  else None.

(** The characters of a string literal after its opening quote, up to and
    including the closing quote. *)
Fixpoint parse_chars (s : jsstring) : option (jsstring * jsstring) :=
  match s with
  | [] => None
  | c :: r =>
      if c =? 34 then Some ([], r)
      else if c =? 92 then
        match r with
        | [] => None
        | e :: r' =>
            let simple (u : N) :=
              match parse_chars r' with
              | Some (t, rest) => Some (u :: t, rest)
              | None => None
              end in
            if (e =? 34) || (e =? 92) || (e =? 47) then simple e
            else if e =? 98 then simple 8
            else if e =? 102 then simple 12
            else if e =? 110 then simple 10
            else if e =? 114 then simple 13
            else if e =? 116 then simple 9
            else if e =? 117 then
              match r' with
              | h1 :: h2 :: h3 :: h4 :: r'' =>
                  match hex_val h1, hex_val h2, hex_val h3, hex_val h4 with
                  | Some a, Some b, Some c', Some d =>
                      match parse_chars r'' with
                      | Some (t, rest) =>
                          Some (((a * 16 + b) * 16 + c') * 16 + d :: t, rest)
                      | None => None
                      end
                  | _, _, _, _ => None
                  end
              | _ => None
              end
            else None
        end
      else if c <? 32 then None
      else match parse_chars r with
           | Some (t, rest) => Some (c :: t, rest)
           | None => None
           end
  end.

Definition digits_val (ds : jsstring) : N :=
  fold_left (fun acc d => 10 * acc + (d - 48)) ds 0.

(** An optional code unit: whether it is there, and what follows. *)
Definition opt_char (c : N) (s : jsstring) : bool * jsstring :=
  match expect c s with
  | Some r => (true, r)
  | None => (false, s)
  end.

(** The integer part of a number: a single 0, or digits. *)
Definition int_part (s : jsstring) : option (jsstring * jsstring) :=
  match expect 48 s with
  | Some r => Some ([48], r)
  | None => span1 is_digit s
  end.

(** The optional fraction: a point and at least one digit. *)
Definition frac_part (s : jsstring) : option (jsstring * jsstring) :=
  match expect 46 s with
  | Some r => span1 is_digit r
  | None => Some ([], s)
  end.

(** The optional exponent: e or E, an optional sign, at least one digit. *)
Definition exp_part (s : jsstring) : option (Z * jsstring) :=
  match s with
  | [] => Some (0%Z, s)
  | e :: r =>
      if (e =? 101) || (e =? 69) then
        let (eneg, r1) := opt_char 45 r in
        let r2 := if eneg then r1 else snd (opt_char 43 r1) in
        match span1 is_digit r2 with
        | Some (ed, r3) =>
            let ev := Z.of_N (digits_val ed) in
            Some (if eneg then (- ev)%Z else ev, r3)
        | None => None
        end
      else Some (0%Z, s)
  end.

(** A number literal: an optional minus sign, the integer part, the
    optional fraction and the optional exponent. *)
Definition parse_number (s : jsstring) : option (json * jsstring) :=
  let (neg, s1) := opt_char 45 s in
  match int_part s1 with
  | None => None
  | Some (ip, s2) =>
      match frac_part s2 with
      | None => None
      | Some (fp, s3) =>
          match exp_part s3 with
          | None => None
          | Some (ev, s4) =>
              Some (JNum neg (digits_val (ip ++ fp))
                         (ev - Z.of_nat (length fp))%Z, s4)
          end
      end
  end.

Definition of_option {A} (o : option (A * jsstring)) : presult A :=
  match o with
  | Some (a, r) => POk a r
  | None => PErr
  end.

Definition pmap {A B} (g : A -> B) (p : presult A) : presult B :=
  match p with
  | POk a r => POk (g a) r
  | PErr => PErr
  | PFuel => PFuel
  end.

Definition literal (word : jsstring) (v : json) (s : jsstring) : presult json :=
  match strip_prefix word s with
  | Some r => POk v r
  | None => PErr
  end.

(** A value, the elements of an array after its opening bracket, and the
    members of an object after its opening brace. Every call spends one unit
    of fuel. *)
Fixpoint parse_value (fuel : nat) (s : jsstring) : presult json :=
  match fuel with
  | O => PFuel
  | S f =>
      match skip_ws s with
      | [] => PErr
      | c :: r =>
          if c =? 123 then
            match expect 125 (skip_ws r) with
            | Some r' => POk (JObj []) r'
            | None => pmap JObj (parse_members f r)
            end
          else if c =? 91 then
            match expect 93 (skip_ws r) with
            | Some r' => POk (JArr []) r'
            | None => pmap JArr (parse_elems f r)
            end
          else if c =? 34 then
            match parse_chars r with
            | Some (t, r') => POk (JStr t) r'
            | None => PErr
            end
          else if c =? 116 then literal (js "true") (JBool true) (c :: r)
          else if c =? 102 then literal (js "false") (JBool false) (c :: r)
          else if c =? 110 then literal (js "null") JNull (c :: r)
          else of_option (parse_number (c :: r))
      end
  end
with parse_elems (fuel : nat) (s : jsstring) : presult (list json) :=
  match fuel with
  | O => PFuel
  | S f =>
      match parse_value f s with
      | POk v r =>
          match expect 44 (skip_ws r) with
          | Some r' => pmap (cons v) (parse_elems f r')
          | None =>
              match expect 93 (skip_ws r) with
              | Some r' => POk [v] r'
              | None => PErr
              end
          end
      | PErr => PErr
      | PFuel => PFuel
      end
  end
with parse_members (fuel : nat) (s : jsstring)
  : presult (list (jsstring * json)) :=
  match fuel with
  | O => PFuel
  | S f =>
      match expect 34 (skip_ws s) with
      | None => PErr
      | Some r =>
          match parse_chars r with
          | None => PErr
          | Some (k, r1) =>
              match expect 58 (skip_ws r1) with
              | None => PErr
              | Some r2 =>
                  match parse_value f r2 with
                  | POk v r3 =>
                      match expect 44 (skip_ws r3) with
                      | Some r4 => pmap (cons (k, v)) (parse_members f r4)
                      | None =>
                          match expect 125 (skip_ws r3) with
                          | Some r4 => POk [(k, v)] r4
                          | None => PErr
                          end
                      end
                  | PErr => PErr
                  | PFuel => PFuel
                  end
              end
          end
      end
  end.

(** Fuel that no text exhausts (see [parse_value_fuel]). *)
Definition fuel_for (s : jsstring) : nat := 2 * length s + 2.

(** [JSON.parse(text)]: [None] when it throws a [SyntaxError]. *)
Definition JSON_parse (text : jsstring) : option json :=
  match parse_value (fuel_for text) text with
  | POk v r => match skip_ws r with
               | [] => Some v
               | _ => None
               end
  | _ => None
  end.

End Json.

Import Json.

(* ===================================================================== *)
(** ** The Grok content generator (grokContentGenerator.ts) *)
(* ===================================================================== *)

Module Grok.

Local Open Scope N_scope.

(** *** Failures *)

(** What the code can throw or pass through. *)
Inductive exn : Type :=
| GenericError (message : jsstring)   (* new Error(message) *)
| JsonSyntaxError                     (* thrown by JSON.parse *)
| UndefinedAccess                     (* reading a property of undefined *)
| BackendFailure (name : string) (message : jsstring).
                                      (* a rejection of the client call *)

(** The name of the error class of a thrown value. *)
Definition exn_name (e : exn) : string :=
  match e with
  | GenericError _ => "Error"
  | JsonSyntaxError => "SyntaxError"
  | UndefinedAccess => "TypeError"
  | BackendFailure n _ => n
  end.

Inductive outcome (A : Type) : Type :=
| Returned (a : A)
| Threw (e : exn).
Arguments Returned {A} a.
Arguments Threw {A} e.

Definition bind {A B} (o : outcome A) (k : A -> outcome B) : outcome B :=
  match o with
  | Returned a => k a
  | Threw e => Threw e
  end.

Notation "x <- o ;; k" := (bind o (fun x => k))
  (at level 61, o at next level, right associativity).

(** *** Requests *)

(** A part of a request: the fields the code reads. A function response or
    call may lack its name. *)
Record req_part : Type := {
  rp_text : option jsstring;
  rp_functionResponse : option (option jsstring);
  rp_functionCall : option (option jsstring)
}.

(** An element of [request.contents]: a string, a [Content] (an object with
    the keys [role] and [parts]), or anything else, such as a bare part. *)
Inductive content_union : Type :=
| CString (s : jsstring)
| CContent (role : jsstring) (parts : option (list req_part))
| COther.

(** [request.contents] is one element or an array of them. *)
Inductive content_list_union : Type :=
| One (c : content_union)
| Many (l : list content_union).

Record function_declaration : Type := {
  fd_name : jsstring;
  fd_description : option jsstring;
  fd_parameters : option json
}.

Record tool : Type := {
  t_functionDeclarations : option (list function_declaration)
}.

Record generate_config : Type := {
  gc_systemInstruction : option content_union;
  gc_tools : option (list tool);
  gc_temperature : option json;
  gc_maxOutputTokens : option json;
  gc_topP : option json
}.

Record generate_request : Type := {
  gr_model : jsstring;
  gr_contents : option content_list_union;
  gr_config : option generate_config
}.

Record openai_message : Type := {
  om_role : jsstring;
  om_content : jsstring
}.

Record openai_tool : Type := {
  ot_name : jsstring;
  ot_description : option jsstring;
  ot_parameters : option json
}.

Record openai_request : Type := {
  or_model : jsstring;
  or_messages : list openai_message;
  or_temperature : option json;
  or_max_tokens : option json;
  or_top_p : option json;
  or_tools : option (list openai_tool);
  or_tool_choice : option jsstring;
  or_stream : bool
}.

(** A missing name is rendered by the template literals as [undefined]. *)
Definition render_name (n : option jsstring) : jsstring :=
  match n with
  | Some s => s
  | None => js "undefined"
  end.

Definition part_text (p : req_part) : jsstring :=
  match rp_text p with
  | Some (c :: t) => c :: t
  | _ =>
      match rp_functionResponse p with
      | Some n => js "Function " ++ render_name n ++ js " executed"
      | None =>
          match rp_functionCall p with
          | Some n => js "Calling function " ++ render_name n
          | None => []
          end
      end
  end.

Definition extractTextFromParts (parts : list req_part) : jsstring :=
  join (js " ") (filter nonempty (map part_text parts)).

Definition or_empty {A} (o : option (list A)) : list A :=
  match o with
  | Some l => l
  | None => []
  end.

(** [Array.isArray(contents) ? contents : [contents]] *)
Definition contentArray (c : content_list_union) : list content_union :=
  match c with
  | One x => [x]
  | Many l => l
  end.

(** The messages one element of the contents contributes. *)
Definition content_messages (c : content_union) : list openai_message :=
  match c with
  | CString s => [ {| om_role := js "user"; om_content := s |} ]
  | CContent role parts =>
      let textContent := extractTextFromParts (or_empty parts) in
      if jsstring_eqb role (js "user") then
        [ {| om_role := js "user"; om_content := textContent |} ]
      else if jsstring_eqb role (js "model") then
        if nonempty textContent then
          [ {| om_role := js "assistant"; om_content := textContent |} ]
        else []
      else []
  | COther => []
  end.

(** The system message that [messages.unshift] puts in front, if any. *)
Definition system_messages (cfg : option generate_config) : list openai_message :=
  match cfg with
  | None => []
  | Some c =>
      match gc_systemInstruction c with
      | Some (CString (x :: t)) =>
          [ {| om_role := js "system"; om_content := x :: t |} ]
      | Some (CContent _ (Some parts)) =>
          let systemContent := extractTextFromParts parts in
          if nonempty systemContent then
            [ {| om_role := js "system"; om_content := systemContent |} ]
          else []
      | _ => []
      end
  end.

Definition convertToolsToOpenAIFormat (geminiTools : list tool) : list openai_tool :=
  flat_map
    (fun t =>
       map (fun f => {| ot_name := fd_name f;
                        ot_description := fd_description f;
                        ot_parameters := fd_parameters f |})
           (or_empty (t_functionDeclarations t)))
    geminiTools.

Definition config_field {A} (cfg : option generate_config)
  (f : generate_config -> option A) : option A :=
  match cfg with
  | Some c => f c
  | None => None
  end.

(** The debug output of [console.log] is left out. *)
Definition convertToOpenAIRequest (request : generate_request) : openai_request :=
  let messages :=
    match gr_contents request with
    | Some (One (CString [])) | None => []   (* falsy contents *)
    | Some c => flat_map content_messages (contentArray c)
    end in
  let tools :=
    match config_field (gr_config request) gc_tools with
    | Some (t :: ts) => Some (convertToolsToOpenAIFormat (t :: ts))
    | _ => None
    end in
  {| or_model := if nonempty (gr_model request) then gr_model request
                 else js "grok-beta";
     or_messages := system_messages (gr_config request) ++ messages;
     or_temperature := config_field (gr_config request) gc_temperature;
     or_max_tokens := config_field (gr_config request) gc_maxOutputTokens;
     or_top_p := config_field (gr_config request) gc_topP;
     or_tools := tools;
     or_tool_choice := match tools with
                       | Some _ => Some (js "auto")
                       | None => None
                       end;
     or_stream := false |}.

(** *** Backend replies *)

Record tool_call : Type := {
  tc_type : jsstring;
  tc_id : jsstring;
  tc_name : jsstring;
  tc_arguments : jsstring
}.

Record message : Type := {
  m_content : option jsstring;
  m_tool_calls : option (list tool_call)
}.

Record choice : Type := {
  ch_message : message;
  ch_finish_reason : option jsstring
}.

Record usage : Type := {
  prompt_tokens : N;
  completion_tokens : N;
  total_tokens : N
}.

Record chat_completion : Type := {
  cc_choices : list choice;
  cc_usage : option usage
}.

(** *** Responses *)

(** The identifier of a call: the backend's own, or one the code generates
    from a prefix, the clock and a random suffix (which are left out). *)
Inductive call_id : Type :=
| GeneratedId (prefix : string)
| BackendId (id : jsstring).

(** [fc_name] is [None] when the parsed block has no [action]. *)
Record function_call : Type := {
  fc_id : call_id;
  fc_name : option json;
  fc_args : json
}.

Inductive part : Type :=
| Text (s : jsstring)
| FunctionCallPart (fc : function_call)
| Thought (s : jsstring).

Inductive FinishReason : Type := STOP | OTHER.

Record response : Type := {
  r_parts : list part;
  r_finishReason : FinishReason;
  r_usageMetadata : option usage;
  r_text : jsstring;
  r_functionCalls : option (list function_call)
}.

Definition finish_of (reason : option jsstring) : FinishReason :=
  match reason with
  | Some r => if jsstring_eqb r (js "stop") then STOP else OTHER
  | None => OTHER
  end.

(** The two arrays the normalizers fill in step, and the text they clean. *)
Record extraction : Type := {
  x_parts : list part;
  x_calls : list function_call;
  x_text : jsstring
}.

Definition push_call (x : extraction) (fc : function_call) : extraction :=
  {| x_parts := x_parts x ++ [FunctionCallPart fc];
     x_calls := x_calls x ++ [fc];
     x_text := x_text x |}.

Definition push_calls (x : extraction) (l : list function_call) : extraction :=
  fold_left push_call l x.

Definition set_text (x : extraction) (t : jsstring) : extraction :=
  {| x_parts := x_parts x; x_calls := x_calls x; x_text := t |}.

Definition push_part (x : extraction) (p : part) : extraction :=
  {| x_parts := x_parts x ++ [p]; x_calls := x_calls x; x_text := x_text x |}.

(** The body of the [try] of the block form: [JSON.parse] may throw, and so
    does reading [action] of [null]; both are caught and the block yields no
    call. [action_input || {}] replaces a falsy value by an empty object. *)
Definition block_call (prefix : string) (inner : jsstring) : option function_call :=
  match JSON_parse (trim inner) with
  | None => None
  | Some JNull => None
  | Some data =>
      Some {| fc_id := GeneratedId prefix;
              fc_name := get_prop (js "action") data;
              fc_args := match get_prop (js "action_input") data with
                         | Some a => if truthy a then a else JObj []
                         | None => JObj []
                         end |}
  end.

(** The calls of each textual form, each with the index of its marker. *)
Definition block_calls (prefix : string) (s : jsstring) : list (nat * function_call) :=
  flat_map (fun m => match block_call prefix (snd m) with
                     | Some fc => [(fst m, fc)]
                     | None => []
                     end)
           (matchAll block_re s).

Definition tool_calls (prefix : string) (s : jsstring) : list (nat * function_call) :=
  map (fun m => let '(i, (functionName, paramName, paramValue)) := m in
                (i, {| fc_id := GeneratedId prefix;
                       fc_name := Some (JStr functionName);
                       fc_args := JObj [(paramName, JStr paramValue)] |}))
      (matchAll tool_re s).

Definition simple_calls (prefix : string) (s : jsstring) : list (nat * function_call) :=
  map (fun m => (fst m, {| fc_id := GeneratedId prefix;
                           fc_name := Some (JStr (snd m));
                           fc_args := JObj [] |}))
      (matchAll simple_re s).

Definition or_text (c : option jsstring) : jsstring :=
  match c with
  | Some s => s
  | None => []
  end.

(** [content && content.includes(marker)] *)
Definition has (c : option jsstring) (marker : jsstring) : bool :=
  match c with
  | Some s => nonempty s && includes s marker
  | None => false
  end.

(** The textual forms of the non-streaming normalizer, in the order of the
    source. Every form searches and cleans [message.content] itself. *)
Definition scan_block (content : option jsstring) (x : extraction) : extraction :=
  if has content OPEN_BLOCK then
    set_text (push_calls x (map snd (block_calls "grok_" (or_text content))))
             (trim (removeAll block_re (or_text content)))
  else x.

Definition scan_tool (content : option jsstring) (x : extraction) : extraction :=
  if has content OPEN_TOOL then
    set_text (push_calls x (map snd (tool_calls "grok_mini_" (or_text content))))
             (trim (removeAll tool_strip_re (or_text content)))
  else x.

Definition scan_simple (content : option jsstring) (x : extraction) : extraction :=
  if has content CALLING then
    set_text (push_calls x (map snd (simple_calls "grok_simple_" (or_text content))))
             (trim (removeAll simple_strip_re (or_text content)))
  else x.

Definition push_text (x : extraction) : extraction :=
  if nonempty (x_text x) then push_part x (Text (x_text x)) else x.

(** The structured calls of the reply; [JSON.parse] of the arguments is not
    guarded and its failure leaves the normalizer. *)
Fixpoint native_calls (l : list tool_call) (x : extraction) : outcome extraction :=
  match l with
  | [] => Returned x
  | tc :: rest =>
      if jsstring_eqb (tc_type tc) (js "function") then
        match JSON_parse (if nonempty (tc_arguments tc) then tc_arguments tc
                          else js "{}") with
        | None => Threw JsonSyntaxError
        | Some a =>
            native_calls rest
              (push_call x {| fc_id := BackendId (tc_id tc);
                              fc_name := Some (JStr (tc_name tc));
                              fc_args := a |})
        end
      else native_calls rest x
  end.

Definition calls_field (l : list function_call) : option (list function_call) :=
  match l with
  | [] => None
  | _ => Some l
  end.

Definition convertToGeminiResponse (r : chat_completion) : outcome response :=
  match cc_choices r with
  | [] => Threw UndefinedAccess
  | choice :: _ =>
      let message := ch_message choice in
      let x0 := {| x_parts := []; x_calls := [];
                   x_text := or_text (m_content message) |} in
      let x1 := scan_block (m_content message) x0 in
      let x2 := scan_tool (m_content message) x1 in
      let x3 := scan_simple (m_content message) x2 in
      let x4 := push_text x3 in
      x5 <- native_calls (or_empty (m_tool_calls message)) x4 ;;
      Returned {| r_parts := x_parts x5;
                  r_finishReason := finish_of (ch_finish_reason choice);
                  r_usageMetadata := cc_usage r;
                  r_text := x_text x5;
                  r_functionCalls := calls_field (x_calls x5) |}
  end.

(** *** The streaming normalizer *)

Record stream_function : Type := {
  sf_name : option jsstring;
  sf_arguments : option jsstring
}.

Record stream_tool_call : Type := {
  stc_type : option jsstring;
  stc_id : option jsstring;
  stc_function : option stream_function
}.

Record delta : Type := {
  d_content : option jsstring;
  d_reasoning_content : option jsstring;
  d_tool_calls : option (list stream_tool_call)
}.

Record stream_choice : Type := {
  sc_delta : delta;
  sc_finish_reason : option jsstring
}.

Record chunk : Type := {
  k_choices : list stream_choice
}.

(** Truthiness of an optional string. *)
Definition given (c : option jsstring) : bool := nonempty (or_text c).

(** The block form over the accumulated buffer: it is searched once both
    markers are in it, the matches are removed from it, and the text of the
    delta is cleaned by the same pattern on its own. *)
Definition stream_block (content : option jsstring) (st : jsstring * extraction)
  : jsstring * extraction :=
  let (accumulatedContent, x) := st in
  if includes accumulatedContent OPEN_BLOCK
     && includes accumulatedContent CLOSE_BLOCK then
    (trim (removeAll block_re accumulatedContent),
     set_text (push_calls x (map snd (block_calls "grok_stream_" accumulatedContent)))
              (trim (removeAll block_re (or_text content))))
  else st.

Definition stream_tool (content : option jsstring) (st : jsstring * extraction)
  : jsstring * extraction :=
  let (accumulatedContent, x) := st in
  if includes accumulatedContent OPEN_TOOL then
    (trim (removeAll tool_strip_re accumulatedContent),
     set_text (push_calls x (map snd (tool_calls "grok_mini_stream_" accumulatedContent)))
              (trim (removeAll tool_strip_re (or_text content))))
  else st.

Fixpoint stream_native_calls (l : list stream_tool_call) (x : extraction)
  : outcome extraction :=
  match l with
  | [] => Returned x
  | tc :: rest =>
      match stc_function tc with
      | Some f =>
          if jsstring_eqb (or_text (stc_type tc)) (js "function") then
            match (if given (sf_arguments f)
                   then JSON_parse (or_text (sf_arguments f))
                   else Some (JObj [])) with
            | None => Threw JsonSyntaxError
            | Some a =>
                stream_native_calls rest
                  (push_call x {| fc_id := if given (stc_id tc)
                                           then BackendId (or_text (stc_id tc))
                                           else GeneratedId "tool_";
                                  fc_name := Some (JStr (or_text (sf_name f)));
                                  fc_args := a |})
            end
          else stream_native_calls rest x
      | None => stream_native_calls rest x
      end
  end.

(** One turn of the loop: the new buffer and the response yielded, if the
    chunk has a choice and produced a part. *)
Definition stream_chunk (accumulatedContent : jsstring) (c : chunk)
  : jsstring * outcome (option response) :=
  match k_choices c with
  | [] => (accumulatedContent, Returned None)
  | choice :: _ =>
      let d := sc_delta choice in
      let x0 := {| x_parts := []; x_calls := []; x_text := or_text (d_content d) |} in
      let x1 := if given (d_reasoning_content d)
                then push_part x0 (Thought (js "**Thinking** "
                                            ++ or_text (d_reasoning_content d)))
                else x0 in
      let acc1 := if given (d_content d)
                  then accumulatedContent ++ or_text (d_content d)
                  else accumulatedContent in
      let (acc3, x3) := stream_tool (d_content d)
                          (stream_block (d_content d) (acc1, x1)) in
      let x4 := push_text x3 in
      (acc3,
       x5 <- stream_native_calls (or_empty (d_tool_calls d)) x4 ;;
       Returned
         (match x_parts x5 with
          | [] => None
          | _ => Some {| r_parts := x_parts x5;
                         r_finishReason := finish_of (sc_finish_reason choice);
                         r_usageMetadata := None;
                         r_text := x_text x5;
                         r_functionCalls := calls_field (x_calls x5) |}
          end))
  end.

(** The generator, drained: the responses it yields and the failure that
    ends it, if one does. *)
Fixpoint stream_from (accumulatedContent : jsstring) (stream : list chunk)
  : list response * option exn :=
  match stream with
  | [] => ([], None)
  | c :: rest =>
      match stream_chunk accumulatedContent c with
      | (acc', Returned y) =>
          let (ys, e) := stream_from acc' rest in
          (match y with Some r => r :: ys | None => ys end, e)
      | (_, Threw e) => ([], Some e)
      end
  end.

Definition convertStreamToGeminiFormat (stream : list chunk)
  : list response * option exn :=
  stream_from [] stream.

(** *** Token count and embeddings *)

Record count_tokens_parameters : Type := {
  ct_model : jsstring;
  ct_contents : option content_list_union
}.

Definition count_text (c : content_union) : jsstring :=
  match c with
  | CString s => s
  | CContent _ parts => extractTextFromParts (or_empty parts)
  | COther => []
  end.

(** [Math.ceil(n / 4)] for a length [n]. *)
Definition ceil_div4 (n : N) : N := (n + 3) / 4.

Definition countTokens (request : count_tokens_parameters) : N :=
  match ct_contents request with
  | Some (One (CString [])) | None => 0
  | Some c =>
      let textContent := join (js " ") (map count_text (contentArray c)) in
      ceil_div4 (N.of_nat (length textContent))
  end.

Definition embedContent {request_t response_t : Type} (_request : request_t)
  : outcome response_t :=
  Threw (GenericError (js "Embeddings not supported by Grok")).

(** *** The two generation entry points *)

(** What an entry point did: the requests it sent to the backend, in order,
    and how it ended. *)
Record run (A : Type) : Type := {
  sent : list openai_request;
  result : outcome A
}.
Arguments sent {A} r.
Arguments result {A} r.

Section Client.

(** [client.chat.completions.create], without and with [stream: true]. *)
Variable create : openai_request -> outcome chat_completion.
Variable create_stream : openai_request -> outcome (list chunk).

Definition generateContent (request : generate_request) : run response :=
  let openaiRequest := convertToOpenAIRequest request in
  {| sent := [openaiRequest];
     result := response <- create openaiRequest ;;
               convertToGeminiResponse response |}.

Definition with_stream (r : openai_request) : openai_request :=
  {| or_model := or_model r; or_messages := or_messages r;
     or_temperature := or_temperature r; or_max_tokens := or_max_tokens r;
     or_top_p := or_top_p r; or_tools := or_tools r;
     or_tool_choice := or_tool_choice r; or_stream := true |}.

Definition generateContentStream (request : generate_request)
  : run (list response * option exn) :=
  let openaiRequest := with_stream (convertToOpenAIRequest request) in
  {| sent := [openaiRequest];
     result := stream <- create_stream openaiRequest ;;
               Returned (convertStreamToGeminiFormat stream) |}.

End Client.

End Grok.

Import Grok.

(* ===================================================================== *)
(** ** Smart selection of the read-many-files tool *)
(* ===================================================================== *)

Module ReadManyFiles.

Local Open Scope Z_scope.

(** [Math.ceil(content.length / 4)] *)
Definition estimateTokens (content : jsstring) : Z :=
  (Z.of_nat (length content) + 3) / 4.

(** [parseInt(digits, 10)] of a run of digits. The source compares the
    resulting double with 0 and 100; rounding is monotone and keeps every
    integer up to 2^53, so the comparison of the exact value decides the
    same. *)
Definition parseInt10 (digits : jsstring) : N :=
  fold_left (fun acc d => 10 * acc + (d - 48))%N digits 0%N.

Definition parseSelectionResponse (response : jsstring) : list N :=
  filter (fun num => (0 <? num)%N && (num <=? 100)%N)
         (map (fun m => parseInt10 (snd m)) (matchAll digits_re response)).

(** [.filter(Boolean)] over file paths: [undefined] and the empty string
    are dropped. *)
Fixpoint filter_truthy (l : list (option jsstring)) : list jsstring :=
  match l with
  | [] => []
  | Some (c :: t) :: rest => (c :: t) :: filter_truthy rest
  | _ :: rest => filter_truthy rest
  end.

(** Stage 3 of [executeWithSmartSelection]: the files chosen from the text
    of the reply, or the first ten candidates when none is. *)
Definition select_files (sortedFiles : list jsstring) (responseText : option jsstring)
  : list jsstring :=
  let selectedNumbers :=
    parseSelectionResponse (match responseText with Some t => t | None => [] end) in
  let selectedFiles :=
    firstn 20
      (filter_truthy
         (map (fun num => nth_error sortedFiles (N.to_nat num - 1)) selectedNumbers)) in
  match selectedFiles with
  | [] => firstn 10 sortedFiles
  | _ => selectedFiles
  end.

(** [String.prototype.replace] with a string pattern expands dollar
    patterns of the replacement: a doubled dollar is a dollar, dollar
    ampersand the matched text, dollar backquote and dollar apostrophe the
    text before and after it. *)
Fixpoint get_substitution (matched before after replacement : jsstring) : jsstring :=
  match replacement with
  | [] => []
  | c :: r =>
      match r with
      | c' :: r' =>
          if (c =? 36)%N && (c' =? 36)%N then
            36%N :: get_substitution matched before after r'
          else if (c =? 36)%N && (c' =? 38)%N then
            matched ++ get_substitution matched before after r'
          else if (c =? 36)%N && (c' =? 96)%N then
            before ++ get_substitution matched before after r'
          else if (c =? 36)%N && (c' =? 39)%N then
            after ++ get_substitution matched before after r'
          else c :: get_substitution matched before after r
      | [] => [c]
      end
  end.

(** [DEFAULT_OUTPUT_SEPARATOR_FORMAT.replace('{filePath}', path)] *)
Definition separator (relativePathForDisplay : jsstring) : jsstring :=
  js "--- "
  ++ get_substitution (js "{filePath}") (js "--- ") (js " ---") relativePathForDisplay
  ++ js " ---".

Definition NL2 : jsstring := [10; 10]%N.
Definition TRUNCATION_MARKER : jsstring := js "[Content truncated due to token limits]".

(** A content part of stage 4: the path of its separator, the content that
    follows it, and whether the truncation marker closes it. *)
Record content_part : Type := {
  cp_path : jsstring;
  cp_content : jsstring;
  cp_truncated : bool
}.

(** The string the source pushes for a part. *)
Definition render (p : content_part) : jsstring :=
  separator (cp_path p) ++ NL2 ++ cp_content p ++ NL2
  ++ (if cp_truncated p then TRUNCATION_MARKER ++ NL2 else []).

(** What [processSingleFileContent] answers: a text, something that is not
    a string, or an exception. *)
Inductive read_result : Type :=
| ReadString (llmContent : jsstring)
| ReadOther
| ReadThrows.

(** A selected file with what the environment answers when the loop reaches
    it: whether the signal is aborted by then, the path relative to the
    target directory, and the result of reading it. *)
Record selected_file : Type := {
  sel_path : jsstring;
  sel_aborted : bool;
  sel_relative : jsstring;
  sel_read : read_result
}.

Record read_state : Type := {
  contentParts : list content_part;
  processedFilesRelativePaths : list jsstring;
  totalTokens : Z;
  filesRead : list jsstring   (* the calls of processSingleFileContent *)
}.

Definition maxTokenBudget : Z := 100000.

Definition note_read (f : selected_file) (st : read_state) : read_state :=
  {| contentParts := contentParts st;
     processedFilesRelativePaths := processedFilesRelativePaths st;
     totalTokens := totalTokens st;
     filesRead := filesRead st ++ [sel_path f] |}.

Definition push_content (f : selected_file) (content : jsstring) (truncated : bool)
  (spent : Z) (st : read_state) : read_state :=
  {| contentParts := contentParts st
                     ++ [ {| cp_path := sel_relative f; cp_content := content;
                             cp_truncated := truncated |} ];
     processedFilesRelativePaths :=
       processedFilesRelativePaths st ++ [sel_relative f];
     totalTokens := totalTokens st + spent;
     filesRead := filesRead st |}.

(** The loop of stage 4. *)
Fixpoint read_loop (files : list selected_file) (st : read_state) : read_state :=
  match files with
  | [] => st
  | f :: rest =>
      if sel_aborted f then st
      else
        let st := note_read f st in
        match sel_read f with
        | ReadThrows => read_loop rest st
        | ReadOther => read_loop rest st
        | ReadString llmContent =>
            let contentTokens := estimateTokens llmContent in
            if totalTokens st + contentTokens >? maxTokenBudget then
              let remainingTokens := maxTokenBudget - totalTokens st in
              let truncatedLength := Z.max 0 (remainingTokens * 4) in
              let truncatedContent :=
                substring0 (Z.to_nat truncatedLength) llmContent in
              push_content f truncatedContent true 0 st
            else
              read_loop rest (push_content f llmContent false contentTokens st)
        end
  end.

Definition initial_state : read_state :=
  {| contentParts := []; processedFilesRelativePaths := [];
     totalTokens := 0; filesRead := [] |}.

Definition budgeted_read (files : list selected_file) : read_state :=
  read_loop files initial_state.

(** What the environment answers at the turn [i] of the loop, for the file
    at [path]: whether the signal is aborted, the path relative to the
    target directory, and the result of reading the file. *)
Definition environment : Type := nat -> jsstring -> bool * jsstring * read_result.

Definition observe (env : environment) (selectedFiles : list jsstring)
  : list selected_file :=
  map (fun ip : nat * jsstring =>
         let '(aborted, relativePath, res) := env (fst ip) (snd ip) in
         {| sel_path := snd ip; sel_aborted := aborted;
            sel_relative := relativePath; sel_read := res |})
      (combine (seq 0 (length selectedFiles)) selectedFiles).

(** Stages 3 and 4 of [executeWithSmartSelection], from the text of the
    reply of the model to the final state of the read. The previews and the
    request of stages 1 and 2, and the fallback of the enclosing [try], are
    not part of the embedding. *)
Definition smart_selection_read (env : environment) (sortedFiles : list jsstring)
  (responseText : option jsstring) : read_state :=
  budgeted_read (observe env (select_files sortedFiles responseText)).


(** The estimated tokens of the file contents appended so far. *)
Definition appended_tokens (ps : list content_part) : Z :=
  fold_right (fun p acc => estimateTokens (cp_content p) + acc) 0 ps.

Definition truncation_markers (ps : list content_part) : nat :=
  length (filter cp_truncated ps).

End ReadManyFiles.

Import ReadManyFiles.

(* ===================================================================== *)
(** ** Token limits (tokenLimits.ts) *)
(* ===================================================================== *)

Module TokenLimits.

Local Open Scope N_scope.

Definition DEFAULT_TOKEN_LIMIT : N := 1048576.

(** A [case] label of the [switch]: strict equality with a string. *)
Definition is_one_of (model : jsstring) (names : list string) : bool :=
  existsb (fun name => jsstring_eqb model (js name)) names.

Definition GEMINI_1M_MODELS : list string :=
  ["gemini-1.5-flash"; "gemini-2.5-pro-preview-05-06";
   "gemini-2.5-pro-preview-06-05"; "gemini-2.5-pro";
   "gemini-2.5-flash-preview-05-20"; "gemini-2.5-flash";
   "gemini-2.0-flash"]%string.

Definition GROK_MODELS : list string :=
  ["grok-3-latest"; "grok-3-mini-latest"; "grok-beta";
   "grok-4-latest"; "grok-4-mini-latest"]%string.

Definition tokenLimit (model : jsstring) : N :=
  if is_one_of model ["gemini-1.5-pro"%string] then 2097152
  else if is_one_of model GEMINI_1M_MODELS then 1048576
  else if is_one_of model ["gemini-2.0-flash-preview-image-generation"%string]
  then 32000
  else if is_one_of model GROK_MODELS then 131072
  else DEFAULT_TOKEN_LIMIT.

End TokenLimits.

Import TokenLimits.

(* ===================================================================== *)
(** ** The read-many-files tool around the smart selection *)
(* ===================================================================== *)

Module ReadManyFilesTool.

Local Open Scope N_scope.

(** *** Numbers in template literals *)

(** The decimal digits of [n] in front of [acc], last digit first. *)
Fixpoint decimal_digits (fuel : nat) (n : N) (acc : jsstring) : jsstring :=
  match fuel with
  | O => acc
  | S f =>
      let acc' := (48 + n mod 10) :: acc in
      if n / 10 =? 0 then acc' else decimal_digits f (n / 10) acc'
  end.

(** [String(n)] for a count or an index [n]: its decimal digits, without
    leading zeros. A number has at most as many digits as its value plus
    one. *)
Definition to_decimal (n : N) : jsstring :=
  decimal_digits (S (N.to_nat n)) n [].

(** *** [validateParams] *)

Set Warnings "-register-all".

(** A parameter as the tool receives it, before any check of its type:
    absent, a string, an array, or any other value, of which only the
    truthiness matters. *)
Inductive value : Type :=
| VUndefined
| VString (s : jsstring)
| VArray (items : list value)
| VOther (truthy : bool).

Definition truthy_value (v : value) : bool :=
  match v with
  | VUndefined => false
  | VString s => nonempty s
  | VArray _ => true
  | VOther t => t
  end.

Definition is_string (v : value) : bool :=
  match v with
  | VString _ => true
  | _ => false
  end.

Record params : Type := {
  p_paths : value;
  p_include : value;
  p_exclude : value
}.

Definition PATHS_REQUIRED : jsstring :=
  jsq "The 'paths' parameter is required and must be a non-empty array of strings/glob patterns.".
Definition SCHEMA_FAILED : jsstring :=
  jsq "Parameters failed schema validation. Ensure 'paths' is a non-empty array and other parameters match their expected types.".
Definition PATH_ITEM_INVALID : jsstring :=
  jsq "Each item in 'paths' must be a non-empty string/glob pattern.".
Definition INCLUDE_INVALID : jsstring :=
  jsq "If provided, 'include' must be an array of strings/glob patterns.".
Definition EXCLUDE_INVALID : jsstring :=
  jsq "If provided, 'exclude' must be an array of strings/glob patterns.".

(** [!paths || !Array.isArray(paths) || paths.length === 0] *)
Definition paths_missing (v : value) : bool :=
  match v with
  | VArray (_ :: _) => false
  | _ => true
  end.

(** [typeof p !== 'string' || p.trim() === ''] *)
Definition blank_path (v : value) : bool :=
  match v with
  | VString s => negb (nonempty (trim s))
  | _ => true
  end.

(** [v && (!Array.isArray(v) || !v.every(item => typeof item === 'string'))] *)
Definition not_string_array (v : value) : bool :=
  truthy_value v
  && match v with
     | VArray items => negb (forallb is_string items)
     | _ => true
     end.

Definition items_of (v : value) : list value :=
  match v with
  | VArray items => items
  | _ => []
  end.

Section Validation.

(** The check against the parameter schema, which is not part of the
    repository files at hand: whether the tool has no schema or
    [SchemaValidator.validate] accepts the parameters. *)
Variable schema_accepts : params -> bool.

(** The error message, or [None] for [null]. *)
Definition validateParams (p : params) : option jsstring :=
  if paths_missing (p_paths p) then Some PATHS_REQUIRED
  else if negb (schema_accepts p) then
    if paths_missing (p_paths p) then Some PATHS_REQUIRED
    else Some SCHEMA_FAILED
  else if existsb blank_path (items_of (p_paths p)) then Some PATH_ITEM_INVALID
  else if not_string_array (p_include p) then Some INCLUDE_INVALID
  else if not_string_array (p_exclude p) then Some EXCLUDE_INVALID
  else None.

End Validation.

(** *** Discovery: which of the entries of the glob are considered *)

Record skip_record : Type := {
  sk_path : jsstring;
  sk_reason : jsstring
}.

(** [s.startsWith(p)] *)
Definition startsWith (s p : jsstring) : bool :=
  match strip_prefix p s with
  | Some _ => true
  | None => false
  end.

(** [l.includes(x)] for an array of strings, and [set.add(x)] for a set of
    strings, kept in the order of insertion. *)
Definition array_includes (l : list jsstring) (x : jsstring) : bool :=
  existsb (jsstring_eqb x) l.

Definition set_add (x : jsstring) (l : list jsstring) : list jsstring :=
  if array_includes l x then l else l ++ [x].

Record discovery : Type := {
  filesToConsider : list jsstring;
  skippedFiles : list skip_record;
  gitIgnoredCount : N
}.

Definition security_reason (toolBaseDir absoluteFilePath : jsstring) : jsstring :=
  js "Security: Glob library returned path outside target directory. Base: "
  ++ toolBaseDir ++ js ", Path: " ++ absoluteFilePath.

(** The loop over the entries of the glob. *)
Fixpoint classify (toolBaseDir : jsstring) (respectGitIgnore : bool)
         (filteredEntries entries : list jsstring) (d : discovery) : discovery :=
  match entries with
  | [] => d
  | absoluteFilePath :: rest =>
      classify toolBaseDir respectGitIgnore filteredEntries rest
        (if negb (startsWith absoluteFilePath toolBaseDir) then
           {| filesToConsider := filesToConsider d;
              skippedFiles := skippedFiles d
                              ++ [ {| sk_path := absoluteFilePath;
                                      sk_reason := security_reason toolBaseDir
                                                     absoluteFilePath |} ];
              gitIgnoredCount := gitIgnoredCount d |}
         else if respectGitIgnore
                 && negb (array_includes filteredEntries absoluteFilePath) then
           {| filesToConsider := filesToConsider d;
              skippedFiles := skippedFiles d;
              gitIgnoredCount := gitIgnoredCount d + 1 |}
         else
           {| filesToConsider := set_add absoluteFilePath (filesToConsider d);
              skippedFiles := skippedFiles d;
              gitIgnoredCount := gitIgnoredCount d |})
  end.

(** The note on the files that the ignore rules filtered out. *)
Definition note_ignored (d : discovery) : discovery :=
  if 0 <? gitIgnoredCount d then
    {| filesToConsider := filesToConsider d;
       skippedFiles := skippedFiles d
                       ++ [ {| sk_path := to_decimal (gitIgnoredCount d)
                                          ++ js " file(s)";
                               sk_reason := js "ignored" |} ];
       gitIgnoredCount := gitIgnoredCount d |}
  else d.

Definition discover (toolBaseDir : jsstring) (respectGitIgnore : bool)
  (filteredEntries entries : list jsstring) : discovery :=
  note_ignored
    (classify toolBaseDir respectGitIgnore filteredEntries entries
       {| filesToConsider := []; skippedFiles := []; gitIgnoredCount := 0 |}).

(** The order of [Array.prototype.sort] without a comparator: strings are
    compared code unit by code unit. *)
Fixpoint jsstring_ltb (a b : jsstring) : bool :=
  match a, b with
  | _, [] => false
  | [], _ :: _ => true
  | x :: a', y :: b' =>
      if x <? y then true
      else if y <? x then false
      else jsstring_ltb a' b'
  end.

(** [l.sort()]. The order is total, so every sorting algorithm returns the
    same list on distinct strings; this one inserts. *)
Fixpoint sort_insert (x : jsstring) (l : list jsstring) : list jsstring :=
  match l with
  | [] => [x]
  | y :: t => if jsstring_ltb x y then x :: l else y :: sort_insert x t
  end.

Definition sort (l : list jsstring) : list jsstring :=
  fold_right sort_insert [] l.

(** [Array.from(filesToConsider).sort()] *)
Definition sortedFiles_of (d : discovery) : list jsstring :=
  sort (filesToConsider d).

(** *** [shouldUseSmartSelection] *)

Definition shouldUseSmartSelection (provider model : jsstring) (fileCount : N)
  : bool :=
  jsstring_eqb provider (js "grok")
  && (20 <? fileCount)
  && (tokenLimit model <=? 131072).

(** *** The standard read *)

(** What [processSingleFileContent] returns in the standard read: an error
    message or none, and a content that is a string or a part object. *)
Inductive file_content : Type :=
| TextContent (llmContent : jsstring)
| PartContent.

Record file_result : Type := {
  fr_error : option jsstring;
  fr_llmContent : file_content
}.

(** A candidate file with what the collaborators answer for it: its path
    relative to the target directory, its detected type, its lower-cased
    extension, its base name without the extension, and the result of
    reading it. *)
Record candidate : Type := {
  cand_relative : jsstring;
  cand_type : jsstring;
  cand_extension : jsstring;
  cand_name : jsstring;
  cand_result : file_result
}.

(** An element of [contentParts]: a text with its separator, or the part
    object of an image or a PDF. *)
Inductive tool_part : Type :=
| TextPart (p : content_part)
| InlinePart.

Record standard_state : Type := {
  std_contentParts : list tool_part;
  std_processed : list jsstring;
  std_skipped : list skip_record
}.

Definition standard_initial : standard_state :=
  {| std_contentParts := []; std_processed := []; std_skipped := [] |}.

Definition ASSET_NOT_REQUESTED : jsstring :=
  js "asset file (image/pdf) was not explicitly requested by name or extension".

Section StandardRead.

(** [String.prototype.toLowerCase] *)
Variable toLowerCase : jsstring -> jsstring.

Definition requestedExplicitly (inputPatterns : list jsstring) (c : candidate)
  : bool :=
  existsb (fun pattern =>
             includes (toLowerCase pattern) (cand_extension c)
             || includes pattern (cand_name c))
          inputPatterns.

Definition is_asset (c : candidate) : bool :=
  jsstring_eqb (cand_type c) (js "image") || jsstring_eqb (cand_type c) (js "pdf").

Definition skip (c : candidate) (reason : jsstring) (st : standard_state)
  : standard_state :=
  {| std_contentParts := std_contentParts st;
     std_processed := std_processed st;
     std_skipped := std_skipped st
                    ++ [ {| sk_path := cand_relative c; sk_reason := reason |} ] |}.

Definition process (c : candidate) (st : standard_state) : standard_state :=
  {| std_contentParts :=
       std_contentParts st
       ++ [ match fr_llmContent (cand_result c) with
            | TextContent s =>
                TextPart {| cp_path := cand_relative c; cp_content := s;
                            cp_truncated := false |}
            | PartContent => InlinePart
            end ];
     std_processed := std_processed st ++ [cand_relative c];
     std_skipped := std_skipped st |}.

(** One turn of the loop of the standard read. *)
Definition standard_step (inputPatterns : list jsstring) (st : standard_state)
  (c : candidate) : standard_state :=
  if is_asset c && negb (requestedExplicitly inputPatterns c) then
    skip c ASSET_NOT_REQUESTED st
  else
    match fr_error (cand_result c) with
    | Some error =>
        if nonempty error then skip c (js "Read error: " ++ error) st
        else process c st
    | None => process c st
    end.

Definition standard_read (inputPatterns : list jsstring)
  (files : list candidate) (st : standard_state) : standard_state :=
  fold_left (standard_step inputPatterns) files st.

End StandardRead.

(** *** The fallback of the smart selection *)

Record regular_state : Type := {
  reg_contentParts : list content_part;
  reg_processed : list jsstring;
  reg_read : list jsstring
}.

(** The loop of [executeRegularSelection]. *)
Fixpoint regular_loop (files : list selected_file) (st : regular_state)
  : regular_state :=
  match files with
  | [] => st
  | f :: rest =>
      if sel_aborted f then st
      else
        let st1 := {| reg_contentParts := reg_contentParts st;
                      reg_processed := reg_processed st;
                      reg_read := reg_read st ++ [sel_path f] |} in
        match sel_read f with
        | ReadString llmContent =>
            regular_loop rest
              {| reg_contentParts :=
                   reg_contentParts st1
                   ++ [ {| cp_path := sel_relative f; cp_content := llmContent;
                           cp_truncated := false |} ];
                 reg_processed := reg_processed st1 ++ [sel_relative f];
                 reg_read := reg_read st1 |}
        | _ => regular_loop rest st1
        end
  end.

Record tool_result : Type := {
  tr_llmContent : list jsstring;
  tr_returnDisplay : jsstring
}.

Definition regular_initial : regular_state :=
  {| reg_contentParts := []; reg_processed := []; reg_read := [] |}.

Definition executeRegularSelection (files : list selected_file) : tool_result :=
  let st := regular_loop (firstn 10 files) regular_initial in
  {| tr_llmContent := match reg_contentParts st with
                   | [] => [js "No files could be read."]
                   | ps => map render ps
                   end;
     tr_returnDisplay :=
       js "### ReadManyFiles Result (Fallback Mode)" ++ NL2 ++ js "Processed "
       ++ to_decimal (N.of_nat (length (reg_processed st)))
       ++ js " files due to context limitations." |}.

(** *** The previews of stage 1 *)

(** [s.split(sep)] for a separator of one code unit *)
Fixpoint split_on (sep : N) (s : jsstring) : list jsstring :=
  match s with
  | [] => [[]]
  | c :: t =>
      if c =? sep then [] :: split_on sep t
      else match split_on sep t with
           | [] => [[c]]
           | h :: r => (c :: h) :: r
           end
  end.

(** What the collaborators answer for a file to preview: an exception, or
    its detected type and, for a text file, the result of reading its
    first lines. *)
Inductive preview_source : Type :=
| PreviewThrows
| PreviewOf (fileType : jsstring) (read : read_result).

Definition createFilePreview (relativePathForDisplay : jsstring)
  (src : preview_source) : jsstring :=
  match src with
  | PreviewThrows => relativePathForDisplay ++ js ": [error reading file]"
  | PreviewOf fileType read =>
      if negb (jsstring_eqb fileType (js "text")) then
        relativePathForDisplay ++ js ": [" ++ fileType ++ js " file]"
      else
        match read with
        | ReadString llmContent =>
            relativePathForDisplay ++ js ": "
            ++ join (js " | ") (firstn 5 (split_on 10 llmContent))
        | ReadOther => relativePathForDisplay ++ js ": [binary file]"
        | ReadThrows => relativePathForDisplay ++ js ": [error reading file]"
        end
  end.

(** The numbered previews of the first hundred files, from the preview of
    each file. *)
Fixpoint number_from (i : N) (previews : list jsstring) : list jsstring :=
  match previews with
  | [] => []
  | preview :: rest =>
      (to_decimal (i + 1) ++ js ". " ++ preview) :: number_from (i + 1) rest
  end.

Definition numbered_previews (previews : list jsstring) : list jsstring :=
  number_from 0 (firstn 100 previews).

Definition previewContent (previews : list jsstring) : jsstring :=
  join [10] (numbered_previews previews).

End ReadManyFilesTool.

Import ReadManyFilesTool.

(* ===================================================================== *)
(** ** The stream as an asynchronous iterable *)
(* ===================================================================== *)

Module AsyncStream.

(** The asynchronous iterable the client returns, as the [for await] loop
    of the streaming normalizer sees it: the chunks it delivers, in order,
    and the error it ends with when it does not end normally. *)
Record chunk_stream : Type := {
  delivered : list chunk;
  raised : option exn
}.

(** The generator over such an iterable, drained. The loop has no [try]: an
    error of the iterable ends the generator with that error, after the
    responses of the chunks delivered before it; a failure of the
    normalizer on a chunk ends it before the iterable is asked again. *)
Definition drain (s : chunk_stream) : list response * option exn :=
  let (ys, e) := convertStreamToGeminiFormat (delivered s) in
  (ys, match e with
       | Some failure => Some failure
       | None => raised s
       end).

End AsyncStream.

Import AsyncStream.

(* ===================================================================== *)
(** ** Vocabulary of the properties *)
(* ===================================================================== *)

(** A reply of the backend with one choice that carries [content]. *)
Definition reply_with (content : option jsstring) (calls : option (list tool_call))
  (finish : option jsstring) (u : option usage) : chat_completion :=
  {| cc_choices := [ {| ch_message := {| m_content := content; m_tool_calls := calls |};
                       ch_finish_reason := finish |} ];
     cc_usage := u |}.

Definition text_reply (s : jsstring) : chat_completion :=
  reply_with (Some s) None (Some (js "stop")) None.

(** An entry point fails with an error of the class [class]. *)
Definition fails_with {A} (o : outcome A) (class : string) : Prop :=
  exists e, o = Threw e /\ exn_name e = class.

(** A request made of a single text string. *)
Definition count_request (model s : jsstring) : count_tokens_parameters :=
  {| ct_model := model; ct_contents := Some (One (CString s)) |}.

Definition foo_call : function_call :=
  {| fc_id := GeneratedId "grok_";
     fc_name := Some (JStr (js "foo"));
     fc_args := JObj [(js "x", JNum false 1 0)] |}.

Definition empty_request : generate_request :=
  {| gr_model := js "grok-beta"; gr_contents := Some (Many []); gr_config := None |}.

(** A backend that answers every request with the text [s]. *)
Definition answering (s : jsstring) : openai_request -> outcome chat_completion :=
  fun _ => Returned (text_reply s).

(** The message list of a request is empty. *)
Definition no_messages (request : generate_request) : Prop :=
  gr_contents request = None \/ gr_contents request = Some (Many []).

Definition in_selection_range (num : N) : Prop := (1 <= num <= 100)%N.

(** The invariant of the loop while nothing has been truncated: the running
    count is the cost of what was appended and is within the budget. *)
Definition within_budget (st : read_state) : Prop :=
  (0 <= totalTokens st <= maxTokenBudget)%Z
  /\ appended_tokens (contentParts st) = totalTokens st
  /\ truncation_markers (contentParts st) = 0.




(** Indices that grow strictly. *)
Definition increasing (l : list nat) : Prop := StronglySorted lt l.

(** The calls the three textual forms extract from a text, form by form. *)
Definition textual_calls (raw : jsstring) : list function_call :=
  map snd (block_calls "grok_" raw)
  ++ map snd (tool_calls "grok_mini_" raw)
  ++ map snd (simple_calls "grok_simple_" raw).

(** The visible text: the raw content cleaned by the last form whose
    opening it contains, and by that form alone. *)
Definition last_pass_text (content : option jsstring) : jsstring :=
  if has content CALLING then trim (removeAll simple_strip_re (or_text content))
  else if has content OPEN_TOOL then trim (removeAll tool_strip_re (or_text content))
  else if has content OPEN_BLOCK then trim (removeAll block_re (or_text content))
  else or_text content.

Definition text_part (t : jsstring) : list part :=
  if nonempty t then [Text t] else [].

(** The identifier of a call was generated by the normalizer. *)
Definition generated (fc : function_call) : Prop :=
  exists prefix, fc_id fc = GeneratedId prefix.

Definition from_backend (fc : function_call) : Prop :=
  exists id, fc_id fc = BackendId id.

(** C3 as the specification words it: every call extracted from the text
    stands after the text part. *)
Definition textual_calls_follow_text (ps : list part) : Prop :=
  forall i j s fc,
    nth_error ps i = Some (Text s) ->
    nth_error ps j = Some (FunctionCallPart fc) ->
    generated fc ->
    i < j.

Definition parts_of (o : outcome response) : list part :=
  match o with
  | Returned r => r_parts r
  | Threw _ => []
  end.

(** The code units the natural-language removal pattern can match: white
    space and word characters. *)
Definition is_soft (c : N) : bool := is_space c || is_word c.

(** C10 as it is worded: when a reply has the marker of an earlier-processed
    form and that of a later one, the marker of the earlier form is still in
    the visible text. A marker is told by its opening, as the guards of the
    normalizer do. *)
Definition earlier_markers_remain (raw text : jsstring) : Prop :=
  (includes raw OPEN_BLOCK = true ->
   includes raw OPEN_TOOL = true \/ includes raw CALLING = true ->
   includes text OPEN_BLOCK = true)
  /\ (includes raw OPEN_TOOL = true -> includes raw CALLING = true ->
      includes text OPEN_TOOL = true).

Definition text_of (o : outcome response) : jsstring :=
  match o with
  | Returned r => r_text r
  | Threw _ => []
  end.

(** An inline marker whose quoted value holds a block. *)
Definition nested_markers : jsstring :=
  js "[tool_call: a for b '[function_call]{}[/function_call]']".

(** A chunk of the stream that carries a piece of text and nothing else. *)
Definition content_chunk (s : jsstring) : chunk :=
  {| k_choices := [ {| sc_delta := {| d_content := Some s;
                                      d_reasoning_content := None;
                                      d_tool_calls := None |};
                       sc_finish_reason := None |} ] |}.

(** The text parts of a part list, concatenated, and its number of calls. *)
Definition texts_of (ps : list part) : jsstring :=
  flat_map (fun p => match p with Text s => s | _ => [] end) ps.

Definition call_count (ps : list part) : nat :=
  length (filter (fun p => match p with FunctionCallPart _ => true | _ => false end) ps).

(** All the parts a drained stream yielded. *)
Definition streamed_parts (pieces : list jsstring) : list part :=
  flat_map r_parts (fst (convertStreamToGeminiFormat (map content_chunk pieces))).

(** The parts of the non-streaming reply with the same content. *)
Definition whole_parts (pieces : list jsstring) : list part :=
  parts_of (convertToGeminiResponse (text_reply (concat pieces))).

(** C1 as the specification words it, for a content that arrives in the
    given pieces. *)
Definition streaming_equivalent (pieces : list jsstring) : Prop :=
  texts_of (streamed_parts pieces) = texts_of (whole_parts pieces)
  /\ call_count (streamed_parts pieces) = call_count (whole_parts pieces).

(** The text does not begin, or does not end, in the middle of a number. *)
Definition starts_clean (s : jsstring) : Prop :=
  match s with
  | [] => True
  | c :: _ => is_digit c = false
  end.

Definition ends_clean (s : jsstring) : Prop := starts_clean (rev s).

(** The matched texts of a global search, without their indices. *)
Definition matched {A} (m : matcher A) (s : jsstring) : list A :=
  map snd (matchAll m s).

(** The elements of [request.contents], as the conversion walks them. *)
Definition contents_of (request : generate_request) : list content_union :=
  match gr_contents request with
  | Some c => contentArray c
  | None => []
  end.

(** The names of the function declarations of a tool list, in order. *)
Definition declared_names (tools : list tool) : list jsstring :=
  flat_map (fun t => map fd_name (or_empty (t_functionDeclarations t))) tools.

(** The arguments of a structured call can be read: the call is not of the
    type [function], or [JSON.parse] accepts its arguments. *)
Definition arguments_parse (tc : tool_call) : bool :=
  negb (jsstring_eqb (tc_type tc) (js "function"))
  || match JSON_parse (if nonempty (tc_arguments tc) then tc_arguments tc
                       else js "{}") with
     | Some _ => true
     | None => false
     end.

(** The calls and the texts among the parts of a response, in order. *)
Definition calls_of (ps : list part) : list function_call :=
  flat_map (fun p => match p with FunctionCallPart fc => [fc] | _ => [] end) ps.

Definition text_parts (ps : list part) : list jsstring :=
  flat_map (fun p => match p with Text s => [s] | _ => [] end) ps.

Definition thoughts (ps : list part) : list jsstring :=
  flat_map (fun p => match p with Thought s => [s] | _ => [] end) ps.

(** The fields of a response agree: [functionCalls] lists the call parts in
    order and is absent when there is none, and the text parts are the
    non-empty [text], once. *)
Definition fields_agree (resp : response) : Prop :=
  calls_of (r_parts resp) = or_empty (r_functionCalls resp)
  /\ (r_functionCalls resp = None <-> calls_of (r_parts resp) = [])
  /\ text_parts (r_parts resp) = map (fun p => match p with Text s => s | _ => [] end)
                                     (text_part (r_text resp)).

(** The two arrays of an extraction in progress agree, and no text part has
    been pushed yet. *)
Definition in_step (x : extraction) : Prop :=
  calls_of (x_parts x) = x_calls x /\ text_parts (x_parts x) = [].

(** The call the natural-language form makes of a name. *)
Definition simple_call (name : jsstring) : function_call :=
  {| fc_id := GeneratedId "grok_simple_";
     fc_name := Some (JStr name);
     fc_args := JObj [] |}.

(** A part of the conversation history that records a call of [name]. *)
Definition call_part (name : jsstring) : req_part :=
  {| rp_text := None; rp_functionResponse := None;
     rp_functionCall := Some (Some name) |}.

(** An inline marker as the prompt of the model writes it: the function
    name, the word for, the parameter name and the quoted value, each after
    one space. *)
Definition inline_body (functionName paramName : jsstring) (q : N)
  (paramValue : jsstring) (q' : N) : jsstring :=
  js " " ++ functionName ++ js " for " ++ paramName ++ js " "
  ++ [q] ++ paramValue ++ [q'].

Definition inline_marker (functionName paramName : jsstring) (q : N)
  (paramValue : jsstring) (q' : N) : jsstring :=
  OPEN_TOOL ++ inline_body functionName paramName q paramValue q' ++ js "]".

(** The call the inline form makes of its three captures. *)
Definition inline_call (functionName paramName paramValue : jsstring)
  : function_call :=
  {| fc_id := GeneratedId "grok_mini_";
     fc_name := Some (JStr functionName);
     fc_args := JObj [(paramName, JStr paramValue)] |}.

(** The calls of a block, none or one. *)
Definition block_call_list (prefix : string) (inner : jsstring)
  : list function_call :=
  match block_call prefix inner with
  | Some fc => [fc]
  | None => []
  end.

(** A text without white space at either end. *)
Definition starts_without_space (s : jsstring) : Prop :=
  match s with
  | [] => True
  | c :: _ => is_space c = false
  end.

Definition trimmed (s : jsstring) : Prop :=
  starts_without_space s /\ starts_without_space (rev s).

(** The parameter [paths] as the tool wants it: a non-empty array of
    strings that are not blank. *)
Definition path_list (v : value) : Prop :=
  exists item items,
    v = VArray (item :: items)
    /\ Forall (fun i => exists s, i = VString s /\ trim s <> []) (item :: items).

(** The parameters [include] and [exclude] as the tool wants them: a falsy
    value, or an array of strings. *)
Definition optional_patterns (v : value) : Prop :=
  truthy_value v = false
  \/ exists items, v = VArray items
                   /\ Forall (fun i => exists s, i = VString s) items.

(** The models for which the smart selection is used: the five Grok models
    of the table of limits, and the one Gemini model whose limit is lower
    than theirs. *)
Definition SMART_SELECTION_MODELS : list jsstring :=
  map js (GROK_MODELS
          ++ ["gemini-2.0-flash-preview-image-generation"%string]).

(** The paths of a list stand in the strict order of their code units. *)
Definition strictly_sorted (l : list jsstring) : Prop :=
  StronglySorted (fun a b => jsstring_ltb a b = true) l.

(** An entry of the glob passes the two checks of the discovery. *)
Definition passes (toolBaseDir : jsstring) (respectGitIgnore : bool)
  (filteredEntries : list jsstring) (f : jsstring) : Prop :=
  startsWith f toolBaseDir = true
  /\ (respectGitIgnore = true -> In f filteredEntries).

(** The test of [parseSelectionResponse] on a number. *)
Definition selectable (num : N) : bool := (0 <? num)%N && (num <=? 100)%N.

(** A separator between the numbers of a reply: some text without digits. *)
Definition separates (sep : jsstring) : Prop :=
  sep <> [] /\ Forall (fun c => is_digit c = false) sep.

(** A text on one line. *)
Definition one_line (s : jsstring) : Prop := ~ In 10%N s.

(** The standard read processes the file: it is not an asset left out, and
    reading it reported no error. *)
Definition is_processed (toLowerCase : jsstring -> jsstring)
  (inputPatterns : list jsstring) (c : candidate) : bool :=
  negb (is_asset c && negb (requestedExplicitly toLowerCase inputPatterns c))
  && negb (nonempty (match fr_error (cand_result c) with
                     | Some error => error
                     | None => []
                     end)).

(** A path without a dollar sign. *)
Definition no_dollar (path : jsstring) : Prop :=
  Forall (fun c => c <> 36%N) path.

(** A non-empty run of word characters. *)
Definition is_identifier (s : jsstring) : Prop :=
  s <> [] /\ Forall (fun c => is_word c = true) s.

(** The call has a name that is a non-empty run of word characters. *)
Definition named_by_identifier (fc : function_call) : Prop :=
  exists name, fc_name fc = Some (JStr name) /\ is_identifier name.

(** The number of code units of texts joined by single spaces. *)
Definition joined_length (texts : list jsstring) : nat :=
  list_sum (map (@length N) texts) + (length texts - 1).

Definition count_contents (model : jsstring) (l : list content_union)
  : count_tokens_parameters :=
  {| ct_model := model; ct_contents := Some (Many l) |}.



(** A text holds a marker of one of the three forms: the pattern of the
    form finds a match in it. *)
Definition holds_marker (s : jsstring) : Prop :=
  matchAll block_re s <> [] \/ matchAll tool_re s <> []
  \/ matchAll simple_re s <> [].

(** C7 as the specification words it, for the reply with the text [s]. *)
Definition extraction_is_identity (s : jsstring) : Prop :=
  text_of (convertToGeminiResponse (text_reply s)) = s
  /\ call_count (parts_of (convertToGeminiResponse (text_reply s))) = 0.

(** The spans that [s.replace(re, '')] removes for a global [re]: where
    each starts and how many code units it takes. None of the patterns
    matches the empty string, so a span takes at least one. *)
Fixpoint spans_from {A} (m : matcher A) (idx skip : nat) (s : jsstring)
  : list (nat * nat) :=
  match s with
  | [] => []
  | _ :: t =>
      match skip with
      | S k => spans_from m (S idx) k t
      | O => match m s with
             | Some (_, n) => (idx, S (pred n)) :: spans_from m (S idx) (pred n) t
             | None => spans_from m (S idx) 0 t
             end
      end
  end.

Definition removed_spans {A} (m : matcher A) (s : jsstring) : list (nat * nat) :=
  spans_from m 0 0 s.

(** No span overlaps the [len] code units from [start] on. *)
Definition untouched (spans : list (nat * nat)) (start len : nat) : Prop :=
  Forall (fun sp => fst sp + snd sp <= start \/ start + len <= fst sp) spans.

(** The spans the last cleaning pass removes from the raw content: those of
    the removal pattern of the last form whose opening the content has. *)
Definition last_pass_spans (content : option jsstring) : list (nat * nat) :=
  if has content CALLING then removed_spans simple_strip_re (or_text content)
  else if has content OPEN_TOOL then removed_spans tool_strip_re (or_text content)
  else if has content OPEN_BLOCK then removed_spans block_re (or_text content)
  else [].

(* ===================================================================== *)
(** ** Strings *)
(* ===================================================================== *)

Lemma strip_prefix_sound (p s r : jsstring) :
  strip_prefix p s = Some r -> s = p ++ r.
Proof.
  revert s. induction p as [|a p IH]; intros s H; simpl in H.
  - inversion H. reflexivity.
  - destruct s as [|b s]; [discriminate|].
    destruct (N.eqb_spec a b) as [->|]; [|discriminate].
    simpl. f_equal. apply IH, H.
Qed.

Lemma strip_prefix_app (p r : jsstring) : strip_prefix p (p ++ r) = Some r.
Proof.
  induction p as [|a p IH]; simpl; [reflexivity|].
  rewrite N.eqb_refl. exact IH.
Qed.

Lemma strip_prefix_length (p s r : jsstring) :
  strip_prefix p s = Some r -> length s = length p + length r.
Proof.
  intros H. rewrite (strip_prefix_sound p s r H). apply length_app.
Qed.

Lemma strip_prefix_app_stop (p x : jsstring) (h : N) (rest : jsstring) :
  Forall (fun c => c <> h) p ->
  strip_prefix p (x ++ h :: rest)
  = option_map (fun r => r ++ h :: rest) (strip_prefix p x).
Proof.
  intros Hp. revert x. induction Hp as [|a p Ha _ IH]; intros x.
  - reflexivity.
  - destruct x as [|b x]; simpl.
    + destruct (N.eqb_spec a h); [contradiction|reflexivity].
    + destruct (a =? b)%N; [apply IH|reflexivity].
Qed.

Lemma includes_false_strip (p s : jsstring) :
  includes s p = false -> forall k, strip_prefix p (skipn k s) = None.
Proof.
  induction s as [|c t IH]; intros H k.
  - rewrite skipn_nil. simpl in H.
    destruct (strip_prefix p []); [discriminate|reflexivity].
  - simpl in H.
    destruct (strip_prefix p (c :: t)) eqn:E; [discriminate|].
    destruct k as [|k]; simpl; [exact E|]. apply IH, H.
Qed.

Lemma includes_split (s p : jsstring) :
  includes s p = true -> exists a b, s = a ++ p ++ b.
Proof.
  induction s as [|c t IH]; simpl; intros H.
  - destruct (strip_prefix p []) as [r|] eqn:E; [|discriminate].
    exists [], r. exact (strip_prefix_sound p [] r E).
  - destruct (strip_prefix p (c :: t)) as [r|] eqn:E.
    + exists [], r. exact (strip_prefix_sound p (c :: t) r E).
    + destruct (IH H) as (a & b & ->). exists (c :: a), b. reflexivity.
Qed.

Lemma includes_app (a p b : jsstring) : includes (a ++ p ++ b) p = true.
Proof.
  induction a as [|c a IH].
  - simpl. destruct (p ++ b) eqn:E; simpl; rewrite <- ?E;
      rewrite strip_prefix_app; reflexivity.
  - simpl. destruct (strip_prefix p (c :: a ++ p ++ b)); [reflexivity|exact IH].
Qed.

Lemma span_spec (f : N -> bool) (s : jsstring) :
  s = fst (span f s) ++ snd (span f s)
  /\ Forall (fun c => f c = true) (fst (span f s))
  /\ match snd (span f s) with [] => True | c :: _ => f c = false end.
Proof.
  induction s as [|c t (E & Hp & Hq)]; simpl; [auto|].
  destruct (f c) eqn:Hc; [|simpl; auto].
  destruct (span f t) as [p q]; simpl in *. subst t. auto.
Qed.

Lemma span_length (f : N -> bool) (s : jsstring) :
  length (snd (span f s)) <= length s.
Proof.
  induction s as [|c t IH]; simpl; [lia|].
  destruct (f c); [|simpl; lia].
  destruct (span f t); simpl in *. lia.
Qed.

Lemma span_split_length (f : N -> bool) (s : jsstring) :
  length s = length (fst (span f s)) + length (snd (span f s)).
Proof.
  induction s as [|c t IH]; simpl; [reflexivity|].
  destruct (f c); [|reflexivity].
  destruct (span f t); simpl in *. lia.
Qed.

Lemma span1_length (f : N -> bool) (s a b : jsstring) :
  span1 f s = Some (a, b) -> length b < length s.
Proof.
  unfold span1. pose proof (span_split_length f s) as L.
  destruct (span f s) as [[|x p] q]; [discriminate|].
  intros H; inversion H; subst. simpl in L. lia.
Qed.

Lemma span_app_class (f : N -> bool) (d rest : jsstring) :
  Forall (fun c => f c = true) d ->
  span f (d ++ rest) = (d ++ fst (span f rest), snd (span f rest)).
Proof.
  induction 1 as [|c d Hc _ IH]; simpl.
  - destruct (span f rest); reflexivity.
  - rewrite Hc, IH. reflexivity.
Qed.

Lemma span_stop (f : N -> bool) (rest : jsstring) :
  match rest with [] => True | c :: _ => f c = false end ->
  span f rest = ([], rest).
Proof.
  destruct rest as [|c t]; simpl; [reflexivity|]. intros ->. reflexivity.
Qed.

Lemma span_app_stop (f : N -> bool) (x : jsstring) (h : N) (rest : jsstring) :
  f h = false ->
  span f (x ++ h :: rest) = (fst (span f x), snd (span f x) ++ h :: rest).
Proof.
  intros Hh. induction x as [|c t IH]; simpl.
  - rewrite Hh. reflexivity.
  - destruct (f c); [|reflexivity].
    rewrite IH. destruct (span f t). reflexivity.
Qed.

Lemma drop_while_length (f : N -> bool) (s : jsstring) :
  length (drop_while f s) <= length s.
Proof.
  induction s as [|c t IH]; simpl; [lia|].
  destruct (f c); simpl; lia.
Qed.

Lemma drop_while_app_stop (f : N -> bool) (a : jsstring) (h : N) (rest : jsstring) :
  f h = false ->
  drop_while f (a ++ h :: rest) = drop_while f a ++ h :: rest.
Proof.
  intros Hh. induction a as [|c t IH]; simpl.
  - rewrite Hh. reflexivity.
  - destruct (f c); [exact IH|reflexivity].
Qed.

(** [trim] keeps a marker that begins and ends with no white space. *)
Lemma trim_keeps_marker (a mid b : jsstring) (h1 h2 : N) :
  is_space h1 = false -> is_space h2 = false ->
  exists a' b', trim (a ++ (h1 :: mid ++ [h2]) ++ b)
                = a' ++ (h1 :: mid ++ [h2]) ++ b'.
Proof.
  intros H1 H2. unfold trim.
  exists (drop_while is_space a), (rev (drop_while is_space (rev b))).
  rewrite <- app_comm_cons, (drop_while_app_stop is_space a h1 _ H1).
  generalize (drop_while is_space a) as a'. intros a'.
  replace (rev (a' ++ h1 :: (mid ++ [h2]) ++ b))
    with (rev b ++ h2 :: (rev mid ++ h1 :: rev a')).
  - rewrite (drop_while_app_stop is_space (rev b) h2 _ H2).
    generalize (drop_while is_space (rev b)) as b'. intros b'.
    rewrite rev_app_distr. cbn [rev]. rewrite !rev_app_distr. cbn [rev app].
    rewrite !rev_involutive, <- !app_assoc. reflexivity.
  - rewrite rev_app_distr. cbn [rev]. rewrite !rev_app_distr. cbn [rev app].
    rewrite <- !app_assoc. reflexivity.
Qed.

(* ===================================================================== *)
(** ** Global searches *)
(* ===================================================================== *)

Lemma matchAll_from_nil {A} (m : matcher A) (s : jsstring) :
  (forall k, m (skipn k s) = None) ->
  forall idx skip, matchAll_from m idx skip s = [].
Proof.
  induction s as [|c t IH]; intros H idx skip; [reflexivity|].
  assert (Ht : forall k, m (skipn k t) = None) by (intros k; apply (H (S k))).
  pose proof (H 0%nat) as H0. simpl in H0.
  simpl. destruct skip as [|skip].
  - rewrite H0. apply IH, Ht.
  - apply IH, Ht.
Qed.

Lemma remove_from_id {A} (m : matcher A) (s : jsstring) :
  (forall k, m (skipn k s) = None) -> remove_from m 0 s = s.
Proof.
  induction s as [|c t IH]; intros H; [reflexivity|].
  pose proof (H 0%nat) as H0. simpl in H0.
  simpl. rewrite H0. f_equal. apply IH.
  intros k. apply (H (S k)).
Qed.

Lemma matchAll_from_skip {A} (m : matcher A) (s : jsstring) :
  forall idx skip,
    matchAll_from m idx skip s = matchAll_from m (idx + skip) 0 (skipn skip s).
Proof.
  induction s as [|c t IH]; intros idx skip.
  - rewrite skipn_nil. reflexivity.
  - destruct skip as [|k].
    + rewrite Nat.add_0_r. reflexivity.
    + simpl. rewrite IH. f_equal. lia.
Qed.

Lemma matchAll_from_values {A} (m : matcher A) (s : jsstring) :
  forall idx idx' skip,
    map snd (matchAll_from m idx skip s) = map snd (matchAll_from m idx' skip s).
Proof.
  induction s as [|c t IH]; intros idx idx' skip; [reflexivity|].
  simpl. destruct skip as [|k]; [|apply IH].
  destruct (m (c :: t)) as [[a n]|]; simpl; [f_equal|]; apply IH.
Qed.

Lemma matchAll_from_lower {A} (m : matcher A) (s : jsstring) :
  forall idx skip,
    Forall (fun p => idx + skip <= fst p) (matchAll_from m idx skip s).
Proof.
  induction s as [|c t IH]; intros idx skip; [constructor|].
  simpl. destruct skip as [|k].
  - destruct (m (c :: t)) as [[a n]|].
    + constructor; [simpl; lia|].
      eapply Forall_impl; [|apply (IH (S idx) (pred n))].
      intros p Hp. cbv beta in *. lia.
    + eapply Forall_impl; [|apply (IH (S idx) 0)].
      intros p Hp. cbv beta in *. lia.
  - eapply Forall_impl; [|apply (IH (S idx) k)].
    intros p Hp. cbv beta in *. lia.
Qed.

Lemma matchAll_from_increasing {A} (m : matcher A) (s : jsstring) :
  forall idx skip, increasing (map fst (matchAll_from m idx skip s)).
Proof.
  induction s as [|c t IH]; intros idx skip; [constructor|].
  simpl. destruct skip as [|k]; [|apply IH].
  destruct (m (c :: t)) as [[a n]|]; [|apply IH].
  simpl. constructor; [apply IH|].
  apply Forall_map.
  eapply Forall_impl; [|apply (matchAll_from_lower m t (S idx) (pred n))].
  intros p Hp. cbv beta in *. lia.
Qed.

(** Every reported match is a match of the pattern at its index. *)
Lemma matchAll_from_sound {A} (m : matcher A) (s : jsstring) :
  forall idx skip i a,
    In (i, a) (matchAll_from m idx skip s) ->
    idx <= i /\ exists n, m (skipn (i - idx) s) = Some (a, n).
Proof.
  induction s as [|c t IH]; intros idx skip i a H; [destruct H|].
  assert (Hstep : forall k, In (i, a) (matchAll_from m (S idx) k t) ->
            idx <= i /\ exists n, m (skipn (i - idx) (c :: t)) = Some (a, n)).
  { intros k Hk. apply IH in Hk. destruct Hk as (Hle & n & Hn).
    split; [lia|]. exists n.
    replace (i - idx) with (S (i - S idx)) by lia. exact Hn. }
  simpl in H. destruct skip as [|k]; [|eapply Hstep, H].
  destruct (m (c :: t)) as [[b n]|] eqn:E; [|eapply Hstep, H].
  destruct H as [H|H]; [|eapply Hstep, H].
  inversion H; subst. split; [lia|]. exists n.
  rewrite Nat.sub_diag. exact E.
Qed.

Lemma matchAll_sound {A} (m : matcher A) (s : jsstring) (i : nat) (a : A) :
  In (i, a) (matchAll m s) -> exists n, m (skipn i s) = Some (a, n).
Proof.
  intros H. apply matchAll_from_sound in H. destruct H as (_ & n & Hn).
  rewrite Nat.sub_0_r in Hn. exists n. exact Hn.
Qed.

Lemma increasing_flat_map {A B} (g : nat * A -> option B) (l : list (nat * A)) :
  increasing (map fst l) ->
  increasing (map fst (flat_map (fun m => match g m with
                                          | Some b => [(fst m, b)]
                                          | None => []
                                          end) l)).
Proof.
  induction l as [|m l IH]; intros H; [constructor|].
  simpl in H. inversion H as [|? ? Hs Hall]; subst.
  simpl. destruct (g m) as [b|]; simpl; [|apply IH, Hs].
  constructor; [apply IH, Hs|].
  apply Forall_forall. intros j Hj.
  apply in_map_iff in Hj. destruct Hj as ((j' & b') & Hfst & Hin).
  simpl in Hfst; subst j'.
  apply in_flat_map in Hin. destruct Hin as (m' & Hm' & Hin).
  destruct (g m') as [b''|]; [|destruct Hin].
  destruct Hin as [Hin|[]]. inversion Hin; subst.
  rewrite Forall_forall in Hall. apply Hall.
  apply in_map. exact Hm'.
Qed.

(* ===================================================================== *)
(** ** [JSON.parse] does not run out of fuel *)
(* ===================================================================== *)

Lemma skip_ws_length (s : jsstring) : length (skip_ws s) <= length s.
Proof. apply drop_while_length. Qed.

Lemma expect_length (c : N) (s r : jsstring) :
  expect c s = Some r -> length s = S (length r).
Proof.
  destruct s as [|x t]; simpl; [discriminate|].
  destruct (x =? c)%N; [|discriminate]. intros H; inversion H. reflexivity.
Qed.

Lemma opt_char_length (c : N) (s : jsstring) :
  length (snd (opt_char c s)) <= length s.
Proof.
  unfold opt_char. destruct (expect c s) as [r|] eqn:E; simpl; [|lia].
  apply expect_length in E. lia.
Qed.

Lemma parse_chars_length (n : nat) :
  forall s k r, length s <= n -> parse_chars s = Some (k, r) ->
                length r < length s.
Proof.
  induction n as [|n IH]; intros s k r Hn H.
  - destruct s; [discriminate|simpl in Hn; lia].
  - destruct s as [|c s]; [discriminate|]. simpl in Hn.
    assert (Hrec : forall t u k' r', length t <= n ->
              match parse_chars t with
              | Some (w, rest) => Some (u :: w, rest)
              | None => None
              end = Some (k', r') -> length r' < length t).
    { intros t u k' r' Ht E.
      destruct (parse_chars t) as [[w rest]|] eqn:Et; [|discriminate].
      inversion E; subst. eapply IH; eassumption. }
    cbn [parse_chars] in H.
    destruct (c =? 34)%N.
    { inversion H; subst. simpl. lia. }
    destruct (c =? 92)%N.
    + destruct s as [|e s']; [discriminate|]. simpl in Hn.
      assert (Hs : forall u, match parse_chars s' with
                             | Some (w, rest) => Some (u :: w, rest)
                             | None => None
                             end = Some (k, r) ->
                             length r < length (c :: e :: s')).
      { intros u E. apply Hrec in E; [simpl; lia|lia]. }
      repeat match type of H with
             | (if ?b then _ else _) = _ =>
                 destruct b; [solve [eapply Hs, H]|]
             end.
      destruct (e =? 117)%N; [|discriminate].
      destruct s' as [|h1 [|h2 [|h3 [|h4 s'']]]]; try discriminate.
      destruct (hex_val h1), (hex_val h2), (hex_val h3), (hex_val h4);
        try discriminate.
      apply Hrec in H; simpl in *; lia.
    + destruct (c <? 32)%N; [discriminate|].
      apply Hrec in H; simpl; lia.
Qed.

Lemma parse_number_length (s : jsstring) (v : json) (r : jsstring) :
  parse_number s = Some (v, r) -> length r < length s.
Proof.
  unfold parse_number.
  pose proof (opt_char_length 45 s) as L0.
  destruct (opt_char 45 s) as [neg s1]; simpl in L0.
  destruct (int_part s1) as [[ip s2]|] eqn:Ei; [|discriminate].
  assert (L1 : length s2 < length s1).
  { unfold int_part in Ei. destruct (expect 48 s1) as [r0|] eqn:E0.
    - inversion Ei; subst. apply expect_length in E0. lia.
    - eapply span1_length, Ei. }
  destruct (frac_part s2) as [[fp s3]|] eqn:Ef; [|discriminate].
  assert (L2 : length s3 <= length s2).
  { unfold frac_part in Ef. destruct (expect 46 s2) as [r0|] eqn:E0.
    - apply expect_length in E0. apply span1_length in Ef. lia.
    - inversion Ef; subst. lia. }
  destruct (exp_part s3) as [[ev s4]|] eqn:Ee; [|discriminate].
  assert (L3 : length s4 <= length s3).
  { unfold exp_part in Ee. destruct s3 as [|e r0]; [inversion Ee; subst; lia|].
    destruct ((e =? 101) || (e =? 69))%N; [|inversion Ee; subst; lia].
    pose proof (opt_char_length 45 r0) as La.
    destruct (opt_char 45 r0) as [eneg r1]; simpl in La.
    pose proof (opt_char_length 43 r1) as Lb.
    destruct (span1 is_digit (if eneg then r1 else snd (opt_char 43 r1)))
      as [[ed r3]|] eqn:Ed; [|discriminate].
    apply span1_length in Ed. inversion Ee; subst.
    destruct eneg; simpl; lia. }
  intros H; inversion H; subst. lia.
Qed.

Lemma literal_length (word : jsstring) (v v' : json) (s r : jsstring) :
  word <> [] -> literal word v s = POk v' r -> length r < length s.
Proof.
  unfold literal. intros Hw H.
  destruct (strip_prefix word s) as [r0|] eqn:E; [|discriminate].
  inversion H; subst. apply strip_prefix_length in E.
  destruct word; [contradiction|simpl in E; lia].
Qed.

Lemma pmap_ok {A B} (g : A -> B) (p : presult A) (b : B) (r : jsstring) :
  pmap g p = POk b r -> exists a, p = POk a r.
Proof. destruct p; simpl; intros H; inversion H. eexists; reflexivity. Qed.

Lemma pmap_fuel {A B} (g : A -> B) (p : presult A) :
  pmap g p = PFuel -> p = PFuel.
Proof. destruct p; simpl; intros H; [discriminate|discriminate|reflexivity]. Qed.

(** A parsed value consumed at least one code unit. *)
Lemma parse_consumes (fuel : nat) :
  (forall s v r, parse_value fuel s = POk v r -> length r < length s)
  /\ (forall s vs r, parse_elems fuel s = POk vs r -> length r < length s)
  /\ (forall s ms r, parse_members fuel s = POk ms r -> length r < length s).
Proof.
  induction fuel as [|f (IHv & IHe & IHm)].
  { repeat split; intros; discriminate. }
  split; [|split].
  - intros s v r H. cbn [parse_value] in H.
    pose proof (skip_ws_length s) as L.
    destruct (skip_ws s) as [|c t]; [discriminate|]. simpl in L.
    destruct (c =? 123)%N.
    { pose proof (skip_ws_length t) as Lt.
      destruct (expect 125 (skip_ws t)) as [r'|] eqn:E.
      - inversion H; subst. apply expect_length in E. lia.
      - apply pmap_ok in H. destruct H as (ms & H). apply IHm in H. lia. }
    destruct (c =? 91)%N.
    { pose proof (skip_ws_length t) as Lt.
      destruct (expect 93 (skip_ws t)) as [r'|] eqn:E.
      - inversion H; subst. apply expect_length in E. lia.
      - apply pmap_ok in H. destruct H as (vs & H). apply IHe in H. lia. }
    destruct (c =? 34)%N.
    { destruct (parse_chars t) as [[k r']|] eqn:E; [|discriminate].
      inversion H; subst.
      apply (parse_chars_length (length t)) in E; lia. }
    destruct (c =? 116)%N.
    { apply literal_length in H; [simpl in H; lia|discriminate]. }
    destruct (c =? 102)%N.
    { apply literal_length in H; [simpl in H; lia|discriminate]. }
    destruct (c =? 110)%N.
    { apply literal_length in H; [simpl in H; lia|discriminate]. }
    unfold of_option in H.
    destruct (parse_number (c :: t)) as [[v' r']|] eqn:E; [|discriminate].
    inversion H; subst. apply parse_number_length in E. simpl in E. lia.
  - intros s vs r H. cbn [parse_elems] in H.
    destruct (parse_value f s) as [v r1| |] eqn:Ev; try discriminate.
    apply IHv in Ev. pose proof (skip_ws_length r1) as L.
    destruct (expect 44 (skip_ws r1)) as [r'|] eqn:E.
    + apply expect_length in E. apply pmap_ok in H.
      destruct H as (vs' & H). apply IHe in H. lia.
    + destruct (expect 93 (skip_ws r1)) as [r'|] eqn:E'; [|discriminate].
      apply expect_length in E'. inversion H; subst. lia.
  - intros s ms r H. cbn [parse_members] in H.
    pose proof (skip_ws_length s) as L.
    destruct (expect 34 (skip_ws s)) as [r0|] eqn:E0; [|discriminate].
    apply expect_length in E0.
    destruct (parse_chars r0) as [[k r1]|] eqn:Ek; [|discriminate].
    apply (parse_chars_length (length r0)) in Ek; [|lia].
    pose proof (skip_ws_length r1) as L1.
    destruct (expect 58 (skip_ws r1)) as [r2|] eqn:E2; [|discriminate].
    apply expect_length in E2.
    destruct (parse_value f r2) as [v r3| |] eqn:Ev; try discriminate.
    apply IHv in Ev. pose proof (skip_ws_length r3) as L3.
    destruct (expect 44 (skip_ws r3)) as [r4|] eqn:E4.
    + apply expect_length in E4. apply pmap_ok in H.
      destruct H as (ms' & H). apply IHm in H. lia.
    + destruct (expect 125 (skip_ws r3)) as [r4|] eqn:E5; [|discriminate].
      apply expect_length in E5. inversion H; subst. lia.
Qed.

(** Two units of fuel per code unit are enough. *)
Lemma parse_fuel (fuel : nat) :
  (forall s, 2 * length s + 1 <= fuel -> parse_value fuel s <> PFuel)
  /\ (forall s, 2 * length s + 2 <= fuel -> parse_elems fuel s <> PFuel)
  /\ (forall s, 2 * length s + 1 <= fuel -> parse_members fuel s <> PFuel).
Proof.
  induction fuel as [|f (IHv & IHe & IHm)].
  { repeat split; intros s H; lia. }
  destruct (parse_consumes f) as (Cv & _ & _).
  split; [|split].
  - intros s Hf H. cbn [parse_value] in H.
    pose proof (skip_ws_length s) as L.
    destruct (skip_ws s) as [|c t]; [discriminate|]. simpl in L.
    destruct (c =? 123)%N.
    { destruct (expect 125 (skip_ws t)); [discriminate|].
      apply pmap_fuel in H. revert H. apply IHm. lia. }
    destruct (c =? 91)%N.
    { destruct (expect 93 (skip_ws t)); [discriminate|].
      apply pmap_fuel in H. revert H. apply IHe. lia. }
    destruct (c =? 34)%N.
    { destruct (parse_chars t) as [[k r']|]; discriminate. }
    unfold literal, of_option in H.
    repeat match type of H with
           | (if ?b then _ else _) = _ => destruct b
           | match ?x with _ => _ end = _ => destruct x as [[? ?]|]
           | match ?x with _ => _ end = _ => destruct x
           end; discriminate.
  - intros s Hf H. cbn [parse_elems] in H.
    destruct (parse_value f s) as [v r1| |] eqn:Ev; try discriminate.
    + apply Cv in Ev. pose proof (skip_ws_length r1) as L.
      destruct (expect 44 (skip_ws r1)) as [r'|] eqn:E.
      * apply expect_length in E. apply pmap_fuel in H.
        revert H. apply IHe. lia.
      * destruct (expect 93 (skip_ws r1)); discriminate.
    + revert Ev. apply IHv. lia.
  - intros s Hf H. cbn [parse_members] in H.
    pose proof (skip_ws_length s) as L.
    destruct (expect 34 (skip_ws s)) as [r0|] eqn:E0; [|discriminate].
    apply expect_length in E0.
    destruct (parse_chars r0) as [[k r1]|] eqn:Ek; [|discriminate].
    apply (parse_chars_length (length r0)) in Ek; [|lia].
    pose proof (skip_ws_length r1) as L1.
    destruct (expect 58 (skip_ws r1)) as [r2|] eqn:E2; [|discriminate].
    apply expect_length in E2.
    destruct (parse_value f r2) as [v r3| |] eqn:Ev; try discriminate.
    + apply Cv in Ev. pose proof (skip_ws_length r3) as L3.
      destruct (expect 44 (skip_ws r3)) as [r4|] eqn:E4.
      * apply expect_length in E4. apply pmap_fuel in H.
        revert H. apply IHm. lia.
      * destruct (expect 125 (skip_ws r3)); discriminate.
    + revert Ev. apply IHv. lia.
Qed.

(** [JSON_parse] answers [None] only for a text that is not JSON: the
    parser never stops for lack of fuel. *)
Lemma parse_value_fuel (text : jsstring) :
  parse_value (fuel_for text) text <> PFuel.
Proof.
  apply (proj1 (parse_fuel (fuel_for text))). unfold fuel_for. lia.
Qed.

(* ===================================================================== *)
(** ** Token estimate *)
(* ===================================================================== *)

Lemma ceil_div4_spec (n : N) :
  (n <= 4 * ceil_div4 n < n + 4)%N.
Proof.
  unfold ceil_div4.
  pose proof (N.div_mod (n + 3) 4 ltac:(discriminate)) as E.
  pose proof (N.mod_lt (n + 3) 4 ltac:(discriminate)) as L.
  revert E L.
  generalize ((n + 3) / 4)%N, ((n + 3) mod 4)%N.
  intros q r E L. lia.
Qed.

Lemma ceil_div4_mono (n m : N) : (n <= m)%N -> (ceil_div4 n <= ceil_div4 m)%N.
Proof.
  intros H. unfold ceil_div4.
  apply N.Div0.div_le_mono. lia.
Qed.

Lemma countTokens_string (model s : jsstring) :
  countTokens (count_request model s) = ceil_div4 (N.of_nat (length s)).
Proof.
  unfold countTokens, count_request; simpl.
  destruct s as [|c t]; reflexivity.
Qed.

Lemma estimateTokens_ceil (s : jsstring) :
  estimateTokens s = Z.of_N (ceil_div4 (N.of_nat (length s))).
Proof.
  unfold estimateTokens, ceil_div4.
  rewrite N2Z.inj_div, N2Z.inj_add, nat_N_Z. reflexivity.
Qed.

(** C9. [countTokens] never fails: it returns the estimate. For a request
    whose content is one text string of length n the result is the ceiling
    of n/4, the value the shared estimator [estimateTokens] gives; it is 0
    for the empty string and for absent contents, 100 for every string of
    400 code units, and it does not decrease when the string gets longer. *)
Theorem countTokens_is_ceiling_estimate :
  forall (model s s' : jsstring),
    let n := N.of_nat (length s) in
    let k := countTokens (count_request model s) in
    (n <= 4 * k < n + 4)%N
    /\ Z.of_N k = estimateTokens s
    /\ countTokens (count_request model []) = 0%N
    /\ countTokens {| ct_model := model; ct_contents := None |} = 0%N
    /\ (length s = 400%nat -> k = 100%N)
    /\ (length s <= length s' ->
        (k <= countTokens (count_request model s'))%N).
Proof.
  intros model s s' n k. subst n k.
  rewrite !countTokens_string.
  split; [apply ceil_div4_spec|].
  split; [symmetry; apply estimateTokens_ceil|].
  split; [reflexivity|].
  split; [reflexivity|].
  split.
  - intros ->. reflexivity.
  - intros H. apply ceil_div4_mono. lia.
Qed.

Lemma countTokens_is_ceiling_estimate_witness :
  countTokens (count_request (js "grok-beta") (repeat 97%N 400)) = 100%N
  /\ (countTokens (count_request (js "grok-beta") (repeat 97%N 400))
      <= countTokens (count_request (js "grok-beta") (repeat 97%N 401)))%N.
Proof.
  destruct (countTokens_is_ceiling_estimate
              (js "grok-beta") (repeat 97%N 400) (repeat 97%N 401))
    as (_ & _ & _ & _ & H400 & Hmono).
  split.
  - apply H400. reflexivity.
  - apply Hmono. rewrite !repeat_length. lia.
Defined.

(* ===================================================================== *)
(** ** Embeddings *)
(* ===================================================================== *)

(** C8, as stated, fails: the error [embedContent] throws is a plain
    [Error], not one of a class [UnsupportedOperation]. *)
Lemma embedContent_not_UnsupportedOperation :
  ~ fails_with (@embedContent unit unit tt) "UnsupportedOperation".
Proof.
  intros (e & H & Hname).
  unfold embedContent in H. inversion H; subst e.
  discriminate Hname.
Qed.

(** C8, amended. [embedContent] fails for every request: it throws a plain
    [Error] whose message is [Embeddings not supported by Grok], and never
    returns a result. *)
Theorem embedContent_always_throws :
  forall (request_t response_t : Type) (request : request_t),
    @embedContent request_t response_t request
    = Threw (GenericError (js "Embeddings not supported by Grok"))
    /\ fails_with (@embedContent request_t response_t request) "Error"
    /\ forall r : response_t,
         @embedContent request_t response_t request <> Returned r.
Proof.
  intros. split; [reflexivity|]. split.
  - eexists. split; reflexivity.
  - intros r H. discriminate H.
Qed.

(* ===================================================================== *)
(** ** A request without messages *)
(* ===================================================================== *)

(** C4, as stated, fails: with an empty message list [generateContent]
    sends a request to the backend and returns the normalized reply. *)
Lemma generateContent_empty_request_is_sent :
  no_messages empty_request
  /\ ~ fails_with (result (generateContent (answering (js "hi")) empty_request))
                  "ValidationError"
  /\ sent (generateContent (answering (js "hi")) empty_request) <> [].
Proof.
  split; [right; reflexivity|]. split.
  - intros (e & H & _). vm_compute in H. discriminate H.
  - discriminate.
Qed.

(** C4, amended. [generateContent] does not validate its request: when the
    message list is empty it still sends exactly one request to the backend,
    whose messages are the system message alone, if there is one; a failure
    of the backend call is passed on, and a reply is normalized. *)
Theorem generateContent_empty_messages :
  forall (create : openai_request -> outcome chat_completion)
         (request : generate_request),
    no_messages request ->
    let r := convertToOpenAIRequest request in
    sent (generateContent create request) = [r]
    /\ or_messages r = system_messages (gr_config request)
    /\ length (or_messages r) <= 1
    /\ (forall e, create r = Threw e ->
                  result (generateContent create request) = Threw e)
    /\ (forall c, create r = Returned c ->
                  result (generateContent create request)
                  = convertToGeminiResponse c).
Proof.
  intros create request H r.
  assert (Hm : or_messages r = system_messages (gr_config request)).
  { subst r. unfold convertToOpenAIRequest; simpl.
    destruct H as [-> | ->]; simpl; apply app_nil_r. }
  split; [reflexivity|]. split; [exact Hm|]. split.
  - rewrite Hm. unfold system_messages.
    destruct (gr_config request) as [c|]; simpl; [|lia].
    destruct (gc_systemInstruction c) as [[[|x t]|role [parts|]|]|]; simpl;
      try lia.
    destruct (nonempty (extractTextFromParts parts)); simpl; lia.
  - split; intros x Hx; unfold generateContent; simpl; fold r;
      rewrite Hx; reflexivity.
Qed.

Lemma generateContent_empty_messages_witness :
  sent (generateContent (answering (js "hi")) empty_request)
  = [convertToOpenAIRequest empty_request].
Proof.
  exact (proj1 (generateContent_empty_messages
                  (answering (js "hi")) empty_request
                  (or_intror eq_refl))).
Defined.

(* ===================================================================== *)
(** ** The calls of the textual forms *)
(* ===================================================================== *)

Lemma block_calls_increasing (prefix : string) (s : jsstring) :
  increasing (map fst (block_calls prefix s)).
Proof.
  unfold block_calls.
  apply (increasing_flat_map (fun m => block_call prefix (snd m))).
  apply matchAll_from_increasing.
Qed.

Lemma tool_calls_increasing (prefix : string) (s : jsstring) :
  increasing (map fst (tool_calls prefix s)).
Proof.
  unfold tool_calls. rewrite map_map.
  erewrite map_ext; [apply (matchAll_from_increasing tool_re s 0 0)|].
  intros (i & (a & b) & c). reflexivity.
Qed.

Lemma simple_calls_increasing (prefix : string) (s : jsstring) :
  increasing (map fst (simple_calls prefix s)).
Proof.
  unfold simple_calls. rewrite map_map. simpl.
  apply (matchAll_from_increasing simple_re s 0 0).
Qed.

(** Every call of a textual form sits at a match of its pattern. *)
Lemma block_calls_sound (prefix : string) (s : jsstring) (i : nat) (fc : function_call) :
  In (i, fc) (block_calls prefix s) ->
  exists inner n, block_re (skipn i s) = Some (inner, n)
                  /\ block_call prefix inner = Some fc.
Proof.
  unfold block_calls. intros H.
  apply in_flat_map in H. destruct H as ((j & inner) & Hm & Hin).
  simpl in Hin. destruct (block_call prefix inner) as [fc'|] eqn:E; [|destruct Hin].
  destruct Hin as [Hin|[]]. inversion Hin; subst.
  apply matchAll_sound in Hm. destruct Hm as (n & Hn).
  exists inner, n. split; assumption.
Qed.

Lemma tool_calls_sound (prefix : string) (s : jsstring) (i : nat) (fc : function_call) :
  In (i, fc) (tool_calls prefix s) ->
  exists functionName paramName paramValue n,
    tool_re (skipn i s) = Some ((functionName, paramName, paramValue), n)
    /\ fc = {| fc_id := GeneratedId prefix;
               fc_name := Some (JStr functionName);
               fc_args := JObj [(paramName, JStr paramValue)] |}.
Proof.
  unfold tool_calls. intros H.
  apply in_map_iff in H. destruct H as ((j & (f & p) & v) & Heq & Hm).
  inversion Heq; subst.
  apply matchAll_sound in Hm. destruct Hm as (n & Hn).
  exists f, p, v, n. split; [exact Hn|reflexivity].
Qed.

Lemma simple_calls_sound (prefix : string) (s : jsstring) (i : nat) (fc : function_call) :
  In (i, fc) (simple_calls prefix s) ->
  exists functionName n,
    simple_re (skipn i s) = Some (functionName, n)
    /\ fc = {| fc_id := GeneratedId prefix;
               fc_name := Some (JStr functionName);
               fc_args := JObj [] |}.
Proof.
  unfold simple_calls. intros H.
  apply in_map_iff in H. destruct H as ((j & f) & Heq & Hm).
  inversion Heq; subst.
  apply matchAll_sound in Hm. destruct Hm as (n & Hn).
  exists f, n. split; [exact Hn|reflexivity].
Qed.

Lemma push_calls_spec (l : list function_call) :
  forall x,
    x_parts (push_calls x l) = x_parts x ++ map FunctionCallPart l
    /\ x_calls (push_calls x l) = x_calls x ++ l
    /\ x_text (push_calls x l) = x_text x.
Proof.
  unfold push_calls.
  induction l as [|fc l IH]; intros x; simpl.
  - rewrite !app_nil_r. auto.
  - destruct (IH (push_call x fc)) as (Hp & Hc & Ht).
    rewrite Hp, Hc, Ht. simpl. rewrite <- !app_assoc. auto.
Qed.

Lemma has_false (content : option jsstring) (marker : jsstring) :
  has content marker = false ->
  forall k, strip_prefix marker (skipn k (or_text content)) = None
            \/ or_text content = [].
Proof.
  intros H k. destruct content as [[|c t]|]; simpl in *; auto.
  left. apply (includes_false_strip marker (c :: t) H k).
Qed.

Lemma no_opening_no_match {A} (m : matcher A) (marker : jsstring)
      (content : option jsstring) :
  (forall s, strip_prefix marker s = None -> m s = None) ->
  has content marker = false ->
  matchAll m (or_text content) = [].
Proof.
  intros Hm H. unfold matchAll.
  destruct (or_text content) as [|c t] eqn:E; [reflexivity|].
  rewrite <- E. apply matchAll_from_nil. intros k. apply Hm.
  destruct (has_false content marker H k) as [Hk|Hk]; [exact Hk|].
  rewrite Hk in E. discriminate E.
Qed.

Lemma block_re_opening (s : jsstring) :
  strip_prefix OPEN_BLOCK s = None -> block_re s = None.
Proof. intros H. unfold block_re. rewrite H. reflexivity. Qed.

Lemma tool_re_opening (s : jsstring) :
  strip_prefix OPEN_TOOL s = None -> tool_re s = None.
Proof. intros H. unfold tool_re. rewrite H. reflexivity. Qed.

Lemma simple_re_opening (s : jsstring) :
  strip_prefix CALLING s = None -> simple_re s = None.
Proof. intros H. unfold simple_re. rewrite H. reflexivity. Qed.

(** The state after the three textual forms. *)
Lemma scans_spec (content : option jsstring) :
  let x3 := scan_simple content
              (scan_tool content
                 (scan_block content
                    {| x_parts := []; x_calls := [];
                       x_text := or_text content |})) in
  x_parts x3 = map FunctionCallPart (textual_calls (or_text content))
  /\ x_calls x3 = textual_calls (or_text content)
  /\ x_text x3 = last_pass_text content.
Proof.
  unfold scan_simple, scan_tool, scan_block, textual_calls, last_pass_text.
  assert (Hb : has content OPEN_BLOCK = false ->
               block_calls "grok_" (or_text content) = []).
  { intros H. unfold block_calls.
    rewrite (no_opening_no_match block_re OPEN_BLOCK content block_re_opening H).
    reflexivity. }
  assert (Ht : has content OPEN_TOOL = false ->
               tool_calls "grok_mini_" (or_text content) = []).
  { intros H. unfold tool_calls.
    rewrite (no_opening_no_match tool_re OPEN_TOOL content tool_re_opening H).
    reflexivity. }
  assert (Hs : has content CALLING = false ->
               simple_calls "grok_simple_" (or_text content) = []).
  { intros H. unfold simple_calls.
    rewrite (no_opening_no_match simple_re CALLING content simple_re_opening H).
    reflexivity. }
  destruct (has content OPEN_BLOCK) eqn:Eb;
    destruct (has content OPEN_TOOL) eqn:Et;
    destruct (has content CALLING) eqn:Es;
    try rewrite (Hb eq_refl); try rewrite (Ht eq_refl); try rewrite (Hs eq_refl);
    cbn [x_parts x_calls x_text set_text];
    repeat match goal with
           | |- context [push_calls ?x ?l] =>
               let Hp := fresh in let Hc := fresh in let Hx := fresh in
               destruct (push_calls_spec l x) as (Hp & Hc & Hx);
               rewrite ?Hp, ?Hc, ?Hx; clear Hp Hc Hx;
               cbn [x_parts x_calls x_text set_text]
           end;
    simpl; rewrite ?app_nil_r, ?map_app, <- ?app_assoc; auto.
Qed.

Lemma native_calls_keep (l : list tool_call) :
  forall x x', native_calls l x = Returned x' ->
    x_text x' = x_text x
    /\ exists native,
         x_parts x' = x_parts x ++ map FunctionCallPart native
         /\ x_calls x' = x_calls x ++ native
         /\ Forall (fun fc => exists id, fc_id fc = BackendId id) native.
Proof.
  induction l as [|tc rest IH]; intros x x' H; simpl in H.
  - inversion H; subst. split; [reflexivity|].
    exists []. simpl. rewrite !app_nil_r. auto.
  - destruct (jsstring_eqb (tc_type tc) (js "function")).
    + destruct (JSON_parse _) as [a|]; [|discriminate].
      apply IH in H. destruct H as (Ht & native & Hp & Hc & Hf).
      split; [exact Ht|].
      eexists (_ :: native). simpl in *.
      rewrite Hp, Hc, <- !app_assoc. simpl.
      repeat split; try reflexivity.
      constructor; [eexists; reflexivity|exact Hf].
    + apply IH, H.
Qed.

(** Only the first choice of a completion is read. *)
Lemma convert_first_choice (r : chat_completion) (c : choice) (others : list choice) :
  cc_choices r = c :: others ->
  convertToGeminiResponse r
  = convertToGeminiResponse
      (reply_with (m_content (ch_message c)) (m_tool_calls (ch_message c))
                  (ch_finish_reason c) (cc_usage r)).
Proof.
  intros H. unfold convertToGeminiResponse, reply_with. rewrite H. reflexivity.
Qed.

(** The normalizer, in terms of what each stage contributes. *)
Lemma convert_spec (content : option jsstring) (calls : option (list tool_call))
      (finish : option jsstring) (u : option usage) :
  convertToGeminiResponse (reply_with content calls finish u)
  = x5 <- native_calls (or_empty calls)
            {| x_parts := map FunctionCallPart (textual_calls (or_text content))
                          ++ text_part (last_pass_text content);
               x_calls := textual_calls (or_text content);
               x_text := last_pass_text content |} ;;
    Returned {| r_parts := x_parts x5;
                r_finishReason := finish_of finish;
                r_usageMetadata := u;
                r_text := x_text x5;
                r_functionCalls := calls_field (x_calls x5) |}.
Proof.
  unfold convertToGeminiResponse, reply_with; simpl.
  destruct (scans_spec content) as (Hp & Hc & Ht).
  set (x3 := scan_simple content _) in *.
  replace (push_text x3)
    with {| x_parts := map FunctionCallPart (textual_calls (or_text content))
                       ++ text_part (last_pass_text content);
            x_calls := textual_calls (or_text content);
            x_text := last_pass_text content |}; [reflexivity|].
  unfold push_text, text_part, push_part. rewrite Ht, Hp, Hc.
  destruct (nonempty (last_pass_text content)).
  - reflexivity.
  - rewrite app_nil_r. destruct x3; simpl in *; subst; reflexivity.
Qed.

(* ===================================================================== *)
(** ** The block example *)
(* ===================================================================== *)

(** The literals of the examples: [jsq] writes the double quote, code unit
    34, as an apostrophe. *)
Example jsq_quotes : jsq "{'x':1}" = [123; 34; 120; 34; 58; 49; 125]%N.
Proof. reflexivity. Qed.

(** C5. A reply whose text is exactly the block marker around the JSON
    object with action foo and action_input {x: 1} yields exactly one part,
    the call of foo with the argument x = 1; its visible text is empty, so
    the marker block is in no text part. *)
Theorem block_marker_yields_one_call :
  forall (finish : option jsstring) (u : option usage),
    convertToGeminiResponse
      (reply_with
         (Some (jsq "[function_call]{'action':'foo','action_input':{'x':1}}[/function_call]"))
         None finish u)
    = Returned {| r_parts := [FunctionCallPart foo_call];
                  r_finishReason := finish_of finish;
                  r_usageMetadata := u;
                  r_text := [];
                  r_functionCalls := Some [foo_call] |}.
Proof.
  intros finish u. vm_compute. reflexivity.
Qed.

(* ===================================================================== *)
(** ** Replies without markers *)
(* ===================================================================== *)

(** C7, as stated, fails on a text that holds the opening of a form but no
    marker of any form. In the first text no pattern finds a match, neither
    one that extracts a call nor one that removes a marker, yet the text
    comes out trimmed, because the pass of the natural-language form runs
    on the opening alone. In the second the inline pattern finds no marker,
    yet the removal pattern of the inline form takes the text from the
    opening to the next closing bracket. No call is extracted from
    either. *)
Lemma opening_without_marker_is_altered :
  ~ holds_marker (js " I am Calling function !")
  /\ removeAll simple_strip_re (js " I am Calling function !")
     = js " I am Calling function !"
  /\ text_of (convertToGeminiResponse (text_reply (js " I am Calling function !")))
     = js "I am Calling function !"
  /\ ~ extraction_is_identity (js " I am Calling function !")
  /\ ~ holds_marker (js "Use the [tool_call: syntax like arr[0] to call tools")
  /\ text_of (convertToGeminiResponse
                (text_reply (js "Use the [tool_call: syntax like arr[0] to call tools")))
     = js "Use theto call tools"
  /\ ~ extraction_is_identity
        (js "Use the [tool_call: syntax like arr[0] to call tools").
Proof.
  assert (Hno : forall s, matchAll block_re s = [] -> matchAll tool_re s = [] ->
                          matchAll simple_re s = [] -> ~ holds_marker s).
  { intros s H1 H2 H3 [H | [H | H]]; congruence. }
  split; [apply Hno; vm_compute; reflexivity|].
  split; [vm_compute; reflexivity|].
  split; [vm_compute; reflexivity|].
  split; [intros [H _]; vm_compute in H; discriminate|].
  split; [apply Hno; vm_compute; reflexivity|].
  split; [vm_compute; reflexivity|].
  intros [H _]. vm_compute in H. discriminate.
Qed.

(** C7, amended. When the text of a reply contains none of the marker
    openings the normalizer looks for ([[function_call]], [[tool_call:] and
    [Calling function ]), its visible text is the input text, the text is
    its only part (no part if it is empty) and no call is extracted. If the
    reply also carries structured calls, the text is still unchanged and
    every call part is one of them. *)
Theorem plain_text_reply_unchanged :
  forall (content : option jsstring) (calls : option (list tool_call))
         (finish : option jsstring) (u : option usage),
    includes (or_text content) OPEN_BLOCK = false ->
    includes (or_text content) OPEN_TOOL = false ->
    includes (or_text content) CALLING = false ->
    convertToGeminiResponse (reply_with content None finish u)
    = Returned {| r_parts := if nonempty (or_text content)
                             then [Text (or_text content)] else [];
                  r_finishReason := finish_of finish;
                  r_usageMetadata := u;
                  r_text := or_text content;
                  r_functionCalls := None |}
    /\ forall resp,
         convertToGeminiResponse (reply_with content calls finish u)
         = Returned resp ->
         r_text resp = or_text content
         /\ exists native,
              r_parts resp = (if nonempty (or_text content)
                              then [Text (or_text content)] else [])
                             ++ map FunctionCallPart native
              /\ Forall (fun fc => exists id, fc_id fc = BackendId id) native.
Proof.
  intros content calls finish u Hb Ht Hs.
  assert (Hhas : forall marker, includes (or_text content) marker = false ->
                                has content marker = false).
  { intros marker H. destruct content as [s|]; [|reflexivity].
    simpl in *. rewrite H. apply andb_false_r. }
  assert (Hscan : forall x,
            scan_simple content (scan_tool content (scan_block content x)) = x).
  { intros x. unfold scan_simple, scan_tool, scan_block.
    rewrite (Hhas _ Hb), (Hhas _ Ht), (Hhas _ Hs). reflexivity. }
  split.
  - unfold convertToGeminiResponse, reply_with; simpl.
    rewrite Hscan. unfold push_text; simpl.
    destruct (nonempty (or_text content)); reflexivity.
  - intros resp H.
    unfold convertToGeminiResponse, reply_with in H; simpl in H.
    rewrite Hscan in H.
    destruct (native_calls _ _) as [x5|e] eqn:E; simpl in H; [|discriminate].
    inversion H; subst resp; clear H; simpl.
    apply native_calls_keep in E.
    destruct E as (Etext & native & Hp & _ & Hf).
    split.
    + rewrite Etext. unfold push_text; simpl.
      destruct (nonempty (or_text content)); reflexivity.
    + exists native. split; [|exact Hf].
      rewrite Hp. unfold push_text; simpl.
      destruct (nonempty (or_text content)); reflexivity.
Qed.

Lemma plain_text_reply_unchanged_witness :
  convertToGeminiResponse (text_reply (js "All tests pass."))
  = Returned {| r_parts := [Text (js "All tests pass.")];
                r_finishReason := STOP;
                r_usageMetadata := None;
                r_text := js "All tests pass.";
                r_functionCalls := None |}.
Proof.
  exact (proj1 (plain_text_reply_unchanged
                  (Some (js "All tests pass.")) None (Some (js "stop")) None
                  eq_refl eq_refl eq_refl)).
Defined.

(** The hypothesis of C7 is on the openings, as the guards of the code are:
    a text with an opening but no complete marker yields no call either, but
    it is cleaned. *)
Example near_marker_text_is_cleaned :
  convertToGeminiResponse (text_reply (js " see [tool_call: docs] here "))
  = Returned {| r_parts := [Text (js "seehere")];
                r_finishReason := STOP;
                r_usageMetadata := None;
                r_text := js "seehere";
                r_functionCalls := None |}
  /\ matchAll tool_re (js " see [tool_call: docs] here ") = [].
Proof. vm_compute. split; reflexivity. Qed.

(* ===================================================================== *)
(** ** The order of the parts *)
(* ===================================================================== *)

(** C3, as stated, fails: the calls extracted from the text stand before
    the text part, not after it. *)
Lemma extracted_calls_precede_text :
  ~ textual_calls_follow_text
      (parts_of (convertToGeminiResponse
                   (text_reply (js "Calling function a [tool_call: b for p 'v'] tail")))).
Proof.
  intros H.
  assert (L : 2 < 0); [|inversion L].
  apply (H 2 0 (js "[tool_call: b for p 'v'] tail")
           {| fc_id := GeneratedId "grok_mini_";
              fc_name := Some (JStr (js "b"));
              fc_args := JObj [(js "p", JStr (js "v"))] |}).
  - vm_compute. reflexivity.
  - vm_compute. reflexivity.
  - eexists. reflexivity.
Qed.

(** On the same reply the call of the inline form comes before the call of
    the natural-language form, whose text comes first. *)
Example calls_grouped_by_form :
  parts_of (convertToGeminiResponse
              (text_reply (js "Calling function a [tool_call: b for p 'v'] tail")))
  = [ FunctionCallPart {| fc_id := GeneratedId "grok_mini_";
                          fc_name := Some (JStr (js "b"));
                          fc_args := JObj [(js "p", JStr (js "v"))] |};
      FunctionCallPart {| fc_id := GeneratedId "grok_simple_";
                          fc_name := Some (JStr (js "a"));
                          fc_args := JObj [] |};
      Text (js "[tool_call: b for p 'v'] tail") ]
  /\ map fst (simple_calls "grok_simple_"
                (js "Calling function a [tool_call: b for p 'v'] tail")) = [0]
  /\ map fst (tool_calls "grok_mini_"
                (js "Calling function a [tool_call: b for p 'v'] tail")) = [19].
Proof. vm_compute. repeat split. Qed.

(** C3, amended. In the part list of a normalized reply the calls extracted
    from the text come first, then the cleaned text part if the text is not
    empty, then the structured calls of the backend. The extracted calls are
    grouped by form (block, inline, natural language) and, within a form,
    stand in the order of their markers in the reply. Without structured
    calls the normalizer returns. *)
Theorem parts_order :
  forall (content : option jsstring) (calls : option (list tool_call))
         (finish : option jsstring) (u : option usage),
    let raw := or_text content in
    let blocks := block_calls "grok_" raw in
    let inlines := tool_calls "grok_mini_" raw in
    let simples := simple_calls "grok_simple_" raw in
    (calls = None ->
     exists resp,
       convertToGeminiResponse (reply_with content calls finish u) = Returned resp)
    /\ (forall resp,
          convertToGeminiResponse (reply_with content calls finish u)
          = Returned resp ->
          exists native,
            r_parts resp
            = map FunctionCallPart
                (map snd blocks ++ map snd inlines ++ map snd simples)
              ++ text_part (r_text resp)
              ++ map FunctionCallPart native
            /\ Forall from_backend native
            /\ Forall generated (map snd blocks ++ map snd inlines ++ map snd simples))
    /\ increasing (map fst blocks)
    /\ increasing (map fst inlines)
    /\ increasing (map fst simples)
    /\ (forall i fc, In (i, fc) blocks ->
          exists inner n, block_re (skipn i raw) = Some (inner, n))
    /\ (forall i fc, In (i, fc) inlines ->
          exists captures n, tool_re (skipn i raw) = Some (captures, n))
    /\ (forall i fc, In (i, fc) simples ->
          exists name n, simple_re (skipn i raw) = Some (name, n)).
Proof.
  intros content calls finish u raw blocks inlines simples.
  split.
  { intros ->. rewrite convert_spec. simpl. eexists. reflexivity. }
  split.
  { intros resp H. rewrite convert_spec in H.
    destruct (native_calls _ _) as [x5|e] eqn:E; simpl in H; [|discriminate].
    inversion H; subst resp; clear H; simpl.
    apply native_calls_keep in E. destruct E as (Ht & native & Hp & _ & Hf).
    simpl in *. exists native. rewrite Hp, Ht, <- app_assoc.
    split; [reflexivity|]. split; [exact Hf|].
    subst blocks inlines simples.
    repeat rewrite Forall_app. repeat split; apply Forall_forall; intros fc Hin;
      apply in_map_iff in Hin; destruct Hin as ((i & fc') & Heq & Hin);
      simpl in Heq; subst fc'.
    - apply block_calls_sound in Hin. destruct Hin as (inner & n & _ & Hc).
      unfold block_call in Hc.
      destruct (JSON_parse (trim inner)) as [[]|]; inversion Hc;
        eexists; reflexivity.
    - apply tool_calls_sound in Hin.
      destruct Hin as (f & p & v & n & _ & ->). eexists; reflexivity.
    - apply simple_calls_sound in Hin.
      destruct Hin as (f & n & _ & ->). eexists; reflexivity. }
  split; [apply block_calls_increasing|].
  split; [apply tool_calls_increasing|].
  split; [apply simple_calls_increasing|].
  split.
  { intros i fc H. apply block_calls_sound in H.
    destruct H as (inner & n & Hm & _). exists inner, n. exact Hm. }
  split.
  { intros i fc H. apply tool_calls_sound in H.
    destruct H as (f & p & v & n & Hm & _). exists (f, p, v), n. exact Hm. }
  intros i fc H. apply simple_calls_sound in H.
  destruct H as (f & n & Hm & _). exists f, n. exact Hm.
Qed.

Lemma parts_order_witness :
  exists native,
    parts_of (convertToGeminiResponse
                (text_reply (js "Calling function a [tool_call: b for p 'v'] tail")))
    = map FunctionCallPart
        (textual_calls (js "Calling function a [tool_call: b for p 'v'] tail"))
      ++ text_part (js "[tool_call: b for p 'v'] tail")
      ++ map FunctionCallPart native.
Proof.
  destruct (parts_order
              (Some (js "Calling function a [tool_call: b for p 'v'] tail"))
              None (Some (js "stop")) None) as (_ & H & _).
  destruct (H _ eq_refl) as (native & Hp & _).
  exists native. exact Hp.
Defined.

(* ===================================================================== *)
(** ** What the last cleaning pass leaves in the text *)
(* ===================================================================== *)

Lemma calling_is_soft : Forall (fun c => is_soft c = true) CALLING.
Proof.
  apply Forall_forall. apply forallb_forall. vm_compute. reflexivity.
Qed.

Lemma soft_split (h : N) :
  is_soft h = false -> is_space h = false /\ is_word h = false.
Proof. unfold is_soft. intros H. apply orb_false_iff in H. exact H. Qed.

(** The pattern does not look past a code unit it cannot match. *)
Lemma simple_strip_re_stop (x : jsstring) (h : N) (rest : jsstring) :
  is_soft h = false ->
  simple_strip_re (x ++ h :: rest) = simple_strip_re x.
Proof.
  intros Hh. destruct (soft_split h Hh) as [Hs Hw].
  assert (Hc : Forall (fun c => c <> h) CALLING).
  { eapply Forall_impl; [|apply calling_is_soft].
    intros c Hc ->. cbv beta in Hc. rewrite Hc in Hh. discriminate Hh. }
  unfold simple_strip_re, span1.
  rewrite (span_app_stop is_space x h rest Hs).
  pose proof (span_length is_space x) as L0.
  destruct (span is_space x) as [p0 r0]; cbn [fst snd] in *.
  rewrite (strip_prefix_app_stop CALLING r0 h rest Hc).
  destruct (strip_prefix CALLING r0) as [r1|]; cbn [option_map]; [|reflexivity].
  rewrite (span_app_stop is_word r1 h rest Hw).
  destruct (span is_word r1) as [p2 r2]; cbn [fst snd] in *.
  destruct p2 as [|c2 p2]; [reflexivity|].
  rewrite (span_app_stop is_space r2 h rest Hs).
  pose proof (span_length is_space r2) as L2.
  destruct (span is_space r2) as [p3 r3]; cbn [fst snd] in *.
  do 2 f_equal. rewrite !length_app. cbn [length]. lia.
Qed.

Lemma simple_strip_re_length (x : jsstring) (u : unit) (n : nat) :
  simple_strip_re x = Some (u, n) -> n <= length x.
Proof.
  unfold simple_strip_re, span1.
  destruct (span is_space x) as [p0 r0].
  destruct (strip_prefix CALLING r0) as [r1|]; [|discriminate].
  destruct (span is_word r1) as [[|c2 p2] r2]; [discriminate|].
  destruct (span is_space r2) as [p3 r3].
  intros H. inversion H. lia.
Qed.

(** Removal on both sides of a code unit the pattern cannot match. *)
Lemma remove_simple_stop (a : jsstring) (h : N) (rest : jsstring) :
  is_soft h = false ->
  forall skip, skip <= length a ->
    remove_from simple_strip_re skip (a ++ h :: rest)
    = remove_from simple_strip_re skip a
      ++ h :: remove_from simple_strip_re 0 rest.
Proof.
  intros Hh. induction a as [|c t IH]; intros skip Hskip.
  - assert (skip = 0) by (simpl in Hskip; lia). subst skip.
    pose proof (simple_strip_re_stop [] h rest Hh) as E0.
    cbn [app] in E0 |- *. cbn [remove_from]. rewrite E0. reflexivity.
  - cbn [length] in Hskip. destruct skip as [|k].
    + pose proof (simple_strip_re_stop (c :: t) h rest Hh) as E0.
      rewrite <- app_comm_cons in E0 |- *. cbn [remove_from]. rewrite E0.
      destruct (simple_strip_re (c :: t)) as [[u n]|] eqn:E.
      * apply simple_strip_re_length in E. cbn [length] in E.
        apply IH. lia.
      * rewrite IH by lia. reflexivity.
    + rewrite <- app_comm_cons. cbn [remove_from]. apply IH. lia.
Qed.

(** A marker that begins and ends with code units outside the pattern, and
    whose inside the pattern leaves alone, goes through the removal. *)
Lemma remove_simple_marker (a mid b : jsstring) (h1 h2 : N) :
  is_soft h1 = false -> is_soft h2 = false ->
  removeAll simple_strip_re mid = mid ->
  removeAll simple_strip_re (a ++ (h1 :: mid ++ [h2]) ++ b)
  = removeAll simple_strip_re a ++ (h1 :: mid ++ [h2])
    ++ removeAll simple_strip_re b.
Proof.
  intros H1 H2 Hmid. unfold removeAll in *.
  rewrite <- app_comm_cons.
  rewrite (remove_simple_stop a h1 _ H1 0) by lia.
  rewrite <- app_assoc. simpl.
  rewrite (remove_simple_stop mid h2 b H2 0) by lia.
  rewrite Hmid. rewrite <- app_assoc. reflexivity.
Qed.

(** The openings and the closing of the bracketed forms survive the
    natural-language pass. *)
Lemma marker_survives_simple (raw mid : jsstring) (h1 h2 : N) :
  is_soft h1 = false -> is_soft h2 = false ->
  removeAll simple_strip_re mid = mid ->
  includes raw (h1 :: mid ++ [h2]) = true ->
  includes (trim (removeAll simple_strip_re raw)) (h1 :: mid ++ [h2]) = true.
Proof.
  intros H1 H2 Hmid H.
  destruct (includes_split _ _ H) as (a & b & ->).
  rewrite (remove_simple_marker a mid b h1 h2 H1 H2 Hmid).
  destruct (trim_keeps_marker (removeAll simple_strip_re a) mid
              (removeAll simple_strip_re b) h1 h2
              (proj1 (soft_split h1 H1)) (proj1 (soft_split h2 H2)))
    as (a' & b' & ->).
  apply includes_app.
Qed.

Lemma span_rest_skipn (f : N -> bool) (x : jsstring) :
  snd (span f x) = skipn (length (fst (span f x))) x.
Proof.
  induction x as [|c t IH]; simpl; [reflexivity|].
  destruct (f c); [|reflexivity].
  destruct (span f t); simpl in *. exact IH.
Qed.

Lemma no_opening_suffix (p a : jsstring) :
  includes a p = false ->
  forall x, (exists k, x = skipn k a) -> strip_prefix p x = None.
Proof.
  intros H x (k & ->). apply includes_false_strip, H.
Qed.

(** The inline opening does not begin in a text without it and end in the
    block opening that follows the text. *)
Lemma no_tool_opening_across (r rest : jsstring) :
  strip_prefix OPEN_TOOL r = None ->
  strip_prefix OPEN_TOOL (r ++ OPEN_BLOCK ++ rest) = None.
Proof.
  intros H. destruct r as [|c r']; [reflexivity|].
  change OPEN_TOOL with (91%N :: js "tool_call:") in *.
  change OPEN_BLOCK with (91%N :: js "function_call]").
  rewrite <- !app_comm_cons. cbn [strip_prefix] in *.
  destruct (91 =? c)%N; [|reflexivity].
  rewrite strip_prefix_app_stop, H; [reflexivity|].
  apply Forall_forall. intros u Hu E. subst u.
  vm_compute in Hu. intuition discriminate.
Qed.

Lemma tool_strip_re_before_block (a b x : jsstring) :
  includes a OPEN_TOOL = false -> (exists k, x = skipn k a) ->
  tool_strip_re (x ++ OPEN_BLOCK ++ b) = None.
Proof.
  intros H (k & ->). unfold tool_strip_re.
  change (OPEN_BLOCK ++ b) with (91%N :: js "function_call]" ++ b).
  rewrite (span_app_stop is_space (skipn k a) 91%N _ eq_refl).
  rewrite span_rest_skipn, skipn_skipn.
  destruct (span is_space (skipn k a)) as [p0 r0]; cbn [fst snd].
  change (91%N :: js "function_call]" ++ b) with (OPEN_BLOCK ++ b).
  rewrite no_tool_opening_across; [reflexivity|].
  apply (no_opening_suffix OPEN_TOOL a H). eexists. reflexivity.
Qed.

(** The inline pass leaves alone a block opening that no inline opening
    precedes. *)
Lemma remove_tool_before_block (a b : jsstring) :
  includes a OPEN_TOOL = false ->
  removeAll tool_strip_re (a ++ OPEN_BLOCK ++ b)
  = a ++ OPEN_BLOCK ++ removeAll tool_strip_re b.
Proof.
  intros H. unfold removeAll.
  assert (Hsuf : forall k,
            remove_from tool_strip_re 0 (skipn k a ++ OPEN_BLOCK ++ b)
            = skipn k a ++ OPEN_BLOCK ++ remove_from tool_strip_re 0 b).
  { intros k. remember (length a - k) as n eqn:En.
    revert k En. induction n as [|n IH]; intros k En.
    - rewrite skipn_all2 by lia. reflexivity.
    - pose proof (tool_strip_re_before_block a b (skipn k a) H
                    (ex_intro _ k eq_refl)) as E.
      destruct (skipn k a) as [|c t] eqn:Es.
      { apply (f_equal (@length N)) in Es. rewrite length_skipn in Es.
        simpl in Es. lia. }
      assert (Et : t = skipn (S k) a).
      { replace (S k) with (1 + k) by lia.
        rewrite <- skipn_skipn, Es. reflexivity. }
      rewrite <- !app_comm_cons in *. cbn [remove_from]. rewrite E.
      f_equal. rewrite Et. apply IH. lia. }
  exact (Hsuf 0).
Qed.

Lemma block_opening_survives_tool (a b : jsstring) :
  includes a OPEN_TOOL = false ->
  includes (trim (removeAll tool_strip_re (a ++ OPEN_BLOCK ++ b))) OPEN_BLOCK
  = true.
Proof.
  intros H. rewrite (remove_tool_before_block a b H).
  change OPEN_BLOCK with (91%N :: js "function_call" ++ [93%N]).
  destruct (trim_keeps_marker a (js "function_call")
              (removeAll tool_strip_re b) 91 93 eq_refl eq_refl)
    as (a' & b' & ->).
  apply includes_app.
Qed.

Lemma kept_from_here {A} (m : matcher A) (piece : jsstring) :
  forall idx b,
    untouched (spans_from m idx 0 (piece ++ b)) idx (length piece) ->
    exists b', remove_from m 0 (piece ++ b) = piece ++ b'.
Proof.
  unfold untouched.
  induction piece as [|c p IH]; intros idx b H.
  - exists (remove_from m 0 b). reflexivity.
  - rewrite <- app_comm_cons in *. cbn [spans_from remove_from length] in *.
    destruct (m (c :: p ++ b)) as [[x n]|].
    + inversion H as [|? ? Hh _]; subst. cbn [fst snd] in Hh. lia.
    + destruct (IH (S idx) b) as [b' E].
      { eapply Forall_impl; [|exact H]. cbv beta. intros sp Hs. lia. }
      exists b'. rewrite E. reflexivity.
Qed.

Lemma kept_outside_spans {A} (m : matcher A) (a : jsstring) :
  forall idx skip piece b,
    skip <= length a ->
    untouched (spans_from m idx skip (a ++ piece ++ b))
              (idx + length a) (length piece) ->
    exists a' b', remove_from m skip (a ++ piece ++ b) = a' ++ piece ++ b'.
Proof.
  induction a as [|c a IH]; intros idx skip piece b Hs H.
  - assert (skip = 0) by (simpl in Hs; lia). subst skip.
    cbn [app length] in *. rewrite Nat.add_0_r in H.
    destruct (kept_from_here m piece idx b H) as [b' E].
    exists [], b'. exact E.
  - rewrite <- app_comm_cons in *. cbn [length] in *.
    unfold untouched in *. cbn [spans_from remove_from] in *.
    destruct skip as [|k].
    + destruct (m (c :: a ++ piece ++ b)) as [[x n]|].
      * inversion H as [|? ? Hh Ht]; subst. cbn [fst snd] in Hh.
        destruct (IH (S idx) (pred n) piece b) as (a' & b' & E).
        { lia. }
        { eapply Forall_impl; [|exact Ht]. cbv beta. intros sp Hsp. lia. }
        exists a', b'. exact E.
      * destruct (IH (S idx) 0 piece b) as (a' & b' & E).
        { lia. }
        { eapply Forall_impl; [|exact H]. cbv beta. intros sp Hsp. lia. }
        exists (c :: a'), b'. rewrite E. reflexivity.
    + destruct (IH (S idx) k piece b) as (a' & b' & E).
      { lia. }
      { eapply Forall_impl; [|exact H]. cbv beta. intros sp Hsp. lia. }
      exists a', b'. exact E.
Qed.

(** A piece of the content that no removed span overlaps is in the cleaned
    and trimmed text, when it neither begins nor ends with white space. *)
Lemma piece_survives {A} (m : matcher A) (a piece b : jsstring) (h1 : N)
      (mid : jsstring) (h2 : N) :
  piece = h1 :: mid ++ [h2] ->
  is_space h1 = false -> is_space h2 = false ->
  untouched (removed_spans m (a ++ piece ++ b)) (length a) (length piece) ->
  includes (trim (removeAll m (a ++ piece ++ b))) piece = true.
Proof.
  intros -> H1 H2 Hu.
  destruct (kept_outside_spans m a 0 0 (h1 :: mid ++ [h2]) b (Nat.le_0_l _) Hu)
    as (a' & b' & E).
  unfold removeAll. rewrite E.
  destruct (trim_keeps_marker a' mid b' h1 h2 H1 H2) as (a'' & b'' & ->).
  apply includes_app.
Qed.

(** C10, as stated, fails on a reply with markers of two forms, one nested
    in the other: both forms match and yield a call, the inline pass is the
    last, and its removal pattern, which stops at the first closing bracket,
    takes the opening of the block with it. *)
Lemma nested_block_marker_not_kept :
  map fst (matchAll block_re nested_markers) = [21]
  /\ map fst (matchAll tool_re nested_markers) = [0]
  /\ text_of (convertToGeminiResponse (text_reply nested_markers))
     = js "{}[/function_call]']"
  /\ ~ earlier_markers_remain nested_markers
         (text_of (convertToGeminiResponse (text_reply nested_markers))).
Proof.
  split; [vm_compute; reflexivity|].
  split; [vm_compute; reflexivity|].
  split; [vm_compute; reflexivity|].
  intros [H _].
  assert (E : includes (text_of (convertToGeminiResponse (text_reply nested_markers)))
                       OPEN_BLOCK = false) by (vm_compute; reflexivity).
  rewrite H in E; [discriminate E| |left]; vm_compute; reflexivity.
Qed.

(** The pair of forms the claim names, side by side: the block is parsed
    and its call emitted, yet the block stays in the visible text, from
    which the inline pass removed the inline marker only. *)
Example block_marker_stays_in_text :
  convertToGeminiResponse
    (text_reply (jsq "[function_call]{'action':'foo'}[/function_call] then [tool_call: bar for p 'v']"))
  = Returned
      {| r_parts :=
           [ FunctionCallPart {| fc_id := GeneratedId "grok_";
                                 fc_name := Some (JStr (js "foo"));
                                 fc_args := JObj [] |};
             FunctionCallPart {| fc_id := GeneratedId "grok_mini_";
                                 fc_name := Some (JStr (js "bar"));
                                 fc_args := JObj [(js "p", JStr (js "v"))] |};
             Text (jsq "[function_call]{'action':'foo'}[/function_call] then") ];
         r_finishReason := STOP;
         r_usageMetadata := None;
         r_text := jsq "[function_call]{'action':'foo'}[/function_call] then";
         r_functionCalls :=
           Some [ {| fc_id := GeneratedId "grok_";
                     fc_name := Some (JStr (js "foo"));
                     fc_args := JObj [] |};
                  {| fc_id := GeneratedId "grok_mini_";
                     fc_name := Some (JStr (js "bar"));
                     fc_args := JObj [(js "p", JStr (js "v"))] |} ] |}.
Proof. vm_compute. reflexivity. Qed.

Lemma bracket_markers :
  OPEN_BLOCK = 91%N :: js "function_call" ++ [93%N]
  /\ CLOSE_BLOCK = 91%N :: js "/function_call" ++ [93%N]
  /\ OPEN_TOOL = 91%N :: js "tool_call" ++ [58%N].
Proof. repeat split. Qed.

(** C10, amended. Every cleaning pass of the non-streaming normalizer
    starts from the raw content of the reply, so the visible text is the
    raw content cleaned by one pass only, that of the last form whose
    opening the content has: the natural-language form if it has
    [Calling function ], else the inline form if it has [[tool_call:], else
    the block form if it has [[function_call]]; the text is the raw content
    when it has none. What the earlier passes removed is back in the text:
    every piece of the raw content that no span removed by the last pass
    overlaps is in the visible text, so a marker of an earlier form remains
    unless such a span overlaps it. In particular, when the last pass is
    the natural-language one, every [[function_call]], [[/function_call]]
    and [[tool_call:] of the reply is still in the visible text; when it is
    the inline one, a [[function_call]] that no [[tool_call:] precedes is
    still in it. *)
Theorem visible_text_is_last_pass_only :
  forall (content : option jsstring) (calls : option (list tool_call))
         (finish : option jsstring) (u : option usage),
    let raw := or_text content in
    (calls = None ->
     exists resp,
       convertToGeminiResponse (reply_with content calls finish u) = Returned resp)
    /\ forall resp,
         convertToGeminiResponse (reply_with content calls finish u)
         = Returned resp ->
         (has content CALLING = true ->
          r_text resp = trim (removeAll simple_strip_re raw))
         /\ (has content CALLING = false -> has content OPEN_TOOL = true ->
             r_text resp = trim (removeAll tool_strip_re raw))
         /\ (has content CALLING = false -> has content OPEN_TOOL = false ->
             has content OPEN_BLOCK = true ->
             r_text resp = trim (removeAll block_re raw))
         /\ (has content CALLING = false -> has content OPEN_TOOL = false ->
             has content OPEN_BLOCK = false ->
             r_text resp = raw)
         /\ (has content CALLING = true ->
             forall marker,
               In marker [OPEN_BLOCK; CLOSE_BLOCK; OPEN_TOOL] ->
               includes raw marker = true ->
               includes (r_text resp) marker = true)
         /\ (has content CALLING = false -> has content OPEN_TOOL = true ->
             forall a b,
               raw = a ++ OPEN_BLOCK ++ b ->
               includes a OPEN_TOOL = false ->
               includes (r_text resp) OPEN_BLOCK = true)
         /\ (forall (a piece b : jsstring) (h1 : N) (mid : jsstring) (h2 : N),
               raw = a ++ piece ++ b ->
               piece = h1 :: mid ++ [h2] ->
               is_space h1 = false -> is_space h2 = false ->
               untouched (last_pass_spans content) (length a) (length piece) ->
               includes (r_text resp) piece = true).
Proof.
  intros content calls finish u raw.
  split.
  { intros ->. rewrite convert_spec. simpl. eexists. reflexivity. }
  intros resp H. rewrite convert_spec in H.
  destruct (native_calls _ _) as [x5|e] eqn:E; simpl in H; [|discriminate].
  inversion H; subst resp; clear H; simpl.
  apply native_calls_keep in E. destruct E as (-> & _). simpl.
  unfold last_pass_text. fold raw.
  split; [intros ->; reflexivity|].
  split; [intros -> ->; reflexivity|].
  split; [intros -> -> ->; reflexivity|].
  split; [intros -> -> ->; reflexivity|].
  split; [|split].
  - intros -> marker Hin Hinc.
    destruct bracket_markers as (Eb & Ec & Et).
    destruct Hin as [<-|[<-|[<-|[]]]].
    + rewrite Eb in *. apply marker_survives_simple; auto.
    + rewrite Ec in *. apply marker_survives_simple; auto.
    + rewrite Et in *. apply marker_survives_simple; auto.
  - intros -> -> a b -> Ha. apply block_opening_survives_tool, Ha.
  - intros a piece b h1 mid h2 Hraw Hp H1 H2 Hu.
    unfold last_pass_spans in Hu. fold raw in Hu. rewrite Hraw in Hu |- *.
    destruct (has content CALLING);
      [exact (piece_survives _ a piece b h1 mid h2 Hp H1 H2 Hu)|].
    destruct (has content OPEN_TOOL);
      [exact (piece_survives _ a piece b h1 mid h2 Hp H1 H2 Hu)|].
    destruct (has content OPEN_BLOCK);
      [exact (piece_survives _ a piece b h1 mid h2 Hp H1 H2 Hu)|].
    apply includes_app.
Qed.

Lemma visible_text_is_last_pass_only_witness :
  includes
    (text_of (convertToGeminiResponse
                (text_reply (js "[function_call]{}[/function_call] Calling function run"))))
    OPEN_BLOCK = true
  /\ includes
       (text_of (convertToGeminiResponse
                   (text_reply (js "[tool_call: a for b 'v'] then [function_call]{}[/function_call]"))))
       (js "[function_call]{}[/function_call]") = true.
Proof.
  split.
  - destruct (visible_text_is_last_pass_only
                (Some (js "[function_call]{}[/function_call] Calling function run"))
                None (Some (js "stop")) None) as (_ & H).
    destruct (H _ eq_refl) as (_ & _ & _ & _ & Hkeep & _).
    apply (Hkeep eq_refl OPEN_BLOCK); [left; reflexivity|reflexivity].
  - destruct (visible_text_is_last_pass_only
                (Some (js "[tool_call: a for b 'v'] then [function_call]{}[/function_call]"))
                None (Some (js "stop")) None) as (_ & H).
    destruct (H _ eq_refl) as (_ & _ & _ & _ & _ & _ & Hpiece).
    apply (Hpiece (js "[tool_call: a for b 'v'] then ")
                  (js "[function_call]{}[/function_call]") []
                  91%N (js "function_call]{}[/function_call") 93%N);
      try reflexivity.
    unfold untouched. apply Forall_forall. intros sp Hin.
    vm_compute in Hin. destruct Hin as [<- | []].
    left. vm_compute. repeat constructor.
Defined.

(* ===================================================================== *)
(** ** Streaming against the whole reply *)
(* ===================================================================== *)

(** The part of C1 that the streaming path keeps: the block form is
    searched only when the buffer holds both markers; the calls it emits
    then sit at distinct blocks of the buffer, from left to right, and these
    blocks are removed from the buffer. *)
Lemma stream_block_spec (content : option jsstring) (acc : jsstring) (x : extraction) :
  (includes acc OPEN_BLOCK && includes acc CLOSE_BLOCK = false ->
   stream_block content (acc, x) = (acc, x))
  /\ (includes acc OPEN_BLOCK && includes acc CLOSE_BLOCK = true ->
      fst (stream_block content (acc, x)) = trim (removeAll block_re acc)
      /\ x_calls (snd (stream_block content (acc, x)))
         = x_calls x ++ map snd (block_calls "grok_stream_" acc)
      /\ increasing (map fst (block_calls "grok_stream_" acc))).
Proof.
  unfold stream_block. split; intros ->; [reflexivity|].
  split; [reflexivity|]. split; [|apply block_calls_increasing].
  cbn [snd set_text x_calls].
  apply (push_calls_spec (map snd (block_calls "grok_stream_" acc)) x).
Qed.

(** C1, evaluated where the code departs from it. A content that is the
    natural-language form streams as plain text and yields no call, while
    the non-streaming normalizer, which alone searches this form, yields the
    call and no text. A block whose two markers arrive in different chunks
    yields its call once, in both modes, but the streamed text keeps the
    whole marker block, which the non-streaming text does not have. *)
Theorem streaming_departs_from_whole_reply :
  streamed_parts [js "Calling function foo"] = [Text (js "Calling function foo")]
  /\ whole_parts [js "Calling function foo"]
     = [FunctionCallPart {| fc_id := GeneratedId "grok_simple_";
                            fc_name := Some (JStr (js "foo"));
                            fc_args := JObj [] |}]
  /\ ~ streaming_equivalent [js "Calling function foo"]
  /\ texts_of (streamed_parts [jsq "ok [function_call]{'action':'foo'}";
                               js "[/function_call] done"])
     = jsq "ok [function_call]{'action':'foo'}[/function_call] done"
  /\ texts_of (whole_parts [jsq "ok [function_call]{'action':'foo'}";
                            js "[/function_call] done"])
     = js "ok  done"
  /\ call_count (streamed_parts [jsq "ok [function_call]{'action':'foo'}";
                                 js "[/function_call] done"]) = 1
  /\ ~ streaming_equivalent [jsq "ok [function_call]{'action':'foo'}";
                             js "[/function_call] done"].
Proof.
  split; [vm_compute; reflexivity|].
  split; [vm_compute; reflexivity|].
  split; [intros [H _]; vm_compute in H; discriminate H|].
  split; [vm_compute; reflexivity|].
  split; [vm_compute; reflexivity|].
  split; [vm_compute; reflexivity|].
  intros [H _]. vm_compute in H. discriminate H.
Qed.

(* ===================================================================== *)
(** ** Parsing the selection *)
(* ===================================================================== *)

Lemma digits_re_none (c : N) (t : jsstring) :
  is_digit c = false -> digits_re (c :: t) = None.
Proof.
  intros H. unfold digits_re, span1. simpl. rewrite H. reflexivity.
Qed.

Lemma no_digit_no_match (s : jsstring) :
  Forall (fun c => is_digit c = false) s ->
  forall idx skip, matchAll_from digits_re idx skip s = [].
Proof.
  induction 1 as [|c t Hc _ IH]; intros idx skip; [reflexivity|].
  simpl. destruct skip; [|apply IH].
  rewrite (digits_re_none c t Hc). apply IH.
Qed.

Lemma parseSelectionResponse_range (response : jsstring) :
  Forall in_selection_range (parseSelectionResponse response).
Proof.
  unfold parseSelectionResponse. apply Forall_forall.
  intros n Hn. apply filter_In in Hn. destruct Hn as [_ Hn].
  apply andb_true_iff in Hn. destruct Hn as [H0 H100].
  apply N.ltb_lt in H0. apply N.leb_le in H100.
  unfold in_selection_range. lia.
Qed.

Lemma digits_re_run (d b : jsstring) :
  d <> [] -> Forall (fun c => is_digit c = true) d -> starts_clean b ->
  digits_re (d ++ b) = Some (d, length d).
Proof.
  intros Hd Hall Hb. unfold digits_re, span1.
  rewrite (span_app_class is_digit d b Hall), (span_stop is_digit b Hb); simpl.
  rewrite app_nil_r. destruct d; [contradiction|reflexivity].
Qed.

Lemma matched_run (d b : jsstring) :
  d <> [] -> Forall (fun c => is_digit c = true) d -> starts_clean b ->
  matched digits_re (d ++ b) = d :: matched digits_re b.
Proof.
  intros Hd Hall Hb. unfold matched, matchAll.
  pose proof (digits_re_run d b Hd Hall Hb) as E.
  destruct d as [|c d']; [contradiction|].
  rewrite <- app_comm_cons in *. cbn [matchAll_from]. rewrite E.
  cbn [map snd length pred]. f_equal.
  rewrite matchAll_from_skip, skipn_app, skipn_all, Nat.sub_diag.
  simpl. apply matchAll_from_values.
Qed.

Lemma ends_clean_tail (c : N) (t : jsstring) :
  ends_clean (c :: t) -> ends_clean t.
Proof.
  unfold ends_clean. simpl. destruct (rev t) as [|x r]; simpl; auto.
Qed.

Lemma ends_clean_suffix (p q : jsstring) :
  ends_clean (p ++ q) -> ends_clean q.
Proof.
  induction p as [|c p IH]; simpl; [auto|].
  intros H. apply IH. eapply ends_clean_tail, H.
Qed.

Lemma ends_clean_digits (p : jsstring) :
  Forall (fun c => is_digit c = true) p -> ends_clean p -> p = [].
Proof.
  intros Hall H. unfold ends_clean in H.
  destruct (rev p) as [|x r] eqn:E.
  - apply (f_equal (@rev N)) in E. rewrite rev_involutive in E. exact E.
  - simpl in H. rewrite Forall_forall in Hall.
    rewrite Hall in H; [discriminate|].
    apply in_rev. rewrite E. left. reflexivity.
Qed.

(** A search in a text that ends outside a number is not affected by what
    follows the text. *)
Lemma matched_app (n : nat) :
  forall a rest, length a <= n -> ends_clean a ->
    matched digits_re (a ++ rest) = matched digits_re a ++ matched digits_re rest.
Proof.
  induction n as [|n IH]; intros a rest Hn Ha.
  - destruct a; [reflexivity|simpl in Hn; lia].
  - destruct a as [|c t]; [reflexivity|]. simpl in Hn.
    destruct (is_digit c) eqn:Hc.
    + destruct (span_spec is_digit (c :: t)) as (E & Hp & Hq).
      destruct (span is_digit (c :: t)) as [p q] eqn:Es; simpl in *.
      rewrite Hc in Es. destruct (span is_digit t) as [p' q'].
      inversion Es; subst p q. clear Es.
      assert (Hq' : q' <> []).
      { intros ->. rewrite app_nil_r in E. rewrite E in Ha.
        apply ends_clean_digits in Ha; [discriminate|exact Hp]. }
      assert (Lq : length q' <= n).
      { apply (f_equal (@length N)) in E. simpl in E.
        rewrite length_app in E. lia. }
      assert (Cq : ends_clean q').
      { rewrite E in Ha. apply (ends_clean_suffix (c :: p')), Ha. }
      assert (Sq : starts_clean q') by (destruct q'; [contradiction|exact Hq]).
      assert (Sr : starts_clean (q' ++ rest))
        by (destruct q'; [contradiction|exact Hq]).
      pose proof (matched_run (c :: p') (q' ++ rest) ltac:(discriminate) Hp Sr)
        as R1.
      pose proof (matched_run (c :: p') q' ltac:(discriminate) Hp Sq) as R2.
      assert (Et : t = p' ++ q') by (inversion E; reflexivity).
      subst t. cbn [app] in R1, R2 |- *.
      rewrite <- app_assoc, R1, R2, (IH q' rest Lq Cq). reflexivity.
    + unfold matched, matchAll in *. cbn [app matchAll_from].
      rewrite !(digits_re_none c _ Hc).
      rewrite (matchAll_from_values digits_re (t ++ rest) 1 0),
              (matchAll_from_values digits_re t 1 0).
      apply IH; [lia|]. eapply ends_clean_tail, Ha.
Qed.

(** A run of digits between two texts that do not touch it with a digit is
    one token: the parse of the whole is the parse of what precedes it, its
    value if that is between 1 and 100, and the parse of what follows. *)
Lemma parseSelectionResponse_token (a d b : jsstring) :
  ends_clean a -> d <> [] -> Forall (fun c => is_digit c = true) d ->
  starts_clean b ->
  parseSelectionResponse (a ++ d ++ b)
  = parseSelectionResponse a
    ++ (if (0 <? parseInt10 d)%N && (parseInt10 d <=? 100)%N
        then [parseInt10 d] else [])
    ++ parseSelectionResponse b.
Proof.
  intros Ha Hd Hall Hb. unfold parseSelectionResponse.
  change (fun m : nat * jsstring => parseInt10 (snd m))
    with (fun m : nat * jsstring => parseInt10 ((@snd nat jsstring) m)).
  rewrite <- !(map_map snd parseInt10).
  fold (matched digits_re (a ++ d ++ b)) (matched digits_re a)
       (matched digits_re b).
  rewrite (matched_app (length a) a (d ++ b) (le_n _) Ha),
          (matched_run d b Hd Hall Hb).
  rewrite map_app, filter_app. simpl.
  destruct ((0 <? parseInt10 d)%N && (parseInt10 d <=? 100)%N); reflexivity.
Qed.

(** C6, as stated, fails: the parsed list keeps duplicates, and so do the
    files chosen from it. *)
Lemma parseSelectionResponse_keeps_duplicates :
  ~ NoDup (parseSelectionResponse (js "1, 1"))
  /\ select_files [js "a.ts"; js "b.ts"] (Some (js "1, 1"))
     = [js "a.ts"; js "a.ts"].
Proof.
  split; [|reflexivity].
  change (parseSelectionResponse (js "1, 1")) with [1%N; 1%N].
  intros H. inversion H as [|x l Hin _]; subst. apply Hin. left. reflexivity.
Qed.

(** C6, amended. [parseSelectionResponse] returns the values of the digit
    runs of the reply that lie between 1 and 100, in their order and with
    their repetitions: every value it returns is in that range, and every
    maximal run of digits contributes its value, if in range, at its place.
    The pipeline keeps at most 20 files. On the text [I'd pick 2, 5 and 9]
    the result is [2; 5; 9]; a text without digits gives the empty list, and
    whenever the list is empty the pipeline takes the first 10 candidates in
    sort order. *)
Theorem selection_parsing :
  forall (response : jsstring) (sortedFiles : list jsstring)
         (responseText : option jsstring),
    Forall in_selection_range (parseSelectionResponse response)
    /\ (forall a d b,
          response = a ++ d ++ b ->
          ends_clean a -> d <> [] ->
          Forall (fun c => is_digit c = true) d -> starts_clean b ->
          parseSelectionResponse response
          = parseSelectionResponse a
            ++ (if (0 <? parseInt10 d)%N && (parseInt10 d <=? 100)%N
                then [parseInt10 d] else [])
            ++ parseSelectionResponse b)
    /\ parseSelectionResponse (js "I'd pick 2, 5 and 9") = [2; 5; 9]%N
    /\ (Forall (fun c => is_digit c = false) response ->
        parseSelectionResponse response = [])
    /\ length (select_files sortedFiles responseText) <= 20
    /\ (parseSelectionResponse (or_text responseText) = [] ->
        select_files sortedFiles responseText = firstn 10 sortedFiles).
Proof.
  intros response sortedFiles responseText.
  split; [apply parseSelectionResponse_range|].
  split.
  { intros a d b -> Ha Hd Hall Hb.
    apply parseSelectionResponse_token; assumption. }
  split; [reflexivity|].
  split.
  { intros H. unfold parseSelectionResponse, matchAll.
    rewrite (no_digit_no_match response H). reflexivity. }
  split.
  - unfold select_files.
    destruct (firstn 20 _) as [|f fs] eqn:E.
    + rewrite length_firstn. lia.
    + rewrite <- E, length_firstn. lia.
  - intros H. unfold select_files.
    change (match responseText with Some t => t | None => [] end)
      with (or_text responseText).
    rewrite H. reflexivity.
Qed.

Lemma selection_parsing_witness :
  parseSelectionResponse (js "none of them") = []
  /\ select_files [js "a.ts"; js "b.ts"] (Some (js "none of them"))
     = [js "a.ts"; js "b.ts"]
  /\ parseSelectionResponse (js "take 7 or 250")
     = parseSelectionResponse (js "take ") ++ [7%N]
       ++ parseSelectionResponse (js " or 250").
Proof.
  destruct (selection_parsing (js "none of them") [js "a.ts"; js "b.ts"]
              (Some (js "none of them"))) as (_ & _ & _ & Hnone & _ & Hfall).
  assert (H : parseSelectionResponse (js "none of them") = []).
  { apply Hnone. repeat constructor. }
  split; [exact H|]. split; [rewrite (Hfall H); reflexivity|].
  destruct (selection_parsing (js "take 7 or 250") [] None) as (_ & Htoken & _).
  apply (Htoken (js "take ") (js "7") (js " or 250")).
  - reflexivity.
  - reflexivity.
  - discriminate.
  - repeat constructor.
  - reflexivity.
Defined.

(* ===================================================================== *)
(** ** The budgeted read *)
(* ===================================================================== *)

Section BudgetedRead.

Local Open Scope Z_scope.

Lemma estimateTokens_nonneg (s : jsstring) : 0 <= estimateTokens s.
Proof. unfold estimateTokens. apply Z.div_pos; lia. Qed.

(** A content that costs more than the [r] tokens left, cut to [4 * r] code
    units, costs exactly [r]. *)
Lemma estimateTokens_truncated (s : jsstring) (r : Z) :
  0 <= r -> r < estimateTokens s ->
  estimateTokens (substring0 (Z.to_nat (Z.max 0 (r * 4))) s) = r.
Proof.
  unfold estimateTokens, substring0. intros Hr H.
  assert (Hlen : 4 * r < Z.of_nat (length s)).
  { destruct (Z_lt_le_dec (4 * r) (Z.of_nat (length s))) as [L|L]; [exact L|].
    exfalso.
    assert ((Z.of_nat (length s) + 3) / 4 < r + 1)
      by (apply Z.div_lt_upper_bound; lia).
    lia. }
  rewrite length_firstn, Nat.min_l by lia.
  rewrite Z2Nat.id by lia. rewrite Z.max_r by lia.
  replace (r * 4 + 3) with (3 + r * 4) by lia.
  rewrite Z.div_add by lia. reflexivity.
Qed.

Lemma appended_tokens_app (ps qs : list content_part) :
  appended_tokens (ps ++ qs) = appended_tokens ps + appended_tokens qs.
Proof.
  induction ps as [|p ps IH]; simpl; [reflexivity|]. rewrite IH. lia.
Qed.

Lemma truncation_markers_app (ps qs : list content_part) :
  truncation_markers (ps ++ qs)
  = (truncation_markers ps + truncation_markers qs)%nat.
Proof.
  unfold truncation_markers. rewrite filter_app, length_app. reflexivity.
Qed.

Lemma within_budget_initial : within_budget initial_state.
Proof. unfold within_budget, maxTokenBudget; simpl. repeat split; lia. Qed.

Lemma within_budget_note (f : selected_file) (st : read_state) :
  within_budget st -> within_budget (note_read f st).
Proof. intros H. exact H. Qed.

Lemma within_budget_push (f : selected_file) (c : jsstring) (st : read_state) :
  within_budget st ->
  totalTokens st + estimateTokens c <= maxTokenBudget ->
  within_budget (push_content f c false (estimateTokens c) st).
Proof.
  intros (Hb & Ha & Hm) Hfit.
  unfold within_budget, push_content; cbn [contentParts totalTokens].
  pose proof (estimateTokens_nonneg c).
  rewrite appended_tokens_app, truncation_markers_app, Ha, Hm.
  unfold appended_tokens, truncation_markers;
    cbn [fold_right filter cp_truncated cp_content length].
  repeat split; lia.
Qed.

Lemma read_loop_cons (f : selected_file) (rest : list selected_file)
      (st : read_state) :
  sel_aborted f = false ->
  read_loop (f :: rest) st
  = match sel_read f with
    | ReadString c =>
        if totalTokens st + estimateTokens c >? maxTokenBudget then
          push_content f
            (substring0
               (Z.to_nat (Z.max 0 ((maxTokenBudget - totalTokens st) * 4))) c)
            true 0 (note_read f st)
        else read_loop rest
               (push_content f c false (estimateTokens c) (note_read f st))
    | _ => read_loop rest (note_read f st)
    end.
Proof.
  intros Ha. cbn [read_loop]. rewrite Ha.
  destruct (sel_read f); reflexivity.
Qed.

Lemma fits (t e : Z) : t + e <= maxTokenBudget -> (t + e >? maxTokenBudget) = false.
Proof. intros H. rewrite Z.gtb_ltb. apply Z.ltb_ge. exact H. Qed.

Lemma overflows (t e : Z) : maxTokenBudget < t + e -> (t + e >? maxTokenBudget) = true.
Proof. intros H. rewrite Z.gtb_ltb. apply Z.ltb_lt. exact H. Qed.

(** The turn of the loop that meets a file too large for what is left. *)
Lemma read_loop_overflow (f : selected_file) (rest : list selected_file)
      (c : jsstring) (st : read_state) :
  sel_aborted f = false ->
  sel_read f = ReadString c ->
  maxTokenBudget < totalTokens st + estimateTokens c ->
  read_loop (f :: rest) st
  = push_content f
      (substring0 (Z.to_nat (Z.max 0 ((maxTokenBudget - totalTokens st) * 4))) c)
      true 0 (note_read f st).
Proof.
  intros Ha Hr Hover.
  rewrite (read_loop_cons f rest st Ha), Hr, (overflows _ _ Hover).
  reflexivity.
Qed.

Lemma overflow_state (f : selected_file) (c : jsstring) (st : read_state) :
  within_budget st ->
  maxTokenBudget < totalTokens st + estimateTokens c ->
  let st' := push_content f
               (substring0
                  (Z.to_nat (Z.max 0 ((maxTokenBudget - totalTokens st) * 4))) c)
               true 0 (note_read f st) in
  appended_tokens (contentParts st') = maxTokenBudget
  /\ truncation_markers (contentParts st') = 1%nat.
Proof.
  intros (Hb & Ha & Hm) Hover st'. subst st'.
  unfold push_content, note_read; cbn [contentParts].
  rewrite appended_tokens_app, truncation_markers_app, Ha, Hm.
  unfold appended_tokens, truncation_markers;
    cbn [fold_right filter cp_truncated cp_content length].
  rewrite estimateTokens_truncated by lia. split; lia.
Qed.

(** Whatever the files, the loop ends within the budget, with at most one
    truncation marker; it has read a prefix of the files, in order. *)
Lemma read_loop_bounds (files : list selected_file) :
  forall st, within_budget st ->
    appended_tokens (contentParts (read_loop files st)) <= maxTokenBudget
    /\ (truncation_markers (contentParts (read_loop files st)) <= 1)%nat
    /\ exists k, filesRead (read_loop files st)
                 = filesRead st ++ map sel_path (firstn k files).
Proof.
  induction files as [|f rest IH]; intros st Hst.
  - simpl. destruct Hst as (Hb & Ha & Hm). rewrite Ha, Hm.
    repeat split; try lia. exists 0%nat. simpl. symmetry. apply app_nil_r.
  - assert (Hnext : forall st1, within_budget st1 ->
                filesRead st1 = filesRead st ++ [sel_path f] ->
                appended_tokens (contentParts (read_loop rest st1)) <= maxTokenBudget
                /\ (truncation_markers (contentParts (read_loop rest st1)) <= 1)%nat
                /\ exists k, filesRead (read_loop rest st1)
                             = filesRead st ++ map sel_path (firstn k (f :: rest))).
    { intros st1 H1 Hreads. destruct (IH st1 H1) as (A & B & k & C).
      repeat split; [exact A|exact B|]. exists (S k). simpl.
      rewrite C, Hreads, <- app_assoc. reflexivity. }
    destruct (sel_aborted f) eqn:Ha.
    + cbn [read_loop]. rewrite Ha. destruct Hst as (Hb & Hap & Hm).
      rewrite Hap, Hm.
      repeat split; try lia. exists 0%nat. simpl. symmetry. apply app_nil_r.
    + destruct (sel_read f) as [c| |] eqn:Hr.
      * destruct (Z_lt_le_dec maxTokenBudget (totalTokens st + estimateTokens c))
          as [Hover|Hfit].
        -- rewrite (read_loop_overflow f rest c st Ha Hr Hover).
           destruct (overflow_state f c st Hst Hover) as (A & B).
           rewrite A, B. repeat split; try lia.
           exists 1%nat. reflexivity.
        -- rewrite (read_loop_cons f rest st Ha), Hr, (fits _ _ Hfit).
           apply Hnext; [|reflexivity].
           apply within_budget_push; assumption.
      * rewrite (read_loop_cons f rest st Ha), Hr.
        apply Hnext; [exact Hst|reflexivity].
      * rewrite (read_loop_cons f rest st Ha), Hr.
        apply Hnext; [exact Hst|reflexivity].
Qed.


End BudgetedRead.

Lemma no_marker_no_truncation (ps : list content_part) :
  truncation_markers ps = 0 <-> Forall (fun p => cp_truncated p = false) ps.
Proof.
  unfold truncation_markers. induction ps as [|p ps IH]; simpl.
  - split; [constructor | reflexivity].
  - destruct (cp_truncated p) eqn:E; simpl.
    + split; [discriminate|]. intros H. inversion H; congruence.
    + rewrite IH. split.
      * intros H. constructor; assumption.
      * intros H. inversion H; assumption.
Qed.

Lemma read_loop_final (files : list selected_file) :
  forall st,
    within_budget st ->
    processedFilesRelativePaths st = map cp_path (contentParts st) ->
    let st' := read_loop files st in
    processedFilesRelativePaths st' = map cp_path (contentParts st')
    /\ (within_budget st'
        \/ exists st0 part,
             within_budget st0
             /\ contentParts st' = contentParts st0 ++ [part]
             /\ cp_truncated part = true
             /\ totalTokens st' = totalTokens st0).
Proof.
  induction files as [|f rest IH]; intros st Hw Hp; cbv zeta.
  - split; [exact Hp | left; exact Hw].
  - destruct (sel_aborted f) eqn:Ea.
    + cbn [read_loop]. rewrite Ea. split; [exact Hp | left; exact Hw].
    + rewrite read_loop_cons by exact Ea.
      pose proof (within_budget_note f st Hw) as Hwn.
      destruct (sel_read f) as [c| |].
      * destruct (totalTokens st + estimateTokens c >? maxTokenBudget)%Z eqn:G.
        -- cbn [push_content note_read contentParts
                processedFilesRelativePaths totalTokens].
           split.
           ++ rewrite map_app, Hp. reflexivity.
           ++ right. eexists (note_read f st), _.
              split; [exact Hwn|]. cbn [note_read contentParts totalTokens].
              split; [reflexivity|]. split; [reflexivity|].
              apply Z.add_0_r.
        -- apply IH.
           ++ apply within_budget_push; [exact Hwn|].
              cbn [note_read totalTokens].
              rewrite Z.gtb_ltb in G. apply Z.ltb_ge in G. exact G.
           ++ cbn [push_content note_read contentParts
                   processedFilesRelativePaths].
              rewrite map_app, Hp. reflexivity.
      * apply IH; [exact Hwn | exact Hp].
      * apply IH; [exact Hwn | exact Hp].
Qed.





(** The same bound for the whole of stages 3 and 4, whatever the reply of
    the model and whatever the environment answers. *)
Corollary smart_selection_within_budget (env : environment)
          (sortedFiles : list jsstring) (responseText : option jsstring) :
  (appended_tokens (contentParts (smart_selection_read env sortedFiles responseText))
   <= maxTokenBudget)%Z
  /\ truncation_markers
       (contentParts (smart_selection_read env sortedFiles responseText)) <= 1
  /\ length (select_files sortedFiles responseText) <= 20.
Proof.
  unfold smart_selection_read.
  destruct (read_loop_bounds (observe env (select_files sortedFiles responseText))
              initial_state within_budget_initial) as (A & B & _).
  split; [exact A|]. split; [exact B|].
  unfold select_files.
  destruct (firstn 20 _) as [|f fs] eqn:E.
  - rewrite length_firstn. lia.
  - rewrite <- E, length_firstn. lia.
Qed.

(* ===================================================================== *)
(** ** Joined texts *)
(* ===================================================================== *)

Lemma jsstring_eqb_eq (a b : jsstring) : jsstring_eqb a b = true <-> a = b.
Proof.
  revert b; induction a as [|x a IH]; intros [|y b]; simpl.
  - split; reflexivity.
  - split; discriminate.
  - split; discriminate.
  - rewrite andb_true_iff, N.eqb_eq, IH. split.
    + intros [-> ->]. reflexivity.
    + intros H. injection H as -> ->. split; reflexivity.
Qed.

Lemma jsstring_eqb_refl (a : jsstring) : jsstring_eqb a a = true.
Proof. apply jsstring_eqb_eq. reflexivity. Qed.

Lemma join_cons (sep x : jsstring) (l : list jsstring) :
  l <> [] -> join sep (x :: l) = x ++ sep ++ join sep l.
Proof. destruct l; [congruence | reflexivity]. Qed.

Lemma join_app (sep : jsstring) (l1 l2 : list jsstring) :
  l1 <> [] -> l2 <> [] ->
  join sep (l1 ++ l2) = join sep l1 ++ sep ++ join sep l2.
Proof.
  intros H1 H2. induction l1 as [|x l1 IH]; [congruence|].
  destruct l1 as [|y l1].
  - simpl app. rewrite join_cons by assumption. reflexivity.
  - change ((x :: y :: l1) ++ l2) with (x :: (y :: l1) ++ l2).
    rewrite join_cons by discriminate.
    rewrite IH by discriminate.
    rewrite (join_cons sep x (y :: l1)) by discriminate.
    rewrite <- !app_assoc. reflexivity.
Qed.

Lemma join_nonempty (sep : jsstring) (l : list jsstring) :
  Forall (fun x => nonempty x = true) l ->
  nonempty (join sep l) = match l with [] => false | _ => true end.
Proof.
  intros H. destruct l as [|x l]; [reflexivity|].
  inversion H as [|? ? Hx Hl]; subst.
  destruct x as [|c x]; [discriminate|].
  destruct l; reflexivity.
Qed.

Lemma filter_nonempty_all (l : list jsstring) :
  Forall (fun x => nonempty x = true) (filter nonempty l).
Proof. apply Forall_forall. intros x H. apply filter_In in H. tauto. Qed.

Lemma nonempty_false (s : jsstring) : nonempty s = false <-> s = [].
Proof. destruct s; simpl; split; congruence. Qed.

Lemma nonempty_true (s : jsstring) : nonempty s = true <-> s <> [].
Proof. destruct s; simpl; split; congruence. Qed.

(** X1. The text of a part list composes: the text of two lists put
    together is the two texts with one space between them, and a list
    whose parts all render empty leaves no trace, not even a space. The
    text is empty exactly when every part renders empty. *)
Theorem extractTextFromParts_app :
  forall (ps qs : list req_part),
    extractTextFromParts (ps ++ qs)
    = (if nonempty (extractTextFromParts ps)
       then if nonempty (extractTextFromParts qs)
            then extractTextFromParts ps ++ js " " ++ extractTextFromParts qs
            else extractTextFromParts ps
       else extractTextFromParts qs)
    /\ (extractTextFromParts ps = [] <-> Forall (fun p => part_text p = []) ps).
Proof.
  intros ps qs. unfold extractTextFromParts. split.
  - rewrite map_app, filter_app.
    rewrite !join_nonempty by apply filter_nonempty_all.
    destruct (filter nonempty (map part_text ps)) as [|a l1] eqn:E1.
    + reflexivity.
    + destruct (filter nonempty (map part_text qs)) as [|b l2] eqn:E2.
      * rewrite app_nil_r. reflexivity.
      * apply join_app; congruence.
  - rewrite <- nonempty_false, join_nonempty by apply filter_nonempty_all.
    induction ps as [|p ps IH]; simpl.
    + split; [constructor | reflexivity].
    + destruct (nonempty (part_text p)) eqn:E.
      * split; [discriminate|]. intros H. inversion H as [|? ? Hp _]; subst.
        rewrite Hp in E. discriminate.
      * apply nonempty_false in E. split.
        -- intros H. constructor; [assumption | apply IH; assumption].
        -- intros H. inversion H; subst. apply IH. assumption.
Qed.

(* ===================================================================== *)
(** ** The translated request *)
(* ===================================================================== *)

Lemma content_messages_shape (c : content_union) :
  length (content_messages c) <= 1
  /\ Forall (fun m => (om_role m = js "user"
                       \/ om_role m = js "assistant" /\ om_content m <> []))
            (content_messages c).
Proof.
  destruct c as [s|role parts|]; simpl.
  - split; [lia|]. repeat constructor.
  - destruct (jsstring_eqb role (js "user")).
    + split; [simpl; lia|]. repeat constructor.
    + destruct (jsstring_eqb role (js "model")).
      * destruct (nonempty (extractTextFromParts (or_empty parts))) eqn:E.
        -- split; [simpl; lia|]. constructor; [|constructor].
           right. split; [reflexivity|]. apply nonempty_true. exact E.
        -- split; [simpl; lia | constructor].
      * split; [simpl; lia | constructor].
  - split; [lia | constructor].
Qed.

Lemma flat_map_content_messages (l : list content_union) :
  length (flat_map content_messages l) <= length l
  /\ Forall (fun m => (om_role m = js "user"
                       \/ om_role m = js "assistant" /\ om_content m <> []))
            (flat_map content_messages l).
Proof.
  induction l as [|c l [IH1 IH2]]; simpl.
  - split; [lia | constructor].
  - destruct (content_messages_shape c) as [H1 H2].
    rewrite length_app. split; [lia|].
    apply Forall_app. split; assumption.
Qed.

Lemma system_messages_shape (cfg : option generate_config) :
  system_messages cfg = []
  \/ exists s, s <> []
               /\ system_messages cfg = [ {| om_role := js "system";
                                             om_content := s |} ].
Proof.
  destruct cfg as [c|]; simpl; [|left; reflexivity].
  destruct (gc_systemInstruction c) as [[s|role parts|]|];
    try (left; reflexivity).
  - destruct s as [|x t]; [left; reflexivity|].
    right. exists (x :: t). split; [discriminate | reflexivity].
  - destruct parts as [parts|]; [|left; reflexivity].
    destruct (nonempty (extractTextFromParts parts)) eqn:E;
      [|left; reflexivity].
    right. eexists. split; [|reflexivity]. apply nonempty_true. exact E.
Qed.

Lemma request_messages (request : generate_request) :
  exists messages,
    or_messages (convertToOpenAIRequest request)
    = system_messages (gr_config request) ++ messages
    /\ length messages <= length (contents_of request)
    /\ Forall (fun m => (om_role m = js "user"
                         \/ om_role m = js "assistant" /\ om_content m <> []))
              messages.
Proof.
  unfold convertToOpenAIRequest, contents_of. cbn [or_messages].
  destruct (gr_contents request) as [[c|l]|].
  - destruct c as [s|role parts|].
    + destruct s as [|x t].
      * exists []. split; [reflexivity|]. split; [simpl; lia | constructor].
      * eexists. split; [reflexivity|].
        apply (flat_map_content_messages [CString (x :: t)]).
    + eexists. split; [reflexivity|].
      apply (flat_map_content_messages [CContent role parts]).
    + eexists. split; [reflexivity|].
      apply (flat_map_content_messages [COther]).
  - eexists. split; [reflexivity|]. apply flat_map_content_messages.
  - exists []. split; [reflexivity|]. split; [simpl; lia | constructor].
Qed.

(** X2. The messages of the translated request: every role is system, user
    or assistant; a system message stands only in front, so there is at most
    one; only a user message can have an empty content, because a model
    turn or a system instruction without text is dropped; and there is at
    most one message per element of the contents, besides the system
    message. *)
Theorem request_messages_shape :
  forall (request : generate_request),
    let ms := or_messages (convertToOpenAIRequest request) in
    Forall (fun m => In (om_role m) [js "system"; js "user"; js "assistant"]) ms
    /\ (forall i m, nth_error ms i = Some m -> om_role m = js "system" -> i = 0)
    /\ Forall (fun m => om_content m = [] -> om_role m = js "user") ms
    /\ length ms <= 1 + length (contents_of request).
Proof.
  intros request ms. subst ms.
  destruct (request_messages request) as (messages & -> & Hlen & Hall).
  assert (Hns : forall m, In m messages -> om_role m <> js "system").
  { intros m Hm. rewrite Forall_forall in Hall.
    destruct (Hall m Hm) as [-> | [-> _]]; discriminate. }
  destruct (system_messages_shape (gr_config request))
    as [-> | (s & Hs & ->)]; simpl app.
  - split; [|split; [|split]].
    + eapply Forall_impl; [|exact Hall]. cbv beta.
      intros m [-> | [-> _]]; simpl; auto.
    + intros i m Hi Hr. apply nth_error_In in Hi.
      exfalso. exact (Hns m Hi Hr).
    + eapply Forall_impl; [|exact Hall]. cbv beta.
      intros m [H | [_ H]] E; [assumption | contradiction].
    + lia.
  - split; [|split; [|split]].
    + constructor; [simpl; auto|].
      eapply Forall_impl; [|exact Hall]. cbv beta.
      intros m [-> | [-> _]]; simpl; auto.
    + intros [|i] m Hi Hr; [reflexivity|]. simpl in Hi.
      apply nth_error_In in Hi. exfalso. exact (Hns m Hi Hr).
    + constructor; [simpl; intros E; contradiction|].
      eapply Forall_impl; [|exact Hall]. cbv beta.
      intros m [H | [_ H]] E; [assumption | contradiction].
    + simpl. lia.
Qed.

(** X3. The model and the tools of the translated request: the model is
    never empty, an empty one being replaced by grok-beta; [tool_choice] is
    auto exactly when [tools] is sent, which is exactly when the tool list
    of the configuration is a non-empty array, even one without any
    declaration; the tools sent are the function declarations of the tool
    list, one for one and in order; the request is not a streaming one. *)
Theorem request_tools_and_model :
  forall (request : generate_request),
    let r := convertToOpenAIRequest request in
    let tools := or_empty (config_field (gr_config request) gc_tools) in
    or_model r <> []
    /\ (gr_model request <> [] -> or_model r = gr_model request)
    /\ (gr_model request = [] -> or_model r = js "grok-beta")
    /\ (or_tool_choice r = Some (js "auto") <-> or_tools r <> None)
    /\ (or_tool_choice r = None <-> or_tools r = None)
    /\ (or_tools r <> None <-> tools <> [])
    /\ map ot_name (or_empty (or_tools r)) = declared_names tools
    /\ or_stream r = false.
Proof.
  intros request r tools. subst r tools.
  unfold convertToOpenAIRequest.
  cbn [or_model or_tool_choice or_tools or_stream].
  split; [|split; [|split]].
  - destruct (gr_model request); simpl; discriminate.
  - destruct (gr_model request); simpl; congruence.
  - intros ->. reflexivity.
  - destruct (config_field (gr_config request) gc_tools) as [[|t ts]|];
      cbn [or_empty].
    + repeat split; try congruence; try reflexivity.
    + repeat split; try congruence; try discriminate.
      unfold convertToolsToOpenAIFormat, declared_names.
      generalize (t :: ts). intros l. induction l as [|a l IH];
        [reflexivity|].
      simpl. rewrite map_app, map_map, IH. reflexivity.
    + repeat split; try congruence; try reflexivity.
Qed.

(* ===================================================================== *)
(** ** How the non-streaming normalizer ends *)
(* ===================================================================== *)

Lemma native_calls_outcome (l : list tool_call) :
  forall x,
    if forallb arguments_parse l
    then exists x', native_calls l x = Returned x'
    else native_calls l x = Threw JsonSyntaxError.
Proof.
  induction l as [|tc l IH]; intros x; simpl.
  - eexists. reflexivity.
  - unfold arguments_parse at 1.
    destruct (jsstring_eqb (tc_type tc) (js "function")); simpl.
    + destruct (JSON_parse _); simpl.
      * apply IH.
      * reflexivity.
    + apply IH.
Qed.

(** X4. When the non-streaming normalizer fails. It throws in two cases
    only: a reply without any choice, with a TypeError, and a structured
    call of the type function whose arguments are not JSON, with the
    SyntaxError of [JSON.parse]. In every other case it returns: a marker
    written in the text never makes it fail, however malformed. *)
Theorem convertToGeminiResponse_failures :
  forall (r : chat_completion),
    (cc_choices r = [] -> convertToGeminiResponse r = Threw UndefinedAccess)
    /\ (forall c rest,
          cc_choices r = c :: rest ->
          forallb arguments_parse (or_empty (m_tool_calls (ch_message c))) = false ->
          convertToGeminiResponse r = Threw JsonSyntaxError)
    /\ (forall c rest,
          cc_choices r = c :: rest ->
          forallb arguments_parse (or_empty (m_tool_calls (ch_message c))) = true ->
          exists resp, convertToGeminiResponse r = Returned resp)
    /\ (forall e, convertToGeminiResponse r = Threw e ->
                  exn_name e = "TypeError"%string
                  \/ exn_name e = "SyntaxError"%string).
Proof.
  intros r.
  assert (Hc : forall c rest, cc_choices r = c :: rest ->
            if forallb arguments_parse (or_empty (m_tool_calls (ch_message c)))
            then exists resp, convertToGeminiResponse r = Returned resp
            else convertToGeminiResponse r = Threw JsonSyntaxError).
  { intros c rest E. unfold convertToGeminiResponse. rewrite E.
    cbv zeta.
    match goal with
    | |- context [native_calls ?l ?x] =>
        pose proof (native_calls_outcome l x) as H;
        destruct (forallb arguments_parse l)
    end.
    - destruct H as [x' ->]. simpl. eexists. reflexivity.
    - rewrite H. reflexivity. }
  split; [|split; [|split]].
  - intros E. unfold convertToGeminiResponse. rewrite E. reflexivity.
  - intros c rest E F. specialize (Hc c rest E). rewrite F in Hc. exact Hc.
  - intros c rest E F. specialize (Hc c rest E). rewrite F in Hc. exact Hc.
  - intros e He. destruct (cc_choices r) as [|c rest] eqn:E.
    + unfold convertToGeminiResponse in He. rewrite E in He.
      injection He as <-. left. reflexivity.
    + specialize (Hc c rest eq_refl).
      destruct (forallb _ _).
      * destruct Hc as [resp Hr]. congruence.
      * rewrite Hc in He. injection He as <-. right. reflexivity.
Qed.

Lemma calls_of_app (ps qs : list part) :
  calls_of (ps ++ qs) = calls_of ps ++ calls_of qs.
Proof. apply flat_map_app. Qed.

Lemma text_parts_app (ps qs : list part) :
  text_parts (ps ++ qs) = text_parts ps ++ text_parts qs.
Proof. apply flat_map_app. Qed.

Lemma thoughts_app (ps qs : list part) :
  thoughts (ps ++ qs) = thoughts ps ++ thoughts qs.
Proof. apply flat_map_app. Qed.

Lemma calls_of_calls (l : list function_call) :
  calls_of (map FunctionCallPart l) = l
  /\ text_parts (map FunctionCallPart l) = []
  /\ thoughts (map FunctionCallPart l) = [].
Proof.
  induction l as [|fc l (IH1 & IH2 & IH3)]; simpl; [auto|].
  unfold calls_of, text_parts, thoughts in *. simpl.
  rewrite IH1, IH2, IH3. auto.
Qed.

Lemma text_part_parts (t : jsstring) :
  calls_of (text_part t) = []
  /\ text_parts (text_part t)
     = map (fun p => match p with Text s => s | _ => [] end) (text_part t)
  /\ thoughts (text_part t) = [].
Proof. unfold text_part. destruct (nonempty t); simpl; auto. Qed.

Lemma calls_field_spec (l : list function_call) :
  or_empty (calls_field l) = l
  /\ (calls_field l = None <-> l = [])
  /\ calls_field l <> Some [].
Proof. destruct l; simpl; repeat split; congruence. Qed.

(** X5. The fields of a response of the non-streaming normalizer agree with
    each other: [functionCalls] lists the calls of the parts in their order
    and is absent, never an empty array, when there is none; the parts hold
    a text part only for a non-empty [text], and then exactly one, equal to
    it; and no part is a thought. *)
Theorem response_fields_agree :
  forall (r : chat_completion) (resp : response),
    convertToGeminiResponse r = Returned resp ->
    fields_agree resp
    /\ r_functionCalls resp <> Some []
    /\ length (text_parts (r_parts resp)) <= 1
    /\ thoughts (r_parts resp) = [].
Proof.
  intros r resp H.
  destruct (cc_choices r) as [|c rest] eqn:E.
  { unfold convertToGeminiResponse in H. rewrite E in H. discriminate. }
  rewrite (convert_first_choice r c rest E), convert_spec in H.
  destruct (native_calls _ _) as [x5|e] eqn:N; [|discriminate].
  simpl in H. injection H as <-.
  destruct (native_calls_keep _ _ _ N) as (Ht & native & Hp & Hcs & _).
  cbn [x_parts x_calls x_text] in Ht, Hp, Hcs.
  unfold fields_agree. cbn [r_parts r_text r_functionCalls].
  destruct (calls_field_spec (x_calls x5)) as (F1 & F2 & F3).
  destruct (calls_of_calls (textual_calls (or_text (m_content (ch_message c)))))
    as (A1 & A2 & A3).
  destruct (calls_of_calls native) as (B1 & B2 & B3).
  destruct (text_part_parts (last_pass_text (m_content (ch_message c))))
    as (T1 & T2 & T3).
  assert (Hcalls : calls_of (x_parts x5) = x_calls x5).
  { rewrite Hp, Hcs, !calls_of_app, A1, B1, T1, app_nil_r. reflexivity. }
  assert (Htexts : text_parts (x_parts x5)
                   = map (fun p => match p with Text s => s | _ => [] end)
                         (text_part (x_text x5))).
  { rewrite Hp, Ht, !text_parts_app, A2, B2, T2, app_nil_r. reflexivity. }
  split; [split; [|split]|split; [|split]].
  - rewrite F1. exact Hcalls.
  - rewrite Hcalls. exact F2.
  - exact Htexts.
  - exact F3.
  - rewrite Htexts. unfold text_part. destruct (nonempty _); simpl; lia.
  - rewrite Hp, !thoughts_app, A3, B3, T3. reflexivity.
Qed.

Lemma response_fields_agree_witness :
  fields_agree
    {| r_parts := [Text (js "All tests pass.")];
       r_finishReason := STOP;
       r_usageMetadata := None;
       r_text := js "All tests pass.";
       r_functionCalls := None |}.
Proof.
  apply (response_fields_agree (text_reply (js "All tests pass."))).
  reflexivity.
Defined.

(* ===================================================================== *)
(** ** The responses of a stream *)
(* ===================================================================== *)

Lemma push_calls_in_step (x : extraction) (l : list function_call) :
  in_step x -> in_step (push_calls x l).
Proof.
  intros [H1 H2]. destruct (push_calls_spec l x) as (P & C & _).
  destruct (calls_of_calls l) as (A1 & A2 & _).
  split.
  - rewrite P, C, calls_of_app, A1, H1. reflexivity.
  - rewrite P, text_parts_app, A2, H2. reflexivity.
Qed.

Lemma stream_block_in_step (content : option jsstring) (acc : jsstring)
      (x : extraction) :
  in_step x -> in_step (snd (stream_block content (acc, x))).
Proof.
  intros H. unfold stream_block.
  destruct (includes acc OPEN_BLOCK && includes acc CLOSE_BLOCK);
    [|exact H].
  cbn [snd]. unfold set_text.
  destruct (push_calls_in_step x (map snd (block_calls "grok_stream_" acc)) H)
    as [P1 P2].
  split; assumption.
Qed.

Lemma stream_tool_in_step (content : option jsstring) (st : jsstring * extraction) :
  in_step (snd st) -> in_step (snd (stream_tool content st)).
Proof.
  destruct st as [acc x]. intros H. unfold stream_tool.
  destruct (includes acc OPEN_TOOL); [|exact H].
  cbn [snd]. unfold set_text.
  destruct (push_calls_in_step x (map snd (tool_calls "grok_mini_stream_" acc)) H)
    as [P1 P2].
  split; assumption.
Qed.

Lemma push_text_fields (x : extraction) :
  in_step x ->
  calls_of (x_parts (push_text x)) = x_calls (push_text x)
  /\ text_parts (x_parts (push_text x))
     = map (fun p => match p with Text s => s | _ => [] end)
           (text_part (x_text (push_text x))).
Proof.
  intros [H1 H2]. unfold push_text, text_part.
  destruct (nonempty (x_text x)) eqn:E; cbn [push_part x_parts x_calls x_text].
  - rewrite calls_of_app, text_parts_app, H1, H2, E. simpl.
    rewrite app_nil_r. auto.
  - rewrite E. auto.
Qed.

Lemma stream_native_calls_keep (l : list stream_tool_call) :
  forall x,
    match stream_native_calls l x with
    | Returned x' =>
        x_text x' = x_text x
        /\ exists native,
             x_parts x' = x_parts x ++ map FunctionCallPart native
             /\ x_calls x' = x_calls x ++ native
    | Threw e => e = JsonSyntaxError
    end.
Proof.
  induction l as [|tc l IH]; intros x; simpl.
  - split; [reflexivity|]. exists []. rewrite !app_nil_r. auto.
  - destruct (stc_function tc) as [f|]; [|apply IH].
    destruct (jsstring_eqb (or_text (stc_type tc)) (js "function"));
      [|apply IH].
    destruct (if given (sf_arguments f)
              then JSON_parse (or_text (sf_arguments f))
              else Some (JObj [])) as [a|]; [|reflexivity].
    match goal with
    | |- context [stream_native_calls l ?y] =>
        specialize (IH y); destruct (stream_native_calls l y) as [x'|e]
    end; [|exact IH].
    destruct IH as (Ht & native & Hp & Hc).
    cbn [push_call x_parts x_calls x_text] in Ht, Hp, Hc.
    split; [exact Ht|].
    eexists (_ :: native). rewrite Hp, Hc, <- !app_assoc. simpl. auto.
Qed.

Lemma stream_chunk_response (acc : jsstring) (c : chunk) :
  match snd (stream_chunk acc c) with
  | Returned (Some resp) =>
      r_parts resp <> [] /\ fields_agree resp /\ r_usageMetadata resp = None
  | Returned None => True
  | Threw e => e = JsonSyntaxError
  end.
Proof.
  unfold stream_chunk. destruct (k_choices c) as [|choice _]; [exact I|].
  cbv zeta.
  set (d := sc_delta choice).
  set (x0 := {| x_parts := []; x_calls := []; x_text := or_text (d_content d) |}).
  set (x1 := if given (d_reasoning_content d) then _ else x0).
  set (acc1 := if given (d_content d)
               then acc ++ or_text (d_content d) else acc).
  assert (H1 : in_step x1).
  { subst x1. destruct (given (d_reasoning_content d)); split; reflexivity. }
  destruct (stream_tool (d_content d) (stream_block (d_content d) (acc1, x1)))
    as [acc3 x3] eqn:E3.
  assert (H3 : in_step x3).
  { change x3 with (snd (acc3, x3)). rewrite <- E3.
    apply stream_tool_in_step, stream_block_in_step, H1. }
  cbn [snd].
  destruct (push_text_fields x3 H3) as [F1 F2].
  pose proof (stream_native_calls_keep (or_empty (d_tool_calls d)) (push_text x3))
    as K.
  destruct (stream_native_calls _ _) as [x5|e]; [|exact K].
  destruct K as (Ht & native & Hp & Hc). simpl.
  destruct (calls_field_spec (x_calls x5)) as (C1 & C2 & _).
  destruct (calls_of_calls native) as (B1 & B2 & _).
  assert (Hcalls : calls_of (x_parts x5) = x_calls x5).
  { rewrite Hp, Hc, calls_of_app, B1, F1. reflexivity. }
  assert (Htexts : text_parts (x_parts x5)
                   = map (fun p => match p with Text s => s | _ => [] end)
                         (text_part (x_text x5))).
  { rewrite Hp, Ht, text_parts_app, B2, F2, app_nil_r. reflexivity. }
  clear Hp. revert Hcalls Htexts.
  destruct (x_parts x5) as [|p ps]; [intros; exact I|].
  intros Hcalls Htexts.
  split; [discriminate|]. split; [|reflexivity].
  unfold fields_agree. cbn [r_parts r_text r_functionCalls].
  split; [|split].
  - rewrite C1. exact Hcalls.
  - rewrite Hcalls. exact C2.
  - exact Htexts.
Qed.

Lemma stream_from_shape (stream : list chunk) :
  forall acc,
    Forall (fun resp => r_parts resp <> [] /\ fields_agree resp
                        /\ r_usageMetadata resp = None)
           (fst (stream_from acc stream))
    /\ length (fst (stream_from acc stream)) <= length stream
    /\ (forall e, snd (stream_from acc stream) = Some e -> e = JsonSyntaxError).
Proof.
  induction stream as [|c rest IH]; intros acc; simpl.
  - split; [constructor|]. split; [lia | discriminate].
  - pose proof (stream_chunk_response acc c) as H.
    destruct (stream_chunk acc c) as [acc' [y|e]]; cbn [snd] in H.
    + specialize (IH acc'). destruct (stream_from acc' rest) as [ys e'].
      cbn [fst snd] in *. destruct IH as (I1 & I2 & I3).
      destruct y as [resp|].
      * split; [constructor; assumption|]. split; [simpl; lia | exact I3].
      * split; [assumption|]. split; [lia | exact I3].
    + simpl. split; [constructor|]. split; [lia|].
      intros e0 E. congruence.
Qed.

(** X6. What a stream yields, for an iterable that may itself end with an
    error: at most one response per chunk delivered; every response holds
    at least one part, its fields agree as in the non-streaming normalizer
    ([functionCalls] lists the call parts, the text part is the non-empty
    [text]) and it carries no usage. A failure that ends the generator is
    either the SyntaxError of [JSON.parse] on the arguments of a structured
    call, or the error of the iterable, passed on as it is; the responses
    of the chunks before it have been yielded; and an iterable that ends
    normally is drained like the list of its chunks. *)
Theorem stream_responses_shape :
  forall (s : chunk_stream),
    let out := drain s in
    Forall (fun resp => r_parts resp <> [] /\ fields_agree resp
                        /\ r_usageMetadata resp = None) (fst out)
    /\ length (fst out) <= length (delivered s)
    /\ fst out = fst (convertStreamToGeminiFormat (delivered s))
    /\ (forall e, snd out = Some e ->
                  exn_name e = "SyntaxError"%string \/ raised s = Some e)
    /\ (forall e, snd (convertStreamToGeminiFormat (delivered s)) = Some e ->
                  snd out = Some e /\ exn_name e = "SyntaxError"%string)
    /\ (snd (convertStreamToGeminiFormat (delivered s)) = None ->
        snd out = raised s).
Proof.
  intros s out. subst out. unfold drain, convertStreamToGeminiFormat.
  destruct (stream_from_shape (delivered s) []) as (H1 & H2 & H3).
  destruct (stream_from [] (delivered s)) as [ys e]. cbn [fst snd] in *.
  split; [exact H1|]. split; [exact H2|]. split; [reflexivity|].
  split; [|split].
  - intros e' E. destruct e as [failure|].
    + injection E as <-. left. rewrite (H3 failure eq_refl). reflexivity.
    + right. exact E.
  - intros e' E. subst e. split; [reflexivity|].
    rewrite (H3 e' eq_refl). reflexivity.
  - intros ->. reflexivity.
Qed.

(* ===================================================================== *)
(** ** Content without any opening *)
(* ===================================================================== *)

Lemma includes_prefix (a b p : jsstring) :
  includes (a ++ b) p = false -> includes a p = false.
Proof.
  intros H. destruct (includes a p) eqn:E; [|reflexivity].
  apply includes_split in E. destruct E as (x & y & ->).
  rewrite <- !app_assoc in H. rewrite includes_app in H. discriminate.
Qed.

Lemma includes_has (content : option jsstring) (marker : jsstring) :
  includes (or_text content) marker = false -> has content marker = false.
Proof.
  intros H. destruct content as [s|]; [|reflexivity].
  simpl in *. rewrite H. apply andb_false_r.
Qed.

Lemma no_opening_calls (content : option jsstring) (prefix : string) :
  (has content OPEN_BLOCK = false -> block_calls prefix (or_text content) = [])
  /\ (has content OPEN_TOOL = false -> tool_calls prefix (or_text content) = [])
  /\ (has content CALLING = false -> simple_calls prefix (or_text content) = []).
Proof.
  unfold block_calls, tool_calls, simple_calls.
  split; [|split]; intros H.
  - rewrite (no_opening_no_match block_re OPEN_BLOCK content block_re_opening H).
    reflexivity.
  - rewrite (no_opening_no_match tool_re OPEN_TOOL content tool_re_opening H).
    reflexivity.
  - rewrite (no_opening_no_match simple_re CALLING content simple_re_opening H).
    reflexivity.
Qed.

Lemma stream_from_plain (pieces : list jsstring) :
  forall acc,
    includes (acc ++ concat pieces) OPEN_BLOCK = false ->
    includes (acc ++ concat pieces) OPEN_TOOL = false ->
    flat_map r_parts (fst (stream_from acc (map content_chunk pieces)))
    = map Text (filter nonempty pieces)
    /\ snd (stream_from acc (map content_chunk pieces)) = None.
Proof.
  induction pieces as [|p pieces IH]; intros acc Hb Ht; [split; reflexivity|].
  cbn [map concat] in *. rewrite app_assoc in Hb, Ht.
  pose proof (includes_prefix _ _ _ Hb) as Hb1.
  pose proof (includes_prefix _ _ _ Ht) as Ht1.
  cbn [stream_from].
  assert (E : stream_chunk acc (content_chunk p)
              = (acc ++ p,
                 Returned (if nonempty p
                           then Some {| r_parts := [Text p];
                                        r_finishReason := OTHER;
                                        r_usageMetadata := None;
                                        r_text := p;
                                        r_functionCalls := None |}
                           else None))).
  { unfold stream_chunk, content_chunk. cbn [k_choices sc_delta d_content
      d_reasoning_content d_tool_calls sc_finish_reason or_text or_empty].
    unfold given. cbn [or_text nonempty].
    replace (if nonempty p then acc ++ p else acc) with (acc ++ p)
      by (destruct p; [rewrite app_nil_r|]; reflexivity).
    unfold stream_block. rewrite Hb1. cbn [andb].
    unfold stream_tool. rewrite Ht1.
    unfold push_text. cbn [x_text].
    destruct (nonempty p); reflexivity. }
  rewrite E. specialize (IH (acc ++ p) Hb Ht).
  destruct (stream_from (acc ++ p) (map content_chunk pieces)) as [ys e].
  cbn [fst snd] in *. destruct IH as [IH1 IH2].
  split; [|exact IH2].
  cbn [filter]. destruct (nonempty p); [|exact IH1].
  cbn [flat_map r_parts map app]. rewrite IH1. reflexivity.
Qed.

Lemma texts_of_texts (l : list jsstring) :
  texts_of (map Text (filter nonempty l)) = concat l
  /\ call_count (map Text (filter nonempty l)) = 0.
Proof.
  induction l as [|s l [IH1 IH2]]; [split; reflexivity|].
  cbn [filter concat]. destruct s as [|c s]; cbn [nonempty].
  - split; assumption.
  - unfold texts_of, call_count in *. cbn [map flat_map filter].
    rewrite IH1. split; [reflexivity | exact IH2].
Qed.

(** X7. For a content with none of the three openings, streaming and the
    non-streaming normalizer agree, however the content is cut into pieces:
    the stream yields the non-empty pieces as text parts, one response
    each, without failing; the text parts of both concatenate to the
    content and neither holds a call. *)
Theorem plain_stream_is_equivalent :
  forall (pieces : list jsstring),
    includes (concat pieces) OPEN_BLOCK = false ->
    includes (concat pieces) OPEN_TOOL = false ->
    includes (concat pieces) CALLING = false ->
    streamed_parts pieces = map Text (filter nonempty pieces)
    /\ snd (convertStreamToGeminiFormat (map content_chunk pieces)) = None
    /\ texts_of (streamed_parts pieces) = concat pieces
    /\ streaming_equivalent pieces.
Proof.
  intros pieces Hb Ht Hs.
  destruct (stream_from_plain pieces [] Hb Ht) as [S1 S2].
  destruct (texts_of_texts pieces) as [T1 T2].
  assert (W : whole_parts pieces = text_part (concat pieces)).
  { unfold whole_parts, text_reply. rewrite convert_spec.
    pose proof (includes_has (@Some jsstring (concat pieces)) _ Hb) as Hb'.
    pose proof (includes_has (@Some jsstring (concat pieces)) _ Ht) as Ht'.
    pose proof (includes_has (@Some jsstring (concat pieces)) _ Hs) as Hs'.
    unfold textual_calls, last_pass_text. rewrite Hb', Ht', Hs'.
    destruct (no_opening_calls (@Some jsstring (concat pieces)) "grok_") as (B & _ & _).
    destruct (no_opening_calls (@Some jsstring (concat pieces)) "grok_mini_") as (_ & T & _).
    destruct (no_opening_calls (@Some jsstring (concat pieces)) "grok_simple_") as (_ & _ & S).
    rewrite (B Hb'), (T Ht'), (S Hs'). simpl.
    destruct (text_part (concat pieces)); reflexivity. }
  unfold streaming_equivalent, streamed_parts, convertStreamToGeminiFormat.
  rewrite S1, W, T1, T2.
  split; [reflexivity|]. split; [exact S2|]. split; [reflexivity|].
  unfold text_part. destruct (concat pieces) as [|c s]; simpl.
  - split; reflexivity.
  - unfold texts_of, call_count. simpl. rewrite app_nil_r. split; reflexivity.
Qed.

Lemma plain_stream_is_equivalent_witness :
  streamed_parts [js "All tests"; js ""; js " pass."]
  = [Text (js "All tests"); Text (js " pass.")]
  /\ streaming_equivalent [js "All tests"; js ""; js " pass."].
Proof.
  pose proof (plain_stream_is_equivalent
                [js "All tests"; js ""; js " pass."]
                eq_refl eq_refl eq_refl) as H.
  split; [exact (proj1 H) | exact (proj2 (proj2 (proj2 H)))].
Defined.

(* ===================================================================== *)
(** ** Texts that are one marker *)
(* ===================================================================== *)

Lemma matchAll_from_short {A} (m : matcher A) (s : jsstring) :
  forall idx skip, length s <= skip -> matchAll_from m idx skip s = [].
Proof.
  induction s as [|c t IH]; intros idx skip H; [reflexivity|].
  destruct skip as [|k]; simpl in *; [lia|]. apply IH. lia.
Qed.

Lemma remove_from_short {A} (m : matcher A) (s : jsstring) :
  forall skip, length s <= skip -> remove_from m skip s = [].
Proof.
  induction s as [|c t IH]; intros skip H; [reflexivity|].
  destruct skip as [|k]; simpl in *; [lia|]. apply IH. lia.
Qed.

Lemma matchAll_whole {A} (m : matcher A) (s : jsstring) (a : A) :
  s <> [] -> m s = Some (a, length s) ->
  matchAll m s = [(0, a)] /\ removeAll m s = [].
Proof.
  intros Hs H. destruct s as [|c t]; [congruence|].
  unfold matchAll, removeAll. cbn [matchAll_from remove_from]. rewrite H.
  cbn [length pred].
  rewrite matchAll_from_short, remove_from_short by lia. auto.
Qed.

Lemma span_run (f : N -> bool) (d rest : jsstring) :
  Forall (fun c => f c = true) d ->
  match rest with [] => True | c :: _ => f c = false end ->
  span f (d ++ rest) = (d, rest).
Proof.
  intros Hd Hr. rewrite span_app_class by assumption.
  rewrite span_stop by assumption. cbn [fst snd]. rewrite app_nil_r.
  reflexivity.
Qed.

Lemma span1_run (f : N -> bool) (d rest : jsstring) :
  d <> [] -> Forall (fun c => f c = true) d ->
  match rest with [] => True | c :: _ => f c = false end ->
  span1 f (d ++ rest) = Some (d, rest).
Proof.
  intros Hn Hd Hr. unfold span1. rewrite span_run by assumption.
  destruct d; [congruence | reflexivity].
Qed.

Lemma span1_all (f : N -> bool) (d : jsstring) :
  d <> [] -> Forall (fun c => f c = true) d -> span1 f d = Some (d, []).
Proof.
  intros Hn Hd. pose proof (span1_run f d [] Hn Hd I) as H.
  rewrite app_nil_r in H. exact H.
Qed.

Lemma includes_head (h : N) (p s : jsstring) :
  ~ In h s -> includes s (h :: p) = false.
Proof.
  induction s as [|c t IH]; intros H; [reflexivity|].
  cbn [includes strip_prefix].
  destruct (h =? c)%N eqn:E.
  - apply N.eqb_eq in E. subst c. exfalso. apply H. left. reflexivity.
  - apply IH. intros Hin. apply H. right. exact Hin.
Qed.

Lemma word_classes (c : N) :
  is_word c = true ->
  is_space c = false /\ is_quote c = false /\ c <> 91%N /\ c <> 93%N.
Proof.
  intros H. unfold is_word, is_digit, in_range in H.
  unfold is_space, is_quote, in_range.
  repeat rewrite ?orb_true_iff, ?andb_true_iff, ?N.leb_le, ?N.eqb_eq in H.
  repeat rewrite ?orb_false_iff, ?andb_false_iff, ?N.leb_gt, ?N.eqb_neq.
  lia.
Qed.

Lemma no_bracket_in_words (name : jsstring) :
  Forall (fun c => is_word c = true) name -> ~ In 91%N name.
Proof.
  intros H Hin. rewrite Forall_forall in H.
  destruct (word_classes _ (H _ Hin)) as (_ & _ & E & _). congruence.
Qed.

Lemma simple_re_whole (name : jsstring) :
  name <> [] -> Forall (fun c => is_word c = true) name ->
  simple_re (CALLING ++ name) = Some (name, length (CALLING ++ name))
  /\ simple_strip_re (CALLING ++ name) = Some (tt, length (CALLING ++ name)).
Proof.
  intros Hn Hw. unfold simple_re, simple_strip_re.
  rewrite (span_stop is_space (CALLING ++ name)) by reflexivity.
  rewrite strip_prefix_app, span1_all by assumption.
  cbn [span length]. rewrite Nat.sub_0_r. auto.
Qed.

(** X8. A call of the history comes back as a call. The request conversion
    renders a function call of a past turn as the words Calling function
    and its name; when the model answers with exactly that text, the
    non-streaming normalizer reads it as one call of that name with no
    arguments and leaves no visible text. *)
Theorem echoed_call_is_recognized :
  forall (name : jsstring) (finish : option jsstring) (u : option usage),
    name <> [] ->
    Forall (fun c => is_word c = true) name ->
    extractTextFromParts [call_part name] = CALLING ++ name
    /\ convertToGeminiResponse
         (reply_with (Some (extractTextFromParts [call_part name])) None finish u)
       = Returned {| r_parts := [FunctionCallPart (simple_call name)];
                     r_finishReason := finish_of finish;
                     r_usageMetadata := u;
                     r_text := [];
                     r_functionCalls := Some [simple_call name] |}.
Proof.
  intros name finish u Hn Hw.
  assert (E0 : extractTextFromParts [call_part name] = CALLING ++ name)
    by reflexivity.
  split; [exact E0|]. rewrite E0, convert_spec.
  set (content := @Some jsstring (CALLING ++ name)).
  assert (Hnb : ~ In 91%N (CALLING ++ name)).
  { intros Hin. apply in_app_or in Hin. destruct Hin as [Hin | Hin].
    - vm_compute in Hin. intuition discriminate.
    - exact (no_bracket_in_words name Hw Hin). }
  assert (Hb : has content OPEN_BLOCK = false)
    by (apply includes_has, (includes_head 91%N), Hnb).
  assert (Ht : has content OPEN_TOOL = false)
    by (apply includes_has, (includes_head 91%N), Hnb).
  assert (Hs : has content CALLING = true).
  { pose proof (includes_app [] CALLING name) as H.
    change ([] ++ CALLING ++ name) with (CALLING ++ name) in H.
    unfold has, content. rewrite H. reflexivity. }
  destruct (simple_re_whole name Hn Hw) as [R1 R2].
  assert (Hne : CALLING ++ name <> []) by discriminate.
  destruct (matchAll_whole simple_re _ _ Hne R1) as [M1 _].
  destruct (matchAll_whole simple_strip_re _ _ Hne R2) as [_ M2].
  destruct (no_opening_calls content "grok_") as (B & _ & _).
  destruct (no_opening_calls content "grok_mini_") as (_ & T & _).
  unfold textual_calls, last_pass_text.
  rewrite (B Hb), (T Ht), Hs. unfold simple_calls.
  change (or_text content) with (CALLING ++ name).
  rewrite M1, M2. reflexivity.
Qed.

Lemma echoed_call_is_recognized_witness :
  convertToGeminiResponse (text_reply (js "Calling function read_file"))
  = Returned {| r_parts := [FunctionCallPart (simple_call (js "read_file"))];
                r_finishReason := STOP;
                r_usageMetadata := None;
                r_text := [];
                r_functionCalls := Some [simple_call (js "read_file")] |}.
Proof.
  refine (proj2 (echoed_call_is_recognized (js "read_file")
                   (Some (js "stop")) None _ _)).
  - discriminate.
  - apply Forall_forall, forallb_forall. vm_compute. reflexivity.
Defined.

Lemma inline_body_no_bracket (fn param : jsstring) (q : N) (value : jsstring)
      (q' : N) :
  Forall (fun c => is_word c = true) fn ->
  Forall (fun c => is_word c = true) param ->
  Forall (fun c => not_rbracket c = true) value ->
  is_quote q = true -> is_quote q' = true ->
  Forall (fun c => not_rbracket c = true) (inline_body fn param q value q').
Proof.
  intros Hf Hp Hv Hq Hq'.
  assert (W : forall l, Forall (fun c => is_word c = true) l ->
                        Forall (fun c => not_rbracket c = true) l).
  { intros l H. eapply Forall_impl; [|exact H]. cbv beta. intros c Hc.
    destruct (word_classes c Hc) as (_ & _ & _ & E).
    unfold not_rbracket. apply negb_true_iff, N.eqb_neq. exact E. }
  assert (Q : forall c, is_quote c = true -> not_rbracket c = true).
  { intros c Hc. unfold is_quote in Hc. unfold not_rbracket.
    apply negb_true_iff, N.eqb_neq.
    rewrite orb_true_iff, !N.eqb_eq in Hc. lia. }
  unfold inline_body.
  apply Forall_app; split; [repeat constructor|].
  apply Forall_app; split; [apply W; assumption|].
  apply Forall_app; split; [repeat constructor|].
  apply Forall_app; split; [apply W; assumption|].
  apply Forall_app; split; [repeat constructor|].
  apply Forall_app; split; [repeat constructor; apply Q; assumption|].
  apply Forall_app; split; [assumption|].
  repeat constructor. apply Q. assumption.
Qed.

Lemma inline_marker_matches (fn param : jsstring) (q : N) (value : jsstring)
      (q' : N) :
  fn <> [] -> Forall (fun c => is_word c = true) fn ->
  param <> [] -> Forall (fun c => is_word c = true) param ->
  value <> [] -> Forall (fun c => not_quote c = true) value ->
  Forall (fun c => not_rbracket c = true) value ->
  is_quote q = true -> is_quote q' = true ->
  let s := inline_marker fn param q value q' in
  tool_re s = Some ((fn, param, value), length s)
  /\ tool_strip_re s = Some (tt, length s).
Proof.
  intros Hfn Hf Hpn Hp Hvn Hv Hvb Hq Hq' s. subst s.
  assert (Sq : forall c, is_quote c = true -> is_space c = false
                                              /\ not_quote c = false).
  { intros c Hc. unfold not_quote. rewrite Hc. split; [|reflexivity].
    unfold is_quote in Hc. rewrite orb_true_iff, !N.eqb_eq in Hc.
    destruct Hc as [-> | ->]; reflexivity. }
  assert (Hd : forall l rest, l <> [] -> Forall (fun c => is_word c = true) l ->
                 match l ++ rest with
                 | [] => True
                 | c :: _ => is_space c = false
                 end).
  { intros [|c l] rest Hl Hw; [congruence|]. inversion Hw; subst.
    apply word_classes. assumption. }
  split.
  - unfold tool_re, inline_marker, inline_body.
    rewrite strip_prefix_app.
    change (js " for ") with (js " " ++ js "for" ++ js " ").
    rewrite <- !app_assoc.
    rewrite (span_run is_space (js " "));
      [|repeat constructor | apply Hd; assumption].
    rewrite (span1_run is_word fn); [|assumption | assumption | reflexivity].
    rewrite (span1_run is_space (js " "));
      [|discriminate | repeat constructor | reflexivity].
    rewrite strip_prefix_app.
    rewrite (span1_run is_space (js " "));
      [|discriminate | repeat constructor | apply Hd; assumption].
    rewrite (span1_run is_word param); [|assumption | assumption | reflexivity].
    rewrite (span1_run is_space (js " "));
      [|discriminate | repeat constructor | apply (Sq q Hq)].
    cbn [app]. rewrite Hq. cbn [negb].
    rewrite (span1_run not_quote value);
      [|assumption | assumption | apply (Sq q' Hq')].
    rewrite Hq'. cbn [negb]. cbn [expect js map list_ascii_of_string].
    change (N_of_ascii "]" =? 93)%N with true. cbn [length].
    rewrite Nat.sub_0_r. reflexivity.
  - unfold tool_strip_re, inline_marker.
    rewrite (span_stop is_space) by reflexivity.
    rewrite strip_prefix_app.
    rewrite (span1_run not_rbracket (inline_body fn param q value q'));
      [| unfold inline_body; destruct fn; discriminate
       | apply inline_body_no_bracket; assumption
       | reflexivity].
    cbn [expect js map list_ascii_of_string].
    change (N_of_ascii "]" =? 93)%N with true. cbn [span length].
    rewrite Nat.sub_0_r. reflexivity.
Qed.

(** X9. A well-formed inline marker is read as its call. For a function
    name and a parameter name made of word characters and a quoted value
    without quote or closing bracket, the text of the marker alone, when it
    holds neither of the other two openings, yields exactly one call, of
    that function with that parameter set to the value as a string, and no
    visible text. Either quote character may open or close the value. *)
Theorem inline_marker_yields_its_call :
  forall (functionName paramName : jsstring) (q : N) (paramValue : jsstring)
         (q' : N) (finish : option jsstring) (u : option usage),
    functionName <> [] -> Forall (fun c => is_word c = true) functionName ->
    paramName <> [] -> Forall (fun c => is_word c = true) paramName ->
    paramValue <> [] -> Forall (fun c => not_quote c = true) paramValue ->
    Forall (fun c => not_rbracket c = true) paramValue ->
    is_quote q = true -> is_quote q' = true ->
    let text := inline_marker functionName paramName q paramValue q' in
    includes text OPEN_BLOCK = false ->
    includes text CALLING = false ->
    convertToGeminiResponse (reply_with (Some text) None finish u)
    = Returned {| r_parts := [FunctionCallPart
                                (inline_call functionName paramName paramValue)];
                  r_finishReason := finish_of finish;
                  r_usageMetadata := u;
                  r_text := [];
                  r_functionCalls :=
                    Some [inline_call functionName paramName paramValue] |}.
Proof.
  intros fn param q value q' finish u Hfn Hf Hpn Hp Hvn Hv Hvb Hq Hq' text
         Hb Hs.
  destruct (inline_marker_matches fn param q value q'
              Hfn Hf Hpn Hp Hvn Hv Hvb Hq Hq') as [R1 R2].
  fold text in R1, R2.
  assert (Hne : text <> []) by discriminate.
  destruct (matchAll_whole tool_re _ _ Hne R1) as [M1 _].
  destruct (matchAll_whole tool_strip_re _ _ Hne R2) as [_ M2].
  rewrite convert_spec.
  set (content := @Some jsstring text).
  pose proof (includes_has content _ Hb) as Hb'.
  pose proof (includes_has content _ Hs) as Hs'.
  assert (Ht : has content OPEN_TOOL = true).
  { pose proof (includes_app [] OPEN_TOOL
                  (inline_body fn param q value q' ++ js "]")) as H.
    change ([] ++ OPEN_TOOL ++ inline_body fn param q value q' ++ js "]")
      with text in H.
    unfold has, content. rewrite H. reflexivity. }
  destruct (no_opening_calls content "grok_") as (B & _ & _).
  destruct (no_opening_calls content "grok_simple_") as (_ & _ & S).
  unfold textual_calls, last_pass_text.
  rewrite (B Hb'), (S Hs'), Hs', Ht. unfold tool_calls.
  change (or_text content) with text.
  rewrite M1, M2. reflexivity.
Qed.

Lemma inline_marker_yields_its_call_witness :
  convertToGeminiResponse
    (text_reply (js "[tool_call: read_file for path 'src/main.ts']"))
  = Returned {| r_parts := [FunctionCallPart
                              (inline_call (js "read_file") (js "path")
                                           (js "src/main.ts"))];
                r_finishReason := STOP;
                r_usageMetadata := None;
                r_text := [];
                r_functionCalls :=
                  Some [inline_call (js "read_file") (js "path")
                                    (js "src/main.ts")] |}.
Proof.
  refine (inline_marker_yields_its_call
            (js "read_file") (js "path") 39%N (js "src/main.ts") 39%N
            (Some (js "stop")) None _ _ _ _ _ _ _ _ _ _ _);
    try discriminate; try reflexivity;
    apply Forall_forall, forallb_forall; vm_compute; reflexivity.
Defined.

(* ===================================================================== *)
(** ** One block after another *)
(* ===================================================================== *)

Lemma strip_prefix_across (h : N) (p r rest : jsstring) :
  Forall (fun c => c <> h) p -> r <> [] ->
  strip_prefix (h :: p) r = None ->
  strip_prefix (h :: p) (r ++ h :: rest) = None.
Proof.
  intros Hp Hr H. destruct r as [|c r']; [congruence|].
  rewrite <- app_comm_cons. cbn [strip_prefix] in *.
  destruct (h =? c)%N; [|reflexivity].
  rewrite strip_prefix_app_stop by assumption. rewrite H. reflexivity.
Qed.

Lemma bracket_once :
  Forall (fun c => c <> 91%N) (js "function_call]")
  /\ Forall (fun c => c <> 91%N) (js "/function_call]").
Proof.
  split; apply Forall_forall; intros c Hin E; subst c;
    vm_compute in Hin; intuition discriminate.
Qed.

Lemma skipn_app_short (k : nat) (a rest : jsstring) :
  k <= length a -> skipn k (a ++ rest) = skipn k a ++ rest.
Proof.
  intros H. rewrite skipn_app.
  replace (k - length a) with 0 by lia. reflexivity.
Qed.

Lemma no_match_before {A} (m : matcher A) (a rest : jsstring) :
  (forall k, k < length a -> m (skipn k (a ++ rest)) = None) ->
  (forall idx, matchAll_from m idx 0 (a ++ rest)
               = matchAll_from m (idx + length a) 0 rest)
  /\ remove_from m 0 (a ++ rest) = a ++ remove_from m 0 rest.
Proof.
  induction a as [|c a IH]; intros H.
  - split; [intros idx; rewrite Nat.add_0_r|]; reflexivity.
  - assert (H0 : m ((c :: a) ++ rest) = None) by (apply (H 0); simpl; lia).
    destruct IH as [IH1 IH2].
    { intros k Hk. apply (H (S k)). simpl. lia. }
    rewrite <- app_comm_cons in *. split.
    + intros idx. cbn [matchAll_from]. rewrite H0, IH1. f_equal.
      simpl. lia.
    + cbn [remove_from]. rewrite H0, IH2. reflexivity.
Qed.

Lemma remove_from_skip {A} (m : matcher A) (s : jsstring) :
  forall skip, remove_from m skip s = remove_from m 0 (skipn skip s).
Proof.
  induction s as [|c t IH]; intros [|k]; try reflexivity.
  cbn [remove_from skipn]. apply IH.
Qed.

Lemma match_then_rest {A} (m : matcher A) (s : jsstring) (a : A) (n : nat) :
  m s = Some (a, n) -> 0 < n -> s <> [] ->
  map snd (matchAll_from m 0 0 s) = a :: map snd (matchAll_from m 0 0 (skipn n s))
  /\ remove_from m 0 s = remove_from m 0 (skipn n s).
Proof.
  intros H Hn Hs. destruct s as [|c t]; [congruence|].
  cbn [matchAll_from remove_from]. rewrite H.
  destruct n as [|k]; [lia|]. cbn [pred skipn map snd].
  rewrite matchAll_from_skip, remove_from_skip. split; [|reflexivity].
  f_equal. apply matchAll_from_values.
Qed.

Lemma find_sub_here (p s r : jsstring) :
  strip_prefix p s = Some r -> find_sub p s = Some [].
Proof. intros H. destruct s; cbn [find_sub]; rewrite H; reflexivity. Qed.

Lemma find_sub_later (p : jsstring) (c : N) (t : jsstring) :
  strip_prefix p (c :: t) = None ->
  find_sub p (c :: t) = option_map (cons c) (find_sub p t).
Proof. intros H. cbn [find_sub]. rewrite H. reflexivity. Qed.

Lemma find_sub_first (inner post : jsstring) :
  includes inner CLOSE_BLOCK = false ->
  find_sub CLOSE_BLOCK (inner ++ CLOSE_BLOCK ++ post) = Some inner.
Proof.
  induction inner as [|c t IH]; intros H.
  - change ([] ++ CLOSE_BLOCK ++ post) with (CLOSE_BLOCK ++ post).
    apply (find_sub_here _ _ post), strip_prefix_app.
  - cbn [includes] in H.
    destruct (strip_prefix CLOSE_BLOCK (c :: t)) eqn:E; [discriminate|].
    rewrite <- app_comm_cons, find_sub_later, (IH H); [reflexivity|].
    rewrite app_comm_cons.
    change (CLOSE_BLOCK ++ post) with (91%N :: js "/function_call]" ++ post).
    change CLOSE_BLOCK with (91%N :: js "/function_call]") in E |- *.
    apply strip_prefix_across;
      [exact (proj2 bracket_once) | discriminate | exact E].
Qed.

Lemma block_re_first (inner post : jsstring) :
  includes inner CLOSE_BLOCK = false ->
  block_re (OPEN_BLOCK ++ inner ++ CLOSE_BLOCK ++ post)
  = Some (inner, length OPEN_BLOCK + length inner + length CLOSE_BLOCK).
Proof.
  intros H. unfold block_re.
  rewrite strip_prefix_app, (find_sub_first inner post H). reflexivity.
Qed.

Lemma block_calls_values (prefix : string) (s : jsstring) :
  map snd (block_calls prefix s)
  = flat_map (block_call_list prefix) (map snd (matchAll block_re s)).
Proof.
  unfold block_calls, block_call_list.
  induction (matchAll block_re s) as [|[i inner] l IH]; [reflexivity|].
  cbn [flat_map map snd fst]. rewrite map_app, IH.
  destruct (block_call prefix inner); reflexivity.
Qed.

(** X10. Blocks are read one after the other. In a text that continues
    after a first block, the calls are the call of that block, if its text
    is a JSON value other than null, followed by the calls of the text
    after the block, and the cleaned text is the text before the block
    followed by the cleaned text after it: a block that is not JSON yields
    no call, is removed all the same, and changes nothing for the blocks
    that follow. The text before the first block holds no opening and the
    block text no closing marker. *)
Theorem blocks_are_read_in_turn :
  forall (prefix : string) (pre inner post : jsstring),
    includes pre OPEN_BLOCK = false ->
    includes inner CLOSE_BLOCK = false ->
    let s := pre ++ OPEN_BLOCK ++ inner ++ CLOSE_BLOCK ++ post in
    map snd (block_calls prefix s)
    = block_call_list prefix inner ++ map snd (block_calls prefix post)
    /\ removeAll block_re s = pre ++ removeAll block_re post
    /\ (JSON_parse (trim inner) = None -> block_call_list prefix inner = []).
Proof.
  intros prefix pre inner post Hpre Hin s.
  set (blk := OPEN_BLOCK ++ inner ++ CLOSE_BLOCK ++ post) in *.
  assert (Hk : forall k, k < length pre ->
                         block_re (skipn k (pre ++ blk)) = None).
  { intros k Hk. rewrite skipn_app_short by lia.
    apply block_re_opening.
    unfold blk.
    change (OPEN_BLOCK ++ inner ++ CLOSE_BLOCK ++ post)
      with (91%N :: js "function_call]" ++ inner ++ CLOSE_BLOCK ++ post).
    change OPEN_BLOCK with (91%N :: js "function_call]").
    apply strip_prefix_across.
    - exact (proj1 bracket_once).
    - intros E. apply (f_equal (@length N)) in E.
      rewrite length_skipn in E. simpl in E. lia.
    - change (91%N :: js "function_call]") with OPEN_BLOCK.
      apply (includes_false_strip _ _ Hpre). }
  destruct (no_match_before block_re pre blk Hk) as [N1 N2].
  assert (Hlen : skipn (length OPEN_BLOCK + length inner + length CLOSE_BLOCK) blk
                 = post).
  { unfold blk. rewrite !app_assoc.
    rewrite skipn_app, skipn_all2 by (rewrite !length_app; lia).
    rewrite !length_app.
    replace (_ - _) with 0 by lia. reflexivity. }
  destruct (match_then_rest block_re blk inner _ (block_re_first inner post Hin))
    as [M1 M2].
  { simpl. lia. }
  { discriminate. }
  rewrite Hlen in M1, M2.
  split; [|split].
  - rewrite !block_calls_values. unfold matchAll, s.
    rewrite N1.
    rewrite (matchAll_from_values block_re blk (0 + length pre) 0 0), M1.
    reflexivity.
  - unfold removeAll, s. rewrite N2, M2. reflexivity.
  - intros E. unfold block_call_list, block_call. rewrite E. reflexivity.
Qed.

Lemma blocks_are_read_in_turn_witness :
  map snd (block_calls "grok_"
             (jsq "First [function_call]not json[/function_call] then [function_call]{'action':'foo','action_input':{'x':1}}[/function_call]."))
  = [foo_call]
  /\ removeAll block_re
       (jsq "First [function_call]not json[/function_call] then [function_call]{'action':'foo','action_input':{'x':1}}[/function_call].")
     = js "First  then .".
Proof.
  pose proof (blocks_are_read_in_turn "grok_" (js "First ") (js "not json")
                (jsq " then [function_call]{'action':'foo','action_input':{'x':1}}[/function_call].")
                eq_refl eq_refl) as H.
  cbv zeta in H. destruct H as (H1 & H2 & _).
  split.
  - etransitivity; [exact H1|]. vm_compute. reflexivity.
  - etransitivity; [exact H2|]. vm_compute. reflexivity.
Defined.

(* ===================================================================== *)
(** ** White space around the visible text *)
(* ===================================================================== *)

Lemma drop_while_head (f : N -> bool) (s : jsstring) :
  match drop_while f s with
  | [] => True
  | c :: _ => f c = false
  end.
Proof.
  induction s as [|c t IH]; [exact I|]. cbn [drop_while].
  destruct (f c) eqn:E; [exact IH | exact E].
Qed.

Lemma drop_while_suffix (f : N -> bool) (s : jsstring) :
  exists p, s = p ++ drop_while f s.
Proof.
  induction s as [|c t [p IH]]; [exists []; reflexivity|].
  cbn [drop_while]. destruct (f c).
  - exists (c :: p). rewrite <- app_comm_cons, <- IH. reflexivity.
  - exists []. reflexivity.
Qed.

Lemma trim_trimmed (s : jsstring) : trimmed (trim s).
Proof.
  unfold trimmed, trim. split.
  - pose proof (drop_while_head is_space s) as Ha.
    destruct (drop_while_suffix is_space (rev (drop_while is_space s)))
      as [p Hp].
    apply (f_equal (@rev N)) in Hp.
    rewrite rev_involutive, rev_app_distr in Hp.
    rewrite Hp in Ha.
    destruct (rev (drop_while is_space (rev (drop_while is_space s))));
      [exact I | exact Ha].
  - rewrite rev_involutive. apply drop_while_head.
Qed.

(** X11. White space around the visible text. When the content of a reply
    holds the opening of any of the three forms, the visible text of the
    response has no white space at its start or at its end, whatever the
    marker turns out to be; a content without any opening is passed on with
    its white space. *)
Theorem marked_reply_text_is_trimmed :
  forall (content : option jsstring) (calls : option (list tool_call))
         (finish : option jsstring) (u : option usage) (resp : response),
    convertToGeminiResponse (reply_with content calls finish u) = Returned resp ->
    (has content OPEN_BLOCK = true \/ has content OPEN_TOOL = true
     \/ has content CALLING = true ->
     trimmed (r_text resp))
    /\ (has content OPEN_BLOCK = false -> has content OPEN_TOOL = false ->
        has content CALLING = false ->
        r_text resp = or_text content).
Proof.
  intros content calls finish u resp H.
  rewrite convert_spec in H.
  destruct (native_calls _ _) as [x5|e] eqn:N; [|discriminate].
  simpl in H. injection H as <-.
  destruct (native_calls_keep _ _ _ N) as (Ht & _).
  cbn [x_text r_text] in *. rewrite Ht. unfold last_pass_text.
  split.
  - intros Hm.
    destruct (has content CALLING); [apply trim_trimmed|].
    destruct (has content OPEN_TOOL); [apply trim_trimmed|].
    destruct (has content OPEN_BLOCK); [apply trim_trimmed|].
    destruct Hm as [Hm | [Hm | Hm]]; discriminate.
  - intros -> -> ->. reflexivity.
Qed.

Lemma marked_reply_text_is_trimmed_witness :
  trimmed (text_of (convertToGeminiResponse
                      (text_reply (js "  done [tool_call: x]  ")))).
Proof.
  exact (proj1 (marked_reply_text_is_trimmed
                  (Some (js "  done [tool_call: x]  ")) None
                  (Some (js "stop")) None
                  {| r_parts := [Text (js "done")];
                     r_finishReason := STOP;
                     r_usageMetadata := None;
                     r_text := js "done";
                     r_functionCalls := None |}
                  eq_refl)
               (or_intror (or_introl eq_refl))).
Defined.

(* ===================================================================== *)
(** ** Token limits and the use of the smart selection *)
(* ===================================================================== *)

Lemma is_one_of_In (model : jsstring) (names : list string) :
  is_one_of model names = true <-> In model (map js names).
Proof.
  unfold is_one_of. rewrite existsb_exists, in_map_iff. split.
  - intros (name & Hin & E). apply jsstring_eqb_eq in E.
    exists name. split; [symmetry; exact E | exact Hin].
  - intros (name & E & Hin). exists name. split; [exact Hin|].
    apply jsstring_eqb_eq. symmetry. exact E.
Qed.

Lemma tokenLimit_low (model : jsstring) :
  (tokenLimit model <=? 131072)%N = true <-> In model SMART_SELECTION_MODELS.
Proof.
  unfold SMART_SELECTION_MODELS. rewrite <- is_one_of_In.
  unfold tokenLimit.
  destruct (is_one_of model ["gemini-1.5-pro"%string]) eqn:E1.
  { apply is_one_of_In in E1. simpl in E1. destruct E1 as [<- | []].
    split; intros H; vm_compute in H; discriminate. }
  destruct (is_one_of model GEMINI_1M_MODELS) eqn:E2.
  { apply is_one_of_In in E2. simpl in E2.
    repeat (destruct E2 as [<- | E2];
            [split; intros H; vm_compute in H; discriminate|]).
    destruct E2. }
  unfold is_one_of in *. rewrite existsb_app.
  destruct (existsb _ ["gemini-2.0-flash-preview-image-generation"%string])
    eqn:E3.
  { rewrite orb_true_r. split; reflexivity. }
  rewrite orb_false_r.
  destruct (existsb _ GROK_MODELS); split; try reflexivity;
    intros H; vm_compute in H; discriminate.
Qed.

(** X12. When the smart selection is used. It is used exactly when the
    provider is grok, more than twenty files were found, and the model is
    one of the five Grok models of the table of token limits or the one
    Gemini model with a lower limit. A model the table does not list gets
    the default limit of 1,048,576 and is read the standard way, also
    when it is a Grok model. *)
Theorem smart_selection_applies :
  forall (provider model : jsstring) (fileCount : N),
    (shouldUseSmartSelection provider model fileCount = true
     <-> provider = js "grok" /\ (20 < fileCount)%N
         /\ In model SMART_SELECTION_MODELS)
    /\ (~ In model (map js (["gemini-1.5-pro"%string] ++ GEMINI_1M_MODELS))
        /\ ~ In model SMART_SELECTION_MODELS ->
        tokenLimit model = DEFAULT_TOKEN_LIMIT
        /\ shouldUseSmartSelection provider model fileCount = false).
Proof.
  intros provider model fileCount.
  assert (Hiff : shouldUseSmartSelection provider model fileCount = true
                 <-> provider = js "grok" /\ (20 < fileCount)%N
                     /\ In model SMART_SELECTION_MODELS).
  { unfold shouldUseSmartSelection.
    rewrite !andb_true_iff, jsstring_eqb_eq, N.ltb_lt, tokenLimit_low.
    tauto. }
  split; [exact Hiff|].
  intros [H1 H2]. split.
  - unfold SMART_SELECTION_MODELS in H2.
    rewrite map_app, in_app_iff in H1, H2.
    rewrite <- !is_one_of_In in H1, H2.
    unfold tokenLimit.
    destruct (is_one_of model ["gemini-1.5-pro"%string]); [tauto|].
    destruct (is_one_of model GEMINI_1M_MODELS); [tauto|].
    destruct (is_one_of model ["gemini-2.0-flash-preview-image-generation"%string]);
      [tauto|].
    destruct (is_one_of model GROK_MODELS); [tauto | reflexivity].
  - apply not_true_is_false. intros E. apply Hiff in E. tauto.
Qed.

(* ===================================================================== *)
(** ** The parameters of the tool *)
(* ===================================================================== *)

Lemma paths_missing_false (v : value) :
  paths_missing v = false <-> exists item items, v = VArray (item :: items).
Proof.
  destruct v as [|s|[|item items]|t]; simpl; split;
    try discriminate; try (intros (? & ? & ?); discriminate).
  - intros _. eauto.
  - reflexivity.
Qed.

Lemma blank_path_false (items : list value) :
  existsb blank_path items = false
  <-> Forall (fun i => exists s, i = VString s /\ trim s <> []) items.
Proof.
  induction items as [|i items IH]; simpl.
  - split; [constructor | reflexivity].
  - rewrite orb_false_iff, IH. split.
    + intros [H1 H2]. constructor; [|exact H2].
      destruct i as [|s|l|t]; simpl in H1; try discriminate.
      exists s. split; [reflexivity|].
      apply negb_false_iff, nonempty_true in H1. exact H1.
    + intros H. inversion H as [|? ? (s & -> & Hs) H2]; subst.
      split; [|exact H2]. simpl.
      apply negb_false_iff, nonempty_true. exact Hs.
Qed.

Lemma all_strings (items : list value) :
  forallb is_string items = true
  <-> Forall (fun i => exists s, i = VString s) items.
Proof.
  induction items as [|i items IH]; simpl.
  - split; [constructor | reflexivity].
  - rewrite andb_true_iff, IH. split.
    + intros [H1 H2]. constructor; [|exact H2].
      destruct i; try discriminate. eauto.
    + intros H. inversion H as [|? ? (s & ->) H2]; subst. auto.
Qed.

Lemma not_string_array_false (v : value) :
  not_string_array v = false <-> optional_patterns v.
Proof.
  unfold not_string_array, optional_patterns. split.
  - intros H. apply andb_false_iff in H. destruct H as [H | H];
      [left; exact H|].
    destruct v as [|s|items|t]; try discriminate.
    right. exists items. split; [reflexivity|].
    apply all_strings, negb_false_iff. exact H.
  - intros [H | (items & -> & H)].
    + rewrite H. reflexivity.
    + apply all_strings in H. simpl. rewrite H. reflexivity.
Qed.

(** X13. Which parameters the tool accepts. [validateParams] returns null
    exactly when [paths] is a non-empty array of strings none of which is
    blank, the schema accepts the parameters, and [include] and [exclude]
    are each a falsy value or an array of strings. When [paths] is missing,
    not an array or empty, the message is the one about [paths] whatever
    the schema says, and the schema message is given only for parameters
    whose [paths] is a non-empty array. *)
Theorem validateParams_accepts :
  forall (schema_accepts : params -> bool) (p : params),
    (validateParams schema_accepts p = None
     <-> path_list (p_paths p) /\ schema_accepts p = true
         /\ optional_patterns (p_include p) /\ optional_patterns (p_exclude p))
    /\ (validateParams schema_accepts p = Some PATHS_REQUIRED
        <-> ~ exists item items, p_paths p = VArray (item :: items))
    /\ (validateParams schema_accepts p = Some SCHEMA_FAILED
        <-> (exists item items, p_paths p = VArray (item :: items))
            /\ schema_accepts p = false).
Proof.
  intros schema p. unfold validateParams, path_list.
  rewrite <- !not_string_array_false.
  destruct (paths_missing (p_paths p)) eqn:E1.
  { assert (Hno : ~ exists item items, p_paths p = VArray (item :: items)).
    { intros H. apply paths_missing_false in H. congruence. }
    split; [|split].
    - split; [discriminate|]. intros ((item & items & H & _) & _).
      exfalso. apply Hno. eauto.
    - split; [intros _; exact Hno | reflexivity].
    - split; [discriminate|]. intros [H _]. contradiction. }
  pose proof (proj1 (paths_missing_false _) E1) as (item & items & Hp).
  destruct (schema p) eqn:E2; cbn [negb].
  - rewrite Hp. cbn [items_of].
    destruct (existsb blank_path (item :: items)) eqn:E3.
    { split; [|split].
      - split; [discriminate|].
        intros ((item' & items' & Hv & Hf) & _).
        injection Hv as <- <-. apply blank_path_false in Hf. congruence.
      - split; [discriminate|]. intros H. exfalso. apply H. eauto.
      - split; [discriminate|]. intros [_ H]. discriminate. }
    apply blank_path_false in E3.
    destruct (not_string_array (p_include p)) eqn:E4.
    { split; [|split].
      - split; [discriminate|]. intros (_ & _ & H & _). discriminate.
      - split; [discriminate|]. intros H. exfalso. apply H. eauto.
      - split; [discriminate|]. intros [_ H]. discriminate. }
    destruct (not_string_array (p_exclude p)) eqn:E5.
    { split; [|split].
      - split; [discriminate|]. intros (_ & _ & _ & H). discriminate.
      - split; [discriminate|]. intros H. exfalso. apply H. eauto.
      - split; [discriminate|]. intros [_ H]. discriminate. }
    split; [|split].
    + split; [|reflexivity]. intros _. repeat split. eauto.
    + split; [discriminate|]. intros H. exfalso. apply H. eauto.
    + split; [discriminate|]. intros [_ H]. discriminate.
  - split; [|split].
    + split; [discriminate|]. intros (_ & H & _). discriminate.
    + split; [discriminate|]. intros H. exfalso. apply H. eauto.
    + split; [|reflexivity]. intros _. split; [eauto | reflexivity].
Qed.

(* ===================================================================== *)
(** ** The files the tool considers *)
(* ===================================================================== *)

Lemma array_includes_In (l : list jsstring) (x : jsstring) :
  array_includes l x = true <-> In x l.
Proof.
  unfold array_includes. rewrite existsb_exists. split.
  - intros (y & Hin & E). apply jsstring_eqb_eq in E. subst y. exact Hin.
  - intros H. exists x. split; [exact H | apply jsstring_eqb_refl].
Qed.

Lemma set_add_spec (x : jsstring) (l : list jsstring) :
  (forall f, In f (set_add x l) <-> f = x \/ In f l)
  /\ (NoDup l -> NoDup (set_add x l)).
Proof.
  unfold set_add. destruct (array_includes l x) eqn:E.
  - apply array_includes_In in E. split; [|auto].
    intros f. split; [auto|]. intros [-> | H]; assumption.
  - assert (Hn : ~ In x l).
    { intros H. apply array_includes_In in H. congruence. }
    split.
    + intros f. rewrite in_app_iff. simpl. intuition.
    + intros H. apply NoDup_app; [exact H | repeat constructor; auto |].
      intros a Ha [<- | []]. contradiction.
Qed.

Lemma classify_spec (toolBaseDir : jsstring) (respectGitIgnore : bool)
      (filteredEntries entries : list jsstring) :
  forall d,
    let d' := classify toolBaseDir respectGitIgnore filteredEntries entries d in
    (forall f, In f (filesToConsider d')
               <-> In f (filesToConsider d)
                   \/ In f entries
                      /\ passes toolBaseDir respectGitIgnore filteredEntries f)
    /\ (NoDup (filesToConsider d) -> NoDup (filesToConsider d')).
Proof.
  unfold passes.
  induction entries as [|e entries IH]; intros d; cbn [classify].
  - split; [|auto]. intros f. simpl. tauto.
  - match goal with
    | |- context [classify _ _ _ entries ?x] => specialize (IH x); set (d1 := x) in *
    end.
    cbv zeta in IH. destruct IH as [IH1 IH2].
    assert (Hd1 : (forall f, In f (filesToConsider d1)
                             <-> In f (filesToConsider d)
                                 \/ f = e
                                    /\ startsWith f toolBaseDir = true
                                    /\ (respectGitIgnore = true ->
                                        In f filteredEntries))
                  /\ (NoDup (filesToConsider d) -> NoDup (filesToConsider d1))).
    { subst d1. destruct (startsWith e toolBaseDir) eqn:E1; cbn [negb].
      - destruct respectGitIgnore; cbn [andb].
        + destruct (array_includes filteredEntries e) eqn:E2; cbn [negb].
          * cbn [filesToConsider].
            destruct (set_add_spec e (filesToConsider d)) as [S1 S2].
            split; [|exact S2]. intros f. rewrite S1.
            apply array_includes_In in E2.
            split; [intros [-> | H]; auto | intros [H | [-> _]]; auto].
          * cbn [filesToConsider]. split; [|auto]. intros f.
            split; [auto|]. intros [H | (-> & _ & H)]; [exact H|].
            specialize (H eq_refl). apply array_includes_In in H. congruence.
        + cbn [filesToConsider].
          destruct (set_add_spec e (filesToConsider d)) as [S1 S2].
          split; [|exact S2]. intros f. rewrite S1.
          split; [intros [-> | H]; auto | intros [H | [-> _]]; auto].
          right. split; [reflexivity|]. split; [exact E1 | discriminate].
      - cbn [filesToConsider]. split; [|auto]. intros f.
        split; [auto|]. intros [H | (-> & H & _)]; [exact H | congruence]. }
    destruct Hd1 as [D1 D2]. split; [|auto].
    intros f. rewrite IH1, D1. simpl. intuition (subst; auto).
Qed.

Lemma jsstring_ltb_trans (a : jsstring) :
  forall b c, jsstring_ltb a b = true -> jsstring_ltb b c = true ->
              jsstring_ltb a c = true.
Proof.
  induction a as [|x a IH]; intros [|y b] [|z c]; simpl;
    try discriminate; auto.
  destruct (N.ltb_spec x y), (N.ltb_spec y x), (N.ltb_spec y z),
    (N.ltb_spec z y), (N.ltb_spec x z), (N.ltb_spec z x);
    try lia; try discriminate; auto.
  apply IH.
Qed.

Lemma jsstring_ltb_total (a : jsstring) :
  forall b, jsstring_ltb a b = false -> jsstring_ltb b a = false -> a = b.
Proof.
  induction a as [|x a IH]; intros [|y b]; simpl; try discriminate; auto.
  destruct (N.ltb_spec x y), (N.ltb_spec y x); try lia; try discriminate.
  intros H1 H2. assert (x = y) by lia. subst y. f_equal. apply IH; assumption.
Qed.

Lemma sort_insert_spec (x : jsstring) (l : list jsstring) :
  (forall f, In f (sort_insert x l) <-> f = x \/ In f l)
  /\ length (sort_insert x l) = S (length l)
  /\ (strictly_sorted l -> ~ In x l -> strictly_sorted (sort_insert x l)).
Proof.
  unfold strictly_sorted.
  induction l as [|y t (IH1 & IH2 & IH3)]; cbn [sort_insert].
  - split; [|split]; [simpl; intuition | reflexivity |].
    intros _ _. repeat constructor.
  - destruct (jsstring_ltb x y) eqn:E.
    + split; [|split]; [simpl; intuition | reflexivity |].
      intros Hs _. constructor; [exact Hs|].
      inversion Hs as [|? ? Ht Hy]; subst. constructor; [exact E|].
      eapply Forall_impl; [|exact Hy]. cbv beta. intros z Hz.
      exact (jsstring_ltb_trans _ _ _ E Hz).
    + split; [|split].
      * intros f. simpl. rewrite IH1. intuition.
      * simpl. rewrite IH2. reflexivity.
      * intros Hs Hn. inversion Hs as [|? ? Ht Hy]; subst.
        constructor.
        -- apply IH3; [exact Ht|]. intros H. apply Hn. right. exact H.
        -- apply Forall_forall. intros z Hz. apply IH1 in Hz.
           destruct Hz as [-> | Hz].
           ++ destruct (jsstring_ltb y x) eqn:E'; [reflexivity|].
              exfalso. apply Hn. left.
              symmetry. apply jsstring_ltb_total; assumption.
           ++ rewrite Forall_forall in Hy. apply Hy. exact Hz.
Qed.

Lemma sort_spec (l : list jsstring) :
  (forall f, In f (sort l) <-> In f l)
  /\ length (sort l) = length l
  /\ (NoDup l -> strictly_sorted (sort l)).
Proof.
  unfold sort. induction l as [|x l (IH1 & IH2 & IH3)]; cbn [fold_right].
  - split; [|split]; [tauto | reflexivity | intros _; constructor].
  - destruct (sort_insert_spec x (fold_right sort_insert [] l))
      as (S1 & S2 & S3).
    split; [|split].
    + intros f. rewrite S1, IH1. simpl. intuition.
    + rewrite S2, IH2. reflexivity.
    + intros H. inversion H as [|? ? Hn Hl]; subst.
      apply S3; [apply IH3; exact Hl|]. rewrite IH1. exact Hn.
Qed.

(** X14. Which files the tool considers. A path is considered exactly when
    the glob returned it, the string of the target directory is a prefix of
    it and, when the ignore rules are respected, the filter of the ignore
    rules kept it. The test on the target directory is one on strings: it
    holds of every path that continues the string of the target directory,
    whatever follows it. Each path is considered once, however often the
    glob returned it, and the sorted list that is read holds the same
    paths, as many, in the strict order of their code units. *)
Theorem considered_files :
  forall (toolBaseDir : jsstring) (respectGitIgnore : bool)
         (filteredEntries entries : list jsstring),
    let d := discover toolBaseDir respectGitIgnore filteredEntries entries in
    (forall f, In f (filesToConsider d)
               <-> In f entries
                   /\ passes toolBaseDir respectGitIgnore filteredEntries f)
    /\ (forall f, startsWith f toolBaseDir = true
                  <-> exists rest, f = toolBaseDir ++ rest)
    /\ NoDup (filesToConsider d)
    /\ (forall f, In f (sortedFiles_of d) <-> In f (filesToConsider d))
    /\ length (sortedFiles_of d) = length (filesToConsider d)
    /\ length (sortedFiles_of d) <= length entries
    /\ strictly_sorted (sortedFiles_of d).
Proof.
  intros toolBaseDir respectGitIgnore filteredEntries entries d.
  assert (E : filesToConsider d
              = filesToConsider
                  (classify toolBaseDir respectGitIgnore filteredEntries entries
                     {| filesToConsider := []; skippedFiles := [];
                        gitIgnoredCount := 0 |})).
  { subst d. unfold discover, note_ignored.
    destruct (0 <? gitIgnoredCount _)%N; reflexivity. }
  destruct (classify_spec toolBaseDir respectGitIgnore filteredEntries entries
              {| filesToConsider := []; skippedFiles := [];
                 gitIgnoredCount := 0 |}) as [C1 C2].
  cbn [filesToConsider] in C1, C2.
  destruct (sort_spec (filesToConsider d)) as (S1 & S2 & S3).
  assert (Hin : forall f, In f (filesToConsider d)
                          <-> In f entries
                              /\ passes toolBaseDir respectGitIgnore
                                        filteredEntries f).
  { intros f. rewrite E, C1. simpl. tauto. }
  assert (Hnd : NoDup (filesToConsider d)).
  { rewrite E. apply C2. constructor. }
  split; [exact Hin|].
  split.
  { intros f. unfold startsWith. split.
    - destruct (strip_prefix toolBaseDir f) as [rest|] eqn:P; [|discriminate].
      intros _. exists rest. exact (strip_prefix_sound _ _ _ P).
    - intros [rest ->]. rewrite strip_prefix_app. reflexivity. }
  split; [exact Hnd|].
  split; [exact S1|]. split; [exact S2|]. split; [|exact (S3 Hnd)].
  unfold sortedFiles_of. rewrite S2.
  apply NoDup_incl_length; [exact Hnd|].
  intros f Hf. apply Hin in Hf. tauto.
Qed.

(* ===================================================================== *)
(** ** Numbers written and read back *)
(* ===================================================================== *)

Lemma decimal_digits_spec (fuel : nat) :
  forall n acc,
    N.to_nat n < fuel ->
    fold_left (fun a d => 10 * a + (d - 48))%N (decimal_digits fuel n acc) 0%N
    = fold_left (fun a d => 10 * a + (d - 48))%N acc n
    /\ (Forall (fun c => is_digit c = true) acc ->
        Forall (fun c => is_digit c = true) (decimal_digits fuel n acc))
    /\ decimal_digits fuel n acc <> [].
Proof.
  induction fuel as [|f IH]; intros n acc Hf; [lia|].
  cbn [decimal_digits].
  pose proof (N.mod_lt n 10 ltac:(discriminate)) as Hm.
  pose proof (N.div_mod n 10 ltac:(discriminate)) as Hdm.
  assert (Hlt : (n / 10 =? 0)%N = false -> N.to_nat (n / 10) < f).
  { intros E. apply N.eqb_neq in E.
    revert Hdm Hm E. generalize (n / 10)%N, (n mod 10)%N. intros q r. lia. }
  revert Hdm Hm Hlt IH. generalize (n / 10)%N, (n mod 10)%N.
  intros q r Hdm Hm Hlt IH.
  assert (Hd : is_digit (48 + r) = true).
  { unfold is_digit, in_range.
    apply andb_true_iff. split; apply N.leb_le; lia. }
  destruct (q =? 0)%N eqn:E.
  - apply N.eqb_eq in E. split; [|split].
    + cbn [fold_left]. f_equal. lia.
    + intros Ha. constructor; assumption.
    + discriminate.
  - destruct (IH q ((48 + r)%N :: acc) (Hlt eq_refl)) as (I1 & I2 & I3).
    split; [|split].
    + rewrite I1. cbn [fold_left]. f_equal. lia.
    + intros Ha. apply I2. constructor; assumption.
    + exact I3.
Qed.

Lemma to_decimal_spec (n : N) :
  parseInt10 (to_decimal n) = n
  /\ Forall (fun c => is_digit c = true) (to_decimal n)
  /\ to_decimal n <> [].
Proof.
  unfold to_decimal, parseInt10.
  destruct (decimal_digits_spec (S (N.to_nat n)) n [] ltac:(lia))
    as (H1 & H2 & H3).
  split; [exact H1|]. split; [apply H2; constructor | exact H3].
Qed.

Lemma separates_clean (sep rest : jsstring) :
  separates sep ->
  ends_clean sep /\ starts_clean (sep ++ rest)
  /\ parseSelectionResponse sep = [].
Proof.
  intros [Hn Hd]. split; [|split].
  - unfold ends_clean, starts_clean.
    destruct (rev sep) as [|c t] eqn:E; [exact I|].
    rewrite Forall_forall in Hd. apply Hd. apply in_rev. rewrite E.
    left. reflexivity.
  - destruct sep as [|c t]; [congruence|]. simpl.
    inversion Hd; assumption.
  - unfold parseSelectionResponse, matchAll.
    rewrite no_digit_no_match by assumption. reflexivity.
Qed.

Lemma parse_listed (sep : jsstring) (ks : list N) :
  separates sep ->
  parseSelectionResponse (flat_map (fun k => sep ++ to_decimal k) ks)
  = filter selectable ks.
Proof.
  intros Hsep. induction ks as [|k ks IH]; [reflexivity|].
  cbn [flat_map filter]. rewrite <- app_assoc.
  destruct (to_decimal_spec k) as (P & D & Hn).
  destruct (separates_clean sep [] Hsep) as (E1 & _ & E3).
  rewrite parseSelectionResponse_token; try assumption.
  - rewrite E3, P, IH. unfold selectable.
    destruct ((0 <? k)%N && (k <=? 100)%N); reflexivity.
  - destruct ks as [|k' ks']; [exact I|]. cbn [flat_map].
    rewrite <- app_assoc. apply (separates_clean sep _ Hsep).
Qed.

Lemma join_listed (sep : jsstring) (k : N) (ks : list N) :
  join sep (map to_decimal (k :: ks))
  = to_decimal k ++ flat_map (fun k => sep ++ to_decimal k) ks.
Proof.
  revert k. induction ks as [|k' ks IH]; intros k.
  - simpl. rewrite app_nil_r. reflexivity.
  - cbn [map]. rewrite join_cons by discriminate.
    cbn [map] in IH. rewrite IH. cbn [flat_map].
    rewrite <- app_assoc. reflexivity.
Qed.

Lemma parse_joined (sep : jsstring) (ks : list N) :
  separates sep ->
  parseSelectionResponse (join sep (map to_decimal ks)) = filter selectable ks.
Proof.
  intros Hsep. destruct ks as [|k ks]; [reflexivity|].
  rewrite join_listed.
  destruct (to_decimal_spec k) as (P & D & Hn).
  pose proof (parseSelectionResponse_token [] (to_decimal k)
                (flat_map (fun k => sep ++ to_decimal k) ks)) as T.
  cbn [app] in T. rewrite T; try assumption.
  - rewrite P, (parse_listed sep ks Hsep). cbn [filter]. unfold selectable.
    destruct ((0 <? k)%N && (k <=? 100)%N); reflexivity.
  - exact I.
  - destruct ks as [|k' ks']; [exact I|]. cbn [flat_map].
    rewrite <- app_assoc. apply (separates_clean sep _ Hsep).
Qed.

(** X15. Numbers written in decimal are read back. A reply that lists
    numbers in decimal, separated by any non-empty text without digits, is
    parsed into those of the numbers that lie between 1 and 100, in the
    order of the reply, repeated ones included; and the number read from
    the decimal digits of a number is that number. *)
Theorem listed_numbers_are_parsed :
  forall (sep : jsstring) (ks : list N),
    separates sep ->
    parseSelectionResponse (join sep (map to_decimal ks)) = filter selectable ks
    /\ (forall k, parseInt10 (to_decimal k) = k)
    /\ (Forall (fun k => (1 <= k <= 100)%N) ks ->
        parseSelectionResponse (join sep (map to_decimal ks)) = ks).
Proof.
  intros sep ks Hsep. split; [|split].
  - apply parse_joined. exact Hsep.
  - intros k. apply to_decimal_spec.
  - intros H. rewrite parse_joined by exact Hsep.
    induction H as [|k ks Hk _ IH]; [reflexivity|].
    cbn [filter]. unfold selectable at 1.
    replace ((0 <? k)%N && (k <=? 100)%N) with true; [rewrite IH; reflexivity|].
    symmetry. apply andb_true_iff. split; [apply N.ltb_lt | apply N.leb_le]; lia.
Qed.

Lemma listed_numbers_are_parsed_witness :
  parseSelectionResponse (js "1,5,12,250,25") = [1; 5; 12; 25]%N.
Proof.
  refine (proj1 (listed_numbers_are_parsed (js ",") [1; 5; 12; 250; 25]%N _)).
  split; [discriminate | repeat constructor].
Defined.

Lemma filter_truthy_nth (sortedFiles : list jsstring) (ks : list N) :
  Forall (fun f => f <> []) sortedFiles ->
  Forall (fun k => (1 <= k)%N /\ N.to_nat k <= length sortedFiles) ks ->
  filter_truthy (map (fun num => nth_error sortedFiles (N.to_nat num - 1)) ks)
  = map (fun k => nth (N.to_nat k - 1) sortedFiles []) ks.
Proof.
  intros Hf H. induction H as [|k ks [Hk1 Hk2] _ IH]; [reflexivity|].
  cbn [map]. 
  assert (Hlt : N.to_nat k - 1 < length sortedFiles) by lia.
  destruct (nth_error sortedFiles (N.to_nat k - 1)) as [f|] eqn:E.
  - assert (Hne : f <> []).
    { rewrite Forall_forall in Hf. apply Hf. eapply nth_error_In. exact E. }
    destruct f as [|c t]; [congruence|]. cbn [filter_truthy].
    rewrite IH. f_equal. symmetry. apply nth_error_nth. exact E.
  - apply nth_error_None in E. lia.
Qed.

(** X16. The number of a file selects that file. The previews number the
    files from 1 in the order of the sorted list; a reply that lists, in
    decimal and separated by text without digits, at most twenty numbers,
    each the number of a file among the first hundred, selects exactly
    the files of those numbers, in the order of the reply. *)
Theorem numbered_reply_selects_files :
  forall (sortedFiles : list jsstring) (sep : jsstring) (ks : list N),
    separates sep ->
    Forall (fun f => f <> []) sortedFiles ->
    ks <> [] -> length ks <= 20 ->
    Forall (fun k => (1 <= k <= 100)%N /\ N.to_nat k <= length sortedFiles) ks ->
    select_files sortedFiles (Some (join sep (map to_decimal ks)))
    = map (fun k => nth (N.to_nat k - 1) sortedFiles []) ks.
Proof.
  intros sortedFiles sep ks Hsep Hf Hne Hlen Hks.
  unfold select_files.
  rewrite (parse_joined sep ks Hsep).
  assert (Hall : filter selectable ks = ks).
  { clear Hne Hlen. induction Hks as [|k ks [Hk _] _ IH]; [reflexivity|].
    cbn [filter]. unfold selectable at 1.
    replace ((0 <? k)%N && (k <=? 100)%N) with true; [rewrite IH; reflexivity|].
    symmetry. apply andb_true_iff. split; [apply N.ltb_lt | apply N.leb_le]; lia. }
  rewrite Hall, filter_truthy_nth.
  - rewrite firstn_all2 by (rewrite length_map; exact Hlen).
    destruct ks as [|k ks']; [congruence | reflexivity].
  - exact Hf.
  - eapply Forall_impl; [|exact Hks]. cbv beta. intros k [[H1 _] H2].
    split; assumption.
Qed.

Lemma numbered_reply_selects_files_witness :
  select_files [js "a.ts"; js "b.ts"; js "c.ts"] (Some (js "3, 1"))
  = [js "c.ts"; js "a.ts"].
Proof.
  refine (numbered_reply_selects_files
            [js "a.ts"; js "b.ts"; js "c.ts"] (js ", ") [3; 1]%N _ _ _ _ _).
  - split; [discriminate | repeat constructor].
  - repeat constructor; discriminate.
  - discriminate.
  - simpl. lia.
  - repeat constructor; simpl; lia.
Defined.

Lemma filter_truthy_In (l : list (option jsstring)) (f : jsstring) :
  In f (filter_truthy l) -> In (Some f) l.
Proof.
  induction l as [|[[|c t]|] l IH]; cbn [filter_truthy]; intros H.
  - destruct H.
  - right. apply IH. exact H.
  - destruct H as [<- | H]; [left; reflexivity | right; apply IH; exact H].
  - right. apply IH. exact H.
Qed.

Lemma firstn_In {A} (n : nat) (l : list A) (x : A) :
  In x (firstn n l) -> In x l.
Proof.
  intros H. rewrite <- (firstn_skipn n l). apply in_or_app. left. exact H.
Qed.

(** X17. Only candidates are selected. Whatever the model replies, every
    file the selection returns is one of the files found, so a number
    cannot make the tool read a file outside the list; and as long as a
    file was found the selection is not empty, because a reply without a
    usable number falls back to the first ten files. *)
Theorem selected_files_are_candidates :
  forall (sortedFiles : list jsstring) (responseText : option jsstring),
    (forall f, In f (select_files sortedFiles responseText) -> In f sortedFiles)
    /\ (select_files sortedFiles responseText = [] -> sortedFiles = []).
Proof.
  intros sortedFiles responseText. unfold select_files.
  set (numbers := parseSelectionResponse _).
  set (picked := filter_truthy _).
  assert (Hp : forall f, In f (firstn 20 picked) -> In f sortedFiles).
  { intros f H. apply firstn_In in H. subst picked.
    apply filter_truthy_In in H. apply in_map_iff in H.
    destruct H as (num & E & _). eapply nth_error_In. exact E. }
  destruct (firstn 20 picked) as [|f0 l] eqn:E.
  - split.
    + intros f H. apply firstn_In in H. exact H.
    + intros H. destruct sortedFiles; [reflexivity | discriminate].
  - split; [exact Hp | discriminate].
Qed.

(* ===================================================================== *)
(** ** The previews of the files *)
(* ===================================================================== *)

Lemma one_line_app (a b : jsstring) :
  one_line a -> one_line b -> one_line (a ++ b).
Proof.
  unfold one_line. intros Ha Hb H. apply in_app_or in H. tauto.
Qed.

Lemma one_line_literal (s : string) :
  forallb (fun c => negb (c =? 10)%N) (js s) = true -> one_line (js s).
Proof.
  intros H Hin. rewrite forallb_forall in H. specialize (H _ Hin).
  discriminate.
Qed.

Lemma split_on_lines (s : jsstring) :
  Forall one_line (split_on 10 s) /\ split_on 10 s <> [].
Proof.
  induction s as [|c t [IH1 IH2]]; cbn [split_on].
  - split; [|discriminate]. repeat constructor. intros [].
  - destruct (c =? 10)%N eqn:E.
    + split; [|discriminate]. constructor; [intros [] | exact IH1].
    + destruct (split_on 10 t) as [|h r]; [congruence|].
      split; [|discriminate].
      inversion IH1 as [|? ? Hh Hr]; subst.
      constructor; [|exact Hr].
      intros [-> | H]; [discriminate | exact (Hh H)].
Qed.

Lemma join_one_line (sep : jsstring) (l : list jsstring) :
  one_line sep -> Forall one_line l -> one_line (join sep l).
Proof.
  intros Hs H. induction H as [|x l Hx Hl IH]; [intros []|].
  destruct l as [|y l]; [exact Hx|].
  rewrite join_cons by discriminate.
  apply one_line_app; [exact Hx|]. apply one_line_app; [exact Hs | exact IH].
Qed.

Lemma Forall_firstn {A} (P : A -> Prop) (n : nat) (l : list A) :
  Forall P l -> Forall P (firstn n l).
Proof.
  rewrite !Forall_forall. intros H x Hx. apply H.
  exact (firstn_In n l x Hx).
Qed.

(** X18. A preview is one line. Whatever the file holds, its preview has no
    line feed when its relative path and its detected type have none: the
    first lines of a text file are joined by a bar, and a file that is not
    text, cannot be read or is binary is described by a word in brackets
    after its path. *)
Theorem preview_is_one_line :
  forall (relativePathForDisplay : jsstring) (src : preview_source),
    one_line relativePathForDisplay ->
    (forall fileType read, src = PreviewOf fileType read -> one_line fileType) ->
    one_line (createFilePreview relativePathForDisplay src).
Proof.
  intros rel src Hrel Htype.
  unfold createFilePreview. destruct src as [|fileType read].
  - apply one_line_app; [exact Hrel|]. apply one_line_literal. reflexivity.
  - specialize (Htype fileType read eq_refl).
    destruct (negb (jsstring_eqb fileType (js "text"))).
    + apply one_line_app; [exact Hrel|].
      apply one_line_app; [apply one_line_literal; reflexivity|].
      apply one_line_app; [exact Htype|].
      apply one_line_literal. reflexivity.
    + destruct read as [llmContent| |].
      * apply one_line_app; [exact Hrel|].
        apply one_line_app; [apply one_line_literal; reflexivity|].
        apply join_one_line; [apply one_line_literal; reflexivity|].
        apply Forall_firstn, split_on_lines.
      * apply one_line_app; [exact Hrel|].
        apply one_line_literal. reflexivity.
      * apply one_line_app; [exact Hrel|].
        apply one_line_literal. reflexivity.
Qed.

Lemma preview_is_one_line_witness :
  createFilePreview (js "src/a.ts")
    (PreviewOf (js "text") (ReadString (10%N :: js "import x;" ++ 10%N :: js "run();")))
  = js "src/a.ts:  | import x; | run();"
  /\ one_line (js "src/a.ts:  | import x; | run();").
Proof.
  split; [reflexivity|].
  refine (preview_is_one_line (js "src/a.ts")
            (PreviewOf (js "text")
               (ReadString (10%N :: js "import x;" ++ 10%N :: js "run();")))
            _ _).
  - apply one_line_literal. reflexivity.
  - intros fileType read E. injection E as <- _.
    apply one_line_literal. reflexivity.
Defined.

Lemma split_on_app (x rest : jsstring) :
  one_line x -> split_on 10 (x ++ 10%N :: rest) = x :: split_on 10 rest.
Proof.
  induction x as [|a x IH]; intros H.
  - reflexivity.
  - rewrite <- app_comm_cons. cbn [split_on].
    destruct (a =? 10)%N eqn:E.
    + apply N.eqb_eq in E. subst a. exfalso. apply H. left. reflexivity.
    + rewrite IH; [reflexivity|]. intros Hin. apply H. right. exact Hin.
Qed.

Lemma split_on_one_line (x : jsstring) :
  one_line x -> split_on 10 x = [x].
Proof.
  induction x as [|a x IH]; intros H; [reflexivity|].
  cbn [split_on]. destruct (a =? 10)%N eqn:E.
  - apply N.eqb_eq in E. subst a. exfalso. apply H. left. reflexivity.
  - rewrite IH; [reflexivity|]. intros Hin. apply H. right. exact Hin.
Qed.

Lemma split_join (l : list jsstring) :
  l <> [] -> Forall one_line l -> split_on 10 (join [10%N] l) = l.
Proof.
  intros Hn H. induction H as [|x l Hx Hl IH]; [congruence|].
  destruct l as [|y l]; [apply split_on_one_line; exact Hx|].
  rewrite join_cons by discriminate.
  change ([10%N] ++ join [10%N] (y :: l)) with (10%N :: join [10%N] (y :: l)).
  rewrite split_on_app by exact Hx. rewrite IH by discriminate. reflexivity.
Qed.

Lemma number_from_spec (previews : list jsstring) :
  forall i,
    length (number_from i previews) = length previews
    /\ (Forall one_line previews -> Forall one_line (number_from i previews))
    /\ (forall j p, nth_error previews j = Some p ->
                    nth_error (number_from i previews) j
                    = Some (to_decimal (i + N.of_nat j + 1) ++ js ". " ++ p)).
Proof.
  induction previews as [|p previews IH]; intros i; cbn [number_from].
  - split; [reflexivity|]. split; [auto|]. intros [|j] q H; discriminate.
  - destruct (IH (i + 1)%N) as (I1 & I2 & I3). split; [|split].
    + simpl. rewrite I1. reflexivity.
    + intros H. inversion H as [|? ? Hp Hl]; subst.
      constructor; [|apply I2; exact Hl].
      apply one_line_app.
      * intros Hin. destruct (to_decimal_spec (i + 1)) as (_ & D & _).
        rewrite Forall_forall in D. specialize (D _ Hin). discriminate.
      * apply one_line_app; [apply one_line_literal; reflexivity | exact Hp].
    + intros [|j] q H.
      * injection H as <-. cbn [nth_error]. do 3 f_equal. lia.
      * cbn [nth_error] in *. rewrite (I3 j q H). do 3 f_equal. lia.
Qed.

(** X19. The previews in the prompt. The prompt lists at most a hundred
    previews; the preview of the file at index i of the sorted list, for i
    below one hundred, is numbered i + 1 in decimal; and when no preview
    holds a line feed, the lines of the preview section are exactly the
    numbered previews, one file per line. *)
Theorem previews_are_numbered_lines :
  forall (previews : list jsstring),
    length (numbered_previews previews) = Nat.min 100 (length previews)
    /\ (forall i p, i < 100 -> nth_error previews i = Some p ->
                    nth_error (numbered_previews previews) i
                    = Some (to_decimal (N.of_nat i + 1) ++ js ". " ++ p))
    /\ (previews <> [] -> Forall one_line previews ->
        split_on 10 (previewContent previews) = numbered_previews previews).
Proof.
  intros previews. unfold previewContent, numbered_previews.
  destruct (number_from_spec (firstn 100 previews) 0) as (N1 & N2 & N3).
  split; [|split].
  - rewrite N1. apply length_firstn.
  - intros i p Hi Hp. rewrite (N3 i p); [reflexivity|].
    rewrite nth_error_firstn.
    destruct (Nat.ltb_spec i 100); [exact Hp | lia].
  - intros Hn Hl. apply split_join.
    + intros E. apply (f_equal (@length jsstring)) in E.
      rewrite N1, length_firstn in E. destruct previews; [congruence|].
      simpl in E. lia.
    + apply N2, Forall_firstn, Hl.
Qed.

(* ===================================================================== *)
(** ** The separator of a file *)
(* ===================================================================== *)

Lemma get_substitution_cons (matched before after : jsstring) (c : N)
      (r : jsstring) :
  c <> 36%N ->
  get_substitution matched before after (c :: r)
  = c :: get_substitution matched before after r.
Proof.
  intros H. apply N.eqb_neq in H.
  destruct r as [|c' r']; [reflexivity|].
  cbn [get_substitution]. rewrite H. reflexivity.
Qed.

Lemma get_substitution_plain (matched before after pre rest : jsstring) :
  no_dollar pre ->
  get_substitution matched before after (pre ++ rest)
  = pre ++ get_substitution matched before after rest.
Proof.
  intros H. induction H as [|c pre Hc _ IH]; [reflexivity|].
  rewrite <- app_comm_cons, get_substitution_cons, IH by exact Hc.
  reflexivity.
Qed.

(** X20. The separator line of a file. For a path without a dollar sign
    the separator is the path between two runs of three dashes, and the
    content part of a file read in full is that line, an empty line, the
    content and an empty line. A dollar sign is not always kept: the two
    characters dollar and ampersand in a path are replaced by the
    placeholder of the separator format. *)
Theorem separator_shows_the_path :
  forall (path content pre post : jsstring),
    (no_dollar path ->
     separator path = js "--- " ++ path ++ js " ---"
     /\ render {| cp_path := path; cp_content := content; cp_truncated := false |}
        = js "--- " ++ path ++ js " ---" ++ NL2 ++ content ++ NL2)
    /\ (no_dollar pre -> no_dollar post ->
        separator (pre ++ js "$&" ++ post)
        = js "--- " ++ pre ++ js "{filePath}" ++ post ++ js " ---").
Proof.
  intros path content pre post. split.
  - intros H.
    assert (E : separator path = js "--- " ++ path ++ js " ---").
    { unfold separator.
      rewrite <- (app_nil_r path) at 1.
      rewrite get_substitution_plain by exact H.
      cbn [get_substitution]. rewrite app_nil_r. reflexivity. }
    split; [exact E|]. unfold render. cbn [cp_path cp_content cp_truncated].
    rewrite E, app_nil_r, <- !app_assoc. reflexivity.
  - intros Hpre Hpost. unfold separator.
    rewrite get_substitution_plain by exact Hpre.
    change (js "$&" ++ post) with (36%N :: 38%N :: post).
    cbn [get_substitution]. 
    change ((36 =? 36)%N && (38 =? 36)%N) with false.
    change ((36 =? 36)%N && (38 =? 38)%N) with true.
    cbv iota.
    rewrite <- (app_nil_r post) at 1.
    rewrite get_substitution_plain by exact Hpost.
    cbn [get_substitution]. rewrite app_nil_r, <- !app_assoc. reflexivity.
Qed.

(* ===================================================================== *)
(** ** What the reads report *)
(* ===================================================================== *)

(** X21. What the budgeted read reports. The relative paths it reports as
    processed are the paths of the content parts, in order; only the last
    content part can be a truncated one; and the token count it reports is
    the estimate of the contents read in full: it equals the estimate of
    what was appended when nothing was truncated and leaves out the
    truncated content otherwise. *)
Theorem budgeted_read_report :
  forall (files : list selected_file),
    let st := budgeted_read files in
    processedFilesRelativePaths st = map cp_path (contentParts st)
    /\ Forall (fun p => cp_truncated p = false) (removelast (contentParts st))
    /\ (0 <= totalTokens st <= appended_tokens (contentParts st))%Z
    /\ (truncation_markers (contentParts st) = 0 ->
        totalTokens st = appended_tokens (contentParts st))
    /\ totalTokens st = appended_tokens (filter (fun p => negb (cp_truncated p))
                                                (contentParts st)).
Proof.
  intros files st. subst st. unfold budgeted_read.
  destruct (read_loop_final files initial_state within_budget_initial eq_refl)
    as [Hp [Hw | (st0 & part & Hw & Hc & Ht & Htot)]].
  - destruct Hw as (Hb & Ha & Hm).
    pose proof (proj1 (no_marker_no_truncation _) Hm) as Hall.
    split; [exact Hp|]. split; [|split; [|split]].
    + rewrite removelast_firstn_len. apply Forall_firstn. exact Hall.
    + rewrite Ha. lia.
    + intros _. symmetry. exact Ha.
    + rewrite <- Ha. f_equal. symmetry.
      apply forallb_filter_id. apply forallb_forall. intros p Hin.
      rewrite Forall_forall in Hall. rewrite (Hall p Hin). reflexivity.
  - destruct Hw as (Hb & Ha & Hm).
    pose proof (proj1 (no_marker_no_truncation _) Hm) as Hall.
    split; [exact Hp|]. rewrite Hc, Htot.
    split; [|split; [|split]].
    + rewrite removelast_last. exact Hall.
    + rewrite appended_tokens_app, Ha. simpl.
      pose proof (estimateTokens_nonneg (cp_content part)). lia.
    + rewrite truncation_markers_app. unfold truncation_markers at 2.
      simpl. rewrite Ht. simpl. lia.
    + rewrite filter_app. cbn [filter]. rewrite Ht. cbn [negb].
      rewrite app_nil_r, <- Ha. f_equal. symmetry.
      apply forallb_filter_id. apply forallb_forall. intros p Hin.
      rewrite Forall_forall in Hall. rewrite (Hall p Hin). reflexivity.
Qed.

Lemma regular_loop_spec (files : list selected_file) :
  forall rst,
    Forall (fun p => cp_truncated p = false) (reg_contentParts rst) ->
    reg_processed rst = map cp_path (reg_contentParts rst) ->
    let rst' := regular_loop files rst in
    Forall (fun p => cp_truncated p = false) (reg_contentParts rst')
    /\ reg_processed rst' = map cp_path (reg_contentParts rst')
    /\ exists k, reg_read rst' = reg_read rst ++ map sel_path (firstn k files).
Proof.
  induction files as [|f rest IH]; intros rst Hf Hp; cbv zeta.
  - split; [exact Hf|]. split; [exact Hp|]. exists 0.
    rewrite app_nil_r. reflexivity.
  - cbn [regular_loop]. destruct (sel_aborted f).
    + split; [exact Hf|]. split; [exact Hp|]. exists 0.
      rewrite app_nil_r. reflexivity.
    + destruct (sel_read f) as [c| |];
        match goal with
        | |- context [regular_loop rest ?x] =>
            destruct (IH x) as (I1 & I2 & k & I3)
        end;
        cbn [reg_contentParts reg_processed reg_read] in *;
        try assumption;
        try (apply Forall_app; split;
             [assumption | repeat constructor]);
        try (rewrite map_app, Hp; reflexivity);
        (split; [exact I1|]; split; [exact I2|]; exists (S k);
         rewrite I3, <- app_assoc; reflexivity).
Qed.

Lemma loops_agree (files : list selected_file) :
  forall st rst,
    within_budget st ->
    contentParts st = reg_contentParts rst ->
    filesRead st = reg_read rst ->
    truncation_markers (contentParts (read_loop files st)) = 0 ->
    contentParts (read_loop files st) = reg_contentParts (regular_loop files rst)
    /\ filesRead (read_loop files st) = reg_read (regular_loop files rst).
Proof.
  induction files as [|f rest IH]; intros st rst Hw Hc Hr Hm.
  - split; assumption.
  - destruct (sel_aborted f) eqn:Ea.
    + cbn [read_loop regular_loop]. rewrite Ea. split; assumption.
    + rewrite read_loop_cons in Hm |- * by exact Ea.
      cbn [regular_loop]. rewrite Ea.
      pose proof (within_budget_note f st Hw) as Hwn.
      destruct (sel_read f) as [c| |].
      * destruct (totalTokens st + estimateTokens c >? maxTokenBudget)%Z eqn:G.
        -- exfalso. cbn [push_content contentParts] in Hm.
           rewrite truncation_markers_app in Hm.
           unfold truncation_markers at 2 in Hm. simpl in Hm. lia.
        -- apply IH.
           ++ apply within_budget_push; [exact Hwn|].
              cbn [note_read totalTokens].
              rewrite Z.gtb_ltb in G. apply Z.ltb_ge in G. exact G.
           ++ cbn [push_content note_read contentParts reg_contentParts].
              rewrite Hc. reflexivity.
           ++ cbn [push_content note_read filesRead reg_read].
              rewrite Hr. reflexivity.
           ++ exact Hm.
      * apply IH; [exact Hwn | exact Hc | | exact Hm].
        cbn [note_read filesRead reg_read]. rewrite Hr. reflexivity.
      * apply IH; [exact Hwn | exact Hc | | exact Hm].
        cbn [note_read filesRead reg_read]. rewrite Hr. reflexivity.
Qed.

(** X22. The fallback read. The fallback of the smart selection reads at
    most ten files, the first ones in order; it never truncates a content;
    the paths it counts as processed are those of its content parts; and
    its result is never an empty list. On at most ten files whose contents
    fit in the budget it appends exactly what the budgeted read appends,
    after reading the same files. *)
Theorem fallback_read :
  forall (files : list selected_file),
    let rst := regular_loop (firstn 10 files) regular_initial in
    length (reg_read rst) <= 10
    /\ (exists k, reg_read rst = map sel_path (firstn k files))
    /\ Forall (fun p => cp_truncated p = false) (reg_contentParts rst)
    /\ reg_processed rst = map cp_path (reg_contentParts rst)
    /\ tr_llmContent (executeRegularSelection files) <> []
    /\ (length files <= 10 ->
        truncation_markers (contentParts (budgeted_read files)) = 0 ->
        contentParts (budgeted_read files) = reg_contentParts rst
        /\ filesRead (budgeted_read files) = reg_read rst).
Proof.
  intros files rst. subst rst.
  destruct (regular_loop_spec (firstn 10 files) regular_initial
              (Forall_nil _) eq_refl) as (H1 & H2 & k & H3).
  cbn [regular_initial reg_read app] in H3.
  split; [|split; [|split; [|split; [|split]]]].
  - rewrite H3, length_map, length_firstn.
    pose proof (firstn_le_length 10 files). lia.
  - exists (Nat.min k 10). rewrite H3, firstn_firstn. reflexivity.
  - exact H1.
  - exact H2.
  - unfold executeRegularSelection. cbn [tr_llmContent].
    destruct (reg_contentParts _); discriminate.
  - intros Hlen Hm. rewrite firstn_all2 by exact Hlen.
    unfold budgeted_read in *.
    apply (loops_agree files initial_state regular_initial);
      [exact within_budget_initial | reflexivity | reflexivity | exact Hm].
Qed.

Lemma filter_partition_length {A} (f : A -> bool) (l : list A) :
  length (filter f l) + length (filter (fun x => negb (f x)) l) = length l.
Proof.
  induction l as [|x l IH]; [reflexivity|].
  cbn [filter]. destruct (f x); cbn [negb length]; lia.
Qed.

Lemma standard_step_accounts (toLowerCase : jsstring -> jsstring)
      (inputPatterns : list jsstring) (st : standard_state) (c : candidate) :
  let st' := standard_step toLowerCase inputPatterns st c in
  if is_processed toLowerCase inputPatterns c
  then std_processed st' = std_processed st ++ [cand_relative c]
       /\ std_skipped st' = std_skipped st
       /\ length (std_contentParts st') = S (length (std_contentParts st))
  else std_processed st' = std_processed st
       /\ map sk_path (std_skipped st')
          = map sk_path (std_skipped st) ++ [cand_relative c]
       /\ std_contentParts st' = std_contentParts st.
Proof.
  unfold standard_step, is_processed.
  destruct (is_asset c && negb (requestedExplicitly toLowerCase inputPatterns c));
    cbn [negb andb].
  - cbn [skip std_processed std_skipped std_contentParts].
    rewrite map_app. auto.
  - destruct (fr_error (cand_result c)) as [error|].
    + destruct (nonempty error); cbn [negb].
      * cbn [skip std_processed std_skipped std_contentParts].
        rewrite map_app. auto.
      * cbn [process std_processed std_skipped std_contentParts].
        rewrite length_app. simpl. split; [reflexivity|].
        split; [reflexivity | lia].
    + cbn [nonempty negb process std_processed std_skipped std_contentParts].
      rewrite length_app. simpl. split; [reflexivity|].
      split; [reflexivity | lia].
Qed.

Lemma standard_read_spec (toLowerCase : jsstring -> jsstring)
      (inputPatterns : list jsstring) (files : list candidate) :
  forall st,
    let st' := standard_read toLowerCase inputPatterns files st in
    std_processed st'
    = std_processed st
      ++ map cand_relative (filter (is_processed toLowerCase inputPatterns) files)
    /\ map sk_path (std_skipped st')
       = map sk_path (std_skipped st)
         ++ map cand_relative
              (filter (fun c => negb (is_processed toLowerCase inputPatterns c))
                      files)
    /\ length (std_contentParts st')
       = length (std_contentParts st)
         + length (filter (is_processed toLowerCase inputPatterns) files).
Proof.
  unfold standard_read.
  induction files as [|c files IH]; intros st; cbn [fold_left filter].
  - rewrite !app_nil_r. simpl. auto.
  - specialize (IH (standard_step toLowerCase inputPatterns st c)).
    cbv zeta in IH. destruct IH as (I1 & I2 & I3).
    pose proof (standard_step_accounts toLowerCase inputPatterns st c) as S.
    cbv zeta in S.
    destruct (is_processed toLowerCase inputPatterns c); cbn [negb];
      destruct S as (S1 & S2 & S3); rewrite I1, I2, I3, S1, S2, S3.
    + cbn [map length]. rewrite <- app_assoc. split; [reflexivity|].
      split; [reflexivity | lia].
    + cbn [map]. rewrite <- app_assoc. auto.
Qed.

(** X23. The standard read accounts for every file. Each file of the sorted
    list is either processed or reported as skipped, never both and never
    neither: the processed paths are those of the files that are not an
    image or a PDF left out and whose read reported no error, the skipped
    paths are those of the others, both in the order of the list, and there
    is one content part per processed file. An image or a PDF is read only
    when a pattern of the request holds its extension or its name. *)
Theorem standard_read_accounts_for_every_file :
  forall (toLowerCase : jsstring -> jsstring) (inputPatterns : list jsstring)
         (files : list candidate),
    let st := standard_read toLowerCase inputPatterns files standard_initial in
    std_processed st
    = map cand_relative (filter (is_processed toLowerCase inputPatterns) files)
    /\ map sk_path (std_skipped st)
       = map cand_relative
           (filter (fun c => negb (is_processed toLowerCase inputPatterns c)) files)
    /\ length (std_processed st) + length (std_skipped st) = length files
    /\ length (std_contentParts st) = length (std_processed st)
    /\ (forall c, In c files -> is_asset c = true ->
                  requestedExplicitly toLowerCase inputPatterns c = false ->
                  is_processed toLowerCase inputPatterns c = false).
Proof.
  intros toLowerCase inputPatterns files st. subst st.
  destruct (standard_read_spec toLowerCase inputPatterns files standard_initial)
    as (H1 & H2 & H3).
  cbn [standard_initial std_processed std_skipped std_contentParts
       map app length Nat.add] in H1, H2, H3.
  split; [exact H1|]. split; [exact H2|]. split; [|split].
  - rewrite <- (length_map sk_path (std_skipped _)), H1, H2, !length_map.
    apply filter_partition_length.
  - rewrite H3, H1, length_map. reflexivity.
  - intros c _ Ha Hr. unfold is_processed. rewrite Ha, Hr. reflexivity.
Qed.

(* ===================================================================== *)
(** ** The calls written as text *)
(* ===================================================================== *)

Lemma span1_class (f : N -> bool) (s a b : jsstring) :
  span1 f s = Some (a, b) -> a <> [] /\ Forall (fun c => f c = true) a.
Proof.
  unfold span1. intros H. destruct (span_spec f s) as (_ & Hf & _).
  destruct (span f s) as [[|c a'] b']; [discriminate|].
  injection H as <- <-. split; [discriminate | exact Hf].
Qed.

Lemma simple_re_name (s name : jsstring) (n : nat) :
  simple_re s = Some (name, n) -> is_identifier name.
Proof.
  unfold simple_re. intros H.
  destruct (strip_prefix CALLING s) as [r0|]; [|discriminate].
  destruct (span1 is_word r0) as [[a b]|] eqn:E; [|discriminate].
  injection H as <- _. exact (span1_class _ _ _ _ E).
Qed.

Lemma tool_re_captures (s functionName paramName paramValue : jsstring)
      (n : nat) :
  tool_re s = Some ((functionName, paramName, paramValue), n) ->
  is_identifier functionName /\ is_identifier paramName
  /\ paramValue <> [] /\ Forall (fun c => not_quote c = true) paramValue.
Proof.
  unfold tool_re. intros H.
  destruct (strip_prefix OPEN_TOOL s) as [r0|]; [|discriminate].
  destruct (span is_space r0) as [w0 r1].
  destruct (span1 is_word r1) as [[name r2]|] eqn:E1; [|discriminate].
  destruct (span1 is_space r2) as [[w2 r3]|]; [|discriminate].
  destruct (strip_prefix (js "for") r3) as [r4|]; [|discriminate].
  destruct (span1 is_space r4) as [[w4 r5]|]; [|discriminate].
  destruct (span1 is_word r5) as [[param r6]|] eqn:E2; [|discriminate].
  destruct (span1 is_space r6) as [[w6 r7]|]; [|discriminate].
  destruct r7 as [|q r8]; [discriminate|].
  destruct (negb (is_quote q)); [discriminate|].
  destruct (span1 not_quote r8) as [[value r9]|] eqn:E3; [|discriminate].
  destruct r9 as [|q' r10]; [discriminate|].
  destruct (negb (is_quote q')); [discriminate|].
  destruct (expect 93 r10) as [r11|]; [|discriminate].
  injection H as <- <- <- _.
  split; [exact (span1_class _ _ _ _ E1)|].
  split; [exact (span1_class _ _ _ _ E2)|].
  exact (span1_class _ _ _ _ E3).
Qed.

Lemma block_call_args (prefix : string) (inner : jsstring) (fc : function_call) :
  block_call prefix inner = Some fc ->
  fc_id fc = GeneratedId prefix /\ truthy (fc_args fc) = true.
Proof.
  unfold block_call. intros H.
  destruct (JSON_parse (trim inner)) as [data|]; [|discriminate].
  assert (E : Some {| fc_id := GeneratedId prefix;
                      fc_name := get_prop (js "action") data;
                      fc_args := match get_prop (js "action_input") data with
                                 | Some a => if truthy a then a else JObj []
                                 | None => JObj []
                                 end |} = Some fc).
  { destruct data; try exact H. discriminate. }
  injection E as <-. cbn [fc_id fc_args]. split; [reflexivity|].
  destruct (get_prop (js "action_input") data) as [a|]; [|reflexivity].
  destruct (truthy a) eqn:T; [exact T | reflexivity].
Qed.

(** X24. What the calls written as text look like. Every call extracted
    from the text of a reply carries an identifier the normalizer made and
    arguments that are truthy: a block without a usable [action_input] gets
    the empty object. A call of the inline or of the natural-language form
    is named by a non-empty run of word characters; the inline form gives
    it one parameter, named likewise, whose value is a non-empty string
    without quote characters. *)
Theorem textual_calls_shape :
  forall (raw : jsstring),
    Forall (fun fc => generated fc /\ truthy (fc_args fc) = true)
           (textual_calls raw)
    /\ Forall (fun fc =>
                 named_by_identifier fc
                 /\ exists paramName paramValue,
                      fc_args fc = JObj [(paramName, JStr paramValue)]
                      /\ is_identifier paramName
                      /\ paramValue <> []
                      /\ Forall (fun c => not_quote c = true) paramValue)
              (map snd (tool_calls "grok_mini_" raw))
    /\ Forall (fun fc => named_by_identifier fc /\ fc_args fc = JObj [])
              (map snd (simple_calls "grok_simple_" raw)).
Proof.
  intros raw.
  assert (Ht : Forall (fun fc =>
                 named_by_identifier fc
                 /\ exists paramName paramValue,
                      fc_args fc = JObj [(paramName, JStr paramValue)]
                      /\ is_identifier paramName
                      /\ paramValue <> []
                      /\ Forall (fun c => not_quote c = true) paramValue)
              (map snd (tool_calls "grok_mini_" raw))).
  { apply Forall_forall. intros fc Hin. apply in_map_iff in Hin.
    destruct Hin as ([i fc'] & E & Hin). cbn [snd] in E. subst fc'.
    apply tool_calls_sound in Hin.
    destruct Hin as (fn & pn & pv & n & Hre & ->).
    destruct (tool_re_captures _ _ _ _ _ Hre) as (H1 & H2 & H3 & H4).
    split; [exists fn; split; [reflexivity | exact H1]|].
    exists pn, pv. auto. }
  assert (Hs : Forall (fun fc => named_by_identifier fc /\ fc_args fc = JObj [])
                 (map snd (simple_calls "grok_simple_" raw))).
  { apply Forall_forall. intros fc Hin. apply in_map_iff in Hin.
    destruct Hin as ([i fc'] & E & Hin). cbn [snd] in E. subst fc'.
    apply simple_calls_sound in Hin. destruct Hin as (name & n & Hre & ->).
    split; [|reflexivity]. exists name. split; [reflexivity|].
    exact (simple_re_name _ _ _ Hre). }
  split; [|split; [exact Ht | exact Hs]].
  unfold textual_calls. apply Forall_app. split; [|apply Forall_app; split].
  - apply Forall_forall. intros fc Hin. apply in_map_iff in Hin.
    destruct Hin as ([i fc'] & E & Hin). cbn [snd] in E. subst fc'.
    apply block_calls_sound in Hin. destruct Hin as (inner & n & _ & Hc).
    destruct (block_call_args _ _ _ Hc) as [H1 H2].
    split; [exists "grok_"%string; exact H1 | exact H2].
  - apply Forall_forall. intros fc Hin. apply in_map_iff in Hin.
    destruct Hin as ([i fc'] & E & Hin). cbn [snd] in E. subst fc'.
    apply tool_calls_sound in Hin.
    destruct Hin as (fn & pn & pv & n & _ & ->).
    split; [exists "grok_mini_"%string|]; reflexivity.
  - apply Forall_forall. intros fc Hin. apply in_map_iff in Hin.
    destruct Hin as ([i fc'] & E & Hin). cbn [snd] in E. subst fc'.
    apply simple_calls_sound in Hin. destruct Hin as (name & n & _ & ->).
    split; [exists "grok_simple_"%string|]; reflexivity.
Qed.

Lemma join_length (l : list jsstring) :
  length (join (js " ") l) = joined_length l.
Proof.
  unfold joined_length. induction l as [|x l IH]; [reflexivity|].
  destruct l as [|y l].
  - simpl. lia.
  - rewrite join_cons by discriminate. rewrite !length_app, IH.
    cbn [map list_sum length]. simpl. lia.
Qed.

Lemma joined_length_grows (l : list jsstring) (x : jsstring) :
  joined_length l <= joined_length (l ++ [x]).
Proof.
  unfold joined_length. rewrite map_app, list_sum_app, length_app.
  cbn [map list_sum fold_right length]. unfold jsstring. lia.
Qed.

(** X25. The token estimate of a list of contents. The count is the
    ceiling of a quarter of the length of the texts joined by single
    spaces: the lengths of the texts plus one for each gap between two of
    them, a content without text counting as an empty text. An empty list
    counts zero, and adding a content at the end never lowers the count. *)
Theorem countTokens_of_contents :
  forall (model : jsstring) (l : list content_union) (c : content_union),
    let n := countTokens (count_contents model l) in
    let chars := N.of_nat (joined_length (map count_text l)) in
    (chars <= 4 * n < chars + 4)%N
    /\ countTokens (count_contents model []) = 0%N
    /\ (n <= countTokens (count_contents model (l ++ [c])))%N.
Proof.
  intros model l c n chars. subst n chars.
  assert (E : forall l', countTokens (count_contents model l')
                         = ceil_div4 (N.of_nat (joined_length (map count_text l')))).
  { intros l'. unfold countTokens, count_contents.
    cbn [ct_contents contentArray]. rewrite join_length. reflexivity. }
  rewrite !E. split; [apply ceil_div4_spec|]. split; [reflexivity|].
  apply ceil_div4_mono. rewrite map_app. cbn [map].
  pose proof (joined_length_grows (map count_text l) (count_text c)). lia.
Qed.

(* ===================================================================== *)
(** ** The files the smart selection reads *)
(* ===================================================================== *)

Lemma observe_paths (env : environment) (l : list jsstring) :
  map sel_path (observe env l) = l.
Proof.
  unfold observe. generalize 0. induction l as [|f l IH]; intros n;
    [reflexivity|].
  cbn [length seq combine map fst snd].
  destruct (env n f) as [[aborted relativePath] res]. cbn [sel_path].
  rewrite IH. reflexivity.
Qed.

Lemma read_loop_counts (files : list selected_file) :
  forall st,
    length (contentParts st) <= length (filesRead st) ->
    length (contentParts (read_loop files st))
    <= length (filesRead (read_loop files st)).
Proof.
  induction files as [|f rest IH]; intros st H; [exact H|].
  destruct (sel_aborted f) eqn:Ea.
  - cbn [read_loop]. rewrite Ea. exact H.
  - rewrite read_loop_cons by exact Ea.
    assert (Hn : length (contentParts (note_read f st)) + 1
                 <= length (filesRead (note_read f st))).
    { cbn [note_read contentParts filesRead]. rewrite length_app. simpl. lia. }
    destruct (sel_read f) as [content| |].
    + destruct (totalTokens st + estimateTokens content >? maxTokenBudget)%Z.
      * cbn [push_content contentParts filesRead]. rewrite length_app.
        simpl. exact Hn.
      * apply IH. cbn [push_content contentParts filesRead].
        rewrite length_app. simpl. exact Hn.
    + apply IH. lia.
    + apply IH. lia.
Qed.

(** X26. The files the smart selection reads. Whatever the model replies
    and whatever the environment answers, stages 3 and 4 read at most
    twenty files, each of them one of the files found, in the order of the
    selection and without skipping any before the last one read; and every
    content part comes from a file that was read. *)
Theorem smart_selection_reads :
  forall (env : environment) (sortedFiles : list jsstring)
         (responseText : option jsstring),
    let st := smart_selection_read env sortedFiles responseText in
    (exists k, filesRead st
               = firstn k (select_files sortedFiles responseText))
    /\ length (filesRead st) <= 20
    /\ (forall f, In f (filesRead st) -> In f sortedFiles)
    /\ length (contentParts st) <= length (filesRead st).
Proof.
  intros env sortedFiles responseText st. subst st.
  unfold smart_selection_read, budgeted_read.
  set (selected := select_files sortedFiles responseText).
  destruct (read_loop_bounds (observe env selected) initial_state
              within_budget_initial) as (_ & _ & k & Hk).
  cbn [initial_state filesRead app] in Hk.
  rewrite <- firstn_map, observe_paths in Hk.
  assert (Hlen : length selected <= 20).
  { subst selected. unfold select_files.
    destruct (firstn 20 _) as [|f fs] eqn:E.
    - rewrite length_firstn. lia.
    - rewrite <- E, length_firstn. lia. }
  split; [exists k; exact Hk|]. split; [|split].
  - rewrite Hk, length_firstn. lia.
  - intros f Hf. rewrite Hk in Hf. apply firstn_In in Hf.
    subst selected. revert f Hf.
    unfold select_files.
    set (picked := filter_truthy _).
    assert (Hp : forall f, In f (firstn 20 picked) -> In f sortedFiles).
    { intros f H. apply firstn_In in H. subst picked.
      apply filter_truthy_In in H. apply in_map_iff in H.
      destruct H as (num & E & _). eapply nth_error_In. exact E. }
    destruct (firstn 20 picked) as [|f0 l] eqn:E.
    + intros f H. apply firstn_In in H. exact H.
    + exact Hp.
  - apply read_loop_counts. simpl. lia.
Qed.
